(** * godb: a log-structured key-value store (kv/log.go, kv/kv.go)

    Shallow embedding of the storage core of godb and the properties its
    specification states about it: the binary entry format, the durable
    append, the replay done when a store is opened, and compaction.

    Conventions of the embedding.
    - A Go [byte] is a [Byte.byte]; a [[]byte] and a Go [string] are both a
      [list byte] (a Go string is an immutable byte sequence, and the
      conversions [[]byte(key)] and [string(b)] copy the bytes unchanged).
    - Go's [uint32] is a [Z] in [0, 2^32), conversions to it are written
      [_ mod 2^32]; Go's [int] is taken to be 64 bits wide, so that the
      offsets computed during replay (all below [2^33]) never wrap.
    - [map[string][]byte] is a [gmap (list byte) (list byte)].
    - The operating system is a state: the files (by path) and a schedule of
      faults that decides which system calls fail. *)

From Stdlib Require Import ZArith List Lia Strings.Byte String DecimalString.
From stdpp Require Import base option list gmap strings fin_maps countable.
From Equations Require Import Equations.

Local Open Scope Z_scope.

(* ===================================================================== *)
(** ** Bytes and fixed-width integers *)
(* ===================================================================== *)

Abbreviation bytes := (list byte).

#[global] Instance byte_eq_decision : EqDecision byte := Byte.byte_eq_dec.

#[global] Instance byte_countable : Countable byte :=
  inj_countable Byte.to_N Byte.of_N Byte.of_to_N.

(** [uint32(b)] for a byte [b]. *)
Definition byte_to_Z (b : byte) : Z := Z.of_N (Byte.to_N b).

(** [byte(v)]: the low eight bits of [v]. *)
Definition byte_of_Z (v : Z) : byte :=
  match Byte.of_N (Z.to_N (Z.land v 255)) with
  | Some b => b
  | None => x00
  end.

(** [uint32(n)] for an [int] [n]: reduction modulo [2^32]. *)
Definition uint32 (n : Z) : Z := n mod 2 ^ 32.

(** [len(b)] as a Go [int]. *)
Definition len (b : bytes) : Z := Z.of_nat (length b).

(** The slice expression [b[lo:hi]], for [0 <= lo <= hi <= len(b)]. *)
Definition slice (b : bytes) (lo hi : Z) : bytes :=
  take (Z.to_nat (hi - lo)) (drop (Z.to_nat lo) b).

(** [binary.BigEndian.PutUint32(b[0:4], v)]: the four bytes written. *)
Definition PutUint32 (v : Z) : bytes :=
  [ byte_of_Z (Z.shiftr v 24); byte_of_Z (Z.shiftr v 16);
    byte_of_Z (Z.shiftr v 8); byte_of_Z v ].

(** [binary.BigEndian.Uint32(b)] on a slice of four bytes (fewer bytes make
    Go panic; every call of the program passes exactly four). *)
Definition Uint32 (b : bytes) : Z :=
  match b with
  | [b0; b1; b2; b3] =>
      Z.lor (Z.lor (Z.lor (byte_to_Z b3) (Z.shiftl (byte_to_Z b2) 8))
                   (Z.shiftl (byte_to_Z b1) 16))
            (Z.shiftl (byte_to_Z b0) 24)
  | _ => 0
  end.

(* ===================================================================== *)
(** ** CRC-32 (IEEE 802.3), as computed by [hash/crc32.ChecksumIEEE] *)
(* ===================================================================== *)

Module crc32.

(** The reflected IEEE polynomial, [crc32.IEEE = 0xedb88320]. *)
Definition IEEE : Z := 0xedb88320.

(** One bit of the bitwise algorithm. *)
Definition step (crc : Z) : Z :=
  if Z.testbit crc 0 then Z.lxor (Z.shiftr crc 1) IEEE else Z.shiftr crc 1.

(** One byte: fold it into the low bits, then shift eight times. *)
Definition update_byte (crc : Z) (b : byte) : Z :=
  Nat.iter 8 step (Z.lxor crc (byte_to_Z b)).

Definition update (crc : Z) (p : bytes) : Z := fold_left update_byte p crc.

Definition ChecksumIEEE (p : bytes) : Z :=
  Z.lxor (update 0xffffffff p) 0xffffffff.

End crc32.

(* ===================================================================== *)
(** ** Entry codec (log.go) *)
(* ===================================================================== *)

(** [type EntryType uint8] with [OpSet = 1] and [OpDel = 2]. *)
Definition OpSet : byte := x01.
Definition OpDel : byte := x02.

(** [buildSetPayload(key, value)]. *)
Definition buildSetPayload (key value : bytes) : bytes :=
  [OpSet] ++ PutUint32 (uint32 (len key)) ++ key
          ++ PutUint32 (uint32 (len value)) ++ value.

(** [buildDelPayload(key)]. *)
Definition buildDelPayload (key : bytes) : bytes :=
  [OpDel] ++ PutUint32 (uint32 (len key)) ++ key.

(** The bytes [writeLogEntry] hands to the file for one payload: the
    eight-byte header [hdr] and then the payload. *)
Definition entry_header (payload : bytes) : bytes :=
  PutUint32 (uint32 (len payload)) ++ PutUint32 (crc32.ChecksumIEEE payload).

Definition entry_frame (payload : bytes) : bytes :=
  entry_header payload ++ payload.

(* ===================================================================== *)
(** ** The operating system: files, handles and failing calls *)
(* ===================================================================== *)

(** The errors the program can observe. [EIO] stands for any failure that
    the operating system reports on its own account (disk full, I/O error,
    permission, ...); the others are the errors whose cause is visible in
    the state. [Errorf] is an error built by [fmt.Errorf]. *)
Inductive error : Type :=
| EIO
| EExist
| ENotExist
| EClosed
| EOF
| ErrUnexpectedEOF
| Errorf (msg : string).

(** A Go result [(T, error)]. A function that returns only [error] returns
    an [option error], [None] being [nil]. *)
Inductive result (A : Type) : Type :=
| Ok (a : A)
| Err (e : error).
Arguments Ok {A} a.
Arguments Err {A} e.

(** What the operating system decides for one system call: it succeeds, or
    it fails; a failing [write] may have transferred the first [partial]
    bytes before failing. *)
Inductive outcome : Type :=
| Succeeds
| Fails (partial : nat).

(** The state of the operating system: the regular files by path, and the
    outcomes of the system calls to come, in order. When the schedule is
    exhausted every further call succeeds, so the empty schedule is the
    run without faults. *)
Record OS : Type := mkOS {
  files : gmap string bytes;
  faults : list outcome
}.

(** An open file, [*os.File]: the path it was opened at, its offset, whether
    it was opened with [O_APPEND], and whether it has been closed. The
    program never renames or removes a file while a handle on it is open,
    so a handle is identified with its path. *)
Record File : Type := mkFile {
  f_path : string;
  f_off : nat;
  f_append : bool;
  f_closed : bool
}.

(** The flags of [os.OpenFile] that change what the call does. *)
Record open_flags : Type := mkFlags {
  O_CREATE : bool;
  O_EXCL : bool;
  O_TRUNC : bool;
  O_APPEND : bool
}.

(** Computations that run system calls. *)
Definition IO (A : Type) : Type := OS → A * OS.

#[global] Instance IO_ret : MRet IO := λ A x s, (x, s).
#[global] Instance IO_bind : MBind IO :=
  λ A B k m s, let '(x, s') := m s in k x s'.

(** The outcome of the next system call. *)
Definition next_outcome : IO outcome := λ s,
  match faults s with
  | [] => (Succeeds, s)
  | o :: rest => (o, mkOS (files s) rest)
  end.

Definition get_files : IO (gmap string bytes) := λ s, (files s, s).

Definition set_files (fs : gmap string bytes) : IO unit :=
  λ s, (tt, mkOS fs (faults s)).

(** [os.OpenFile(path, flags, 0o664)]. *)
Definition OpenFile (path : string) (fl : open_flags) : IO (result File) :=
  o ← next_outcome;
  match o with
  | Fails _ => mret (Err EIO)
  | Succeeds =>
      fs ← get_files;
      let f := mkFile path 0 (O_APPEND fl) false in
      match fs !! path with
      | Some _ =>
          if O_CREATE fl && O_EXCL fl then mret (Err EExist)
          else if O_TRUNC fl then set_files (<[path := []]> fs) ;; mret (Ok f)
          else mret (Ok f)
      | None =>
          if O_CREATE fl then set_files (<[path := []]> fs) ;; mret (Ok f)
          else mret (Err ENotExist)
      end
  end.

(** The content of a file after [data] is written at offset [off]; a write
    past the end leaves a hole of zero bytes. *)
Definition write_at (content : bytes) (off : nat) (data : bytes) : bytes :=
  take off content ++ replicate (off - length content) x00
    ++ data ++ drop (off + length data) content.

(** [f.Write(data)]: at the end of the file for an [O_APPEND] handle, at the
    handle's offset otherwise. Only the error of the result is used by the
    program. *)
Definition Write (f : File) (data : bytes) : IO (option error * File) :=
  if f_closed f then mret (Some EClosed, f) else
  o ← next_outcome;
  fs ← get_files;
  match fs !! f_path f with
  | None => mret (Some ENotExist, f)
  | Some content =>
      let off := if f_append f then length content else f_off f in
      let written := match o with Succeeds => data | Fails n => take n data end in
      set_files (<[f_path f := write_at content off written]> fs) ;;
      mret (match o with Succeeds => None | Fails _ => Some EIO end,
            mkFile (f_path f) (off + length written) (f_append f) false)
  end.

(** [f.Sync()]. Durability across a crash is not part of the model. *)
Definition Sync (f : File) : IO (option error) :=
  if f_closed f then mret (Some EClosed) else
  o ← next_outcome;
  mret (match o with Succeeds => None | Fails _ => Some EIO end).

(** [f.Close()]: the handle is unusable afterwards, whatever is returned. *)
Definition Close (f : File) : IO (option error * File) :=
  if f_closed f then mret (Some EClosed, f) else
  o ← next_outcome;
  mret (match o with Succeeds => None | Fails _ => Some EIO end,
        mkFile (f_path f) (f_off f) (f_append f) true).

(** [f.Seek(0, 2)]: move the offset to the end of the file. *)
Definition Seek_end (f : File) : IO (option error * File) :=
  if f_closed f then mret (Some EClosed, f) else
  o ← next_outcome;
  fs ← get_files;
  match o, fs !! f_path f with
  | Succeeds, Some content =>
      mret (None, mkFile (f_path f) (length content) (f_append f) false)
  | Succeeds, None => mret (Some ENotExist, f)
  | Fails _, _ => mret (Some EIO, f)
  end.

(** [os.Rename(oldpath, newpath)]: atomic, replaces [newpath] if it exists. *)
Definition Rename (oldpath newpath : string) : IO (option error) :=
  o ← next_outcome;
  match o with
  | Fails _ => mret (Some EIO)
  | Succeeds =>
      fs ← get_files;
      match fs !! oldpath with
      | None => mret (Some ENotExist)
      | Some content =>
          set_files (<[newpath := content]> (delete oldpath fs)) ;; mret None
      end
  end.

(** [os.Remove(path)]. *)
Definition Remove (path : string) : IO (option error) :=
  o ← next_outcome;
  match o with
  | Fails _ => mret (Some EIO)
  | Succeeds =>
      fs ← get_files;
      match fs !! path with
      | None => mret (Some ENotExist)
      | Some _ => set_files (delete path fs) ;; mret None
      end
  end.

(** The three calls on the directory that holds the log, [os.Open(dir)],
    [df.Sync()] and [df.Close()]: they change no file content, so all the
    model keeps of them is whether they fail. *)
Definition Open_dir : IO (option error) :=
  o ← next_outcome;
  mret (match o with Succeeds => None | Fails _ => Some EIO end).

Definition Sync_dir : IO (option error) :=
  o ← next_outcome;
  mret (match o with Succeeds => None | Fails _ => Some EIO end).

Definition Close_dir : IO (option error) :=
  o ← next_outcome;
  mret (match o with Succeeds => None | Fails _ => Some EIO end).

(** [io.ReadFull(f, buf)] with [len(buf) = n]: it returns [n] bytes, or
    [io.EOF] when no byte is left, or [io.ErrUnexpectedEOF] when fewer than
    [n] are left, or the error of the failing read. With an empty buffer it
    returns at once without reading. *)
Definition ReadFull (f : File) (n : nat) : IO (result bytes * File) :=
  if decide (n = 0%nat) then mret (Ok [], f) else
  if f_closed f then mret (Err EClosed, f) else
  o ← next_outcome;
  fs ← get_files;
  match o, fs !! f_path f with
  | Fails _, _ => mret (Err EIO, f)
  | Succeeds, None => mret (Err ENotExist, f)
  | Succeeds, Some content =>
      let avail := drop (f_off f) content in
      if decide (avail = []) then mret (Err EOF, f)
      else if decide (length avail < n)%nat then
        mret (Err ErrUnexpectedEOF,
              mkFile (f_path f) (length content) (f_append f) false)
      else
        mret (Ok (take n avail),
              mkFile (f_path f) (f_off f + n) (f_append f) false)
  end.

(* ===================================================================== *)
(** ** Log writer and log reader (log.go) *)
(* ===================================================================== *)

(** [writeLogEntry(f, payload)]. *)
Definition writeLogEntry (f : File) (payload : bytes) : IO (option error * File) :=
  let hdr := PutUint32 (uint32 (len payload))
             ++ PutUint32 (crc32.ChecksumIEEE payload) in
  '(err, f) ← Write f hdr;
  match err with
  | Some e => mret (Some e, f)
  | None =>
      '(err, f) ← Write f payload;
      match err with
      | Some e => mret (Some e, f)
      | None =>
          err ← Sync f;
          mret (err, f)
      end
  end.

(** The bytes of the file that lie after the offset of a handle: the measure
    that makes the loop of [readLog] terminate. *)
Definition remaining (f : File) (s : OS) : nat :=
  match files s !! f_path f with
  | Some content => length content - f_off f
  | None => 0
  end.

Definition inspect {A : Type} (a : A) : {b : A | a = b} := exist _ a eq_refl.

(** The loop of [readLog(f)], [results] being the payloads read so far. *)
Equations? readLog_loop (f : File) (results : list bytes) (s : OS)
  : (list bytes * option error * File) * OS by wf (remaining f s) lt :=
readLog_loop f results s with inspect (ReadFull f 8 s) := {
  | exist _ ((Err err, f1), s1) _ :=
      match err with
      | EOF | ErrUnexpectedEOF => ((results, None, f1), s1)
      | _ => ((results, Some err, f1), s1)
      end;
  | exist _ ((Ok hdr, f1), s1) H1
      with inspect (ReadFull f1 (Z.to_nat (Uint32 (slice hdr 0 4))) s1) := {
      | exist _ ((Err _, f2), s2) _ := ((results, None, f2), s2);
      | exist _ ((Ok payload, f2), s2) H2 :=
          if decide (crc32.ChecksumIEEE payload ≠ Uint32 (slice hdr 4 8))
          then ((results, None, f2), s2)
          else readLog_loop f2 (results ++ [payload]) s2 } }.
Proof.
  unfold ReadFull, mbind, mret, IO_bind, IO_ret, next_outcome, get_files in H1, H2.
  unfold remaining.
  repeat (simplify_eq/=; case_match; simplify_eq/=);
    repeat match goal with E : decide _ = _ |- _ => clear E end;
    rewrite ?length_drop in *; lia.
Qed.

(** [readLog(f)]. *)
Definition readLog (f : File) : IO (list bytes * option error * File) :=
  readLog_loop f [].

(* ===================================================================== *)
(** ** The store (kv.go) *)
(* ===================================================================== *)

(** [type KV struct { data map[string][]byte; log *os.File; logPath string }]. *)
Record KV : Type := mkKV {
  data : gmap bytes bytes;
  log : File;
  logPath : string
}.

(** What one payload of the log asks for. The program has no such type: it
    decodes a payload and updates the map in the same [switch]; the
    embedding names the decoded record so that the codec can be stated
    apart from the map. *)
Inductive record : Type :=
| SetRecord (key value : bytes)
| DeleteRecord (key : bytes).

(** The verb [%d] of [fmt] on a byte: its value in decimal. *)
Definition format_d (b : byte) : string :=
  NilZero.string_of_uint (N.to_uint (Byte.to_N b)).

(** The decoding half of the [switch EntryType(payload[0])] of [NewKV], the
    offsets computed as the program computes them. The loop calls it on
    non-empty payloads only. *)
Definition decode (payload : bytes) : result record :=
  match payload with
  | [] => Err (Errorf "empty payload")
  | t :: _ =>
      if decide (t = OpSet) then
        let off := 1 in
        if decide (off + 4 > len payload) then Err (Errorf "malformed set entry")
        else
          let klen := Uint32 (slice payload off (off + 4)) in
          let off := off + 4 in
          if decide (off + klen > len payload)
          then Err (Errorf "malformed set entry key")
          else
            let key := slice payload off (off + klen) in
            let off := off + klen in
            if decide (off + 4 > len payload)
            then Err (Errorf "malformed set entry value length")
            else
              let vlen := Uint32 (slice payload off (off + 4)) in
              let off := off + 4 in
              if decide (off + vlen > len payload)
              then Err (Errorf "malformed set entry value")
              else
                let val := slice payload off (off + vlen) in
                Ok (SetRecord key val)
      else if decide (t = OpDel) then
        let off := 1 in
        if decide (off + 4 > len payload) then Err (Errorf "malformed del entry")
        else
          let klen := Uint32 (slice payload off (off + 4)) in
          let off := off + 4 in
          if decide (off + klen > len payload)
          then Err (Errorf "malformed del entry key")
          else
            let key := slice payload off (off + klen) in
            Ok (DeleteRecord key)
      else Err (Errorf ("unknown entry type " +:+ format_d t))
  end.

(** The other half: [k.data[key] = val] and [delete(k.data, key)]. *)
Definition apply_record (r : record) (d : gmap bytes bytes) : gmap bytes bytes :=
  match r with
  | SetRecord key val => <[key := val]> d
  | DeleteRecord key => delete key d
  end.

(** One turn of the replay loop of [NewKV]. *)
Definition replay_entry (d : gmap bytes bytes) (payload : bytes)
  : result (gmap bytes bytes) :=
  if decide (len payload = 0) then Ok d
  else match decode payload with
       | Ok r => Ok (apply_record r d)
       | Err e => Err e
       end.

(** The replay loop, [for _, payload := range entries], which returns at the
    first payload that does not decode. *)
Fixpoint replay (entries : list bytes) (d : gmap bytes bytes)
  : result (gmap bytes bytes) :=
  match entries with
  | [] => Ok d
  | payload :: rest =>
      match replay_entry d payload with
      | Ok d' => replay rest d'
      | Err e => Err e
      end
  end.

(** [NewKV(logPath)]. *)
Definition NewKV (path : string) : IO (result KV) :=
  r ← OpenFile path (mkFlags true false false false);
  match r with
  | Err err => mret (Err err)
  | Ok f =>
      '(entries, rerr, f) ← readLog f;
      match rerr with
      | Some err => Close f ;; mret (Err err)
      | None =>
          match replay entries ∅ with
          | Err err => mret (Err err)
          | Ok d =>
              '(serr, f) ← Seek_end f;
              match serr with
              | Some err => Close f ;; mret (Err err)
              | None => mret (Ok (mkKV d f path))
              end
          end
      end
  end.

(** [k.Set(key, value)]. *)
Definition KV_Set (k : KV) (key value : bytes) : IO (option error * KV) :=
  let payload := buildSetPayload key value in
  '(err, f) ← writeLogEntry (log k) payload;
  match err with
  | Some e => mret (Some e, mkKV (data k) f (logPath k))
  | None => mret (None, mkKV (<[key := value]> (data k)) f (logPath k))
  end.

(** [k.Del(key)]. *)
Definition Del (k : KV) (key : bytes) : IO (option error * KV) :=
  let payload := buildDelPayload key in
  '(err, f) ← writeLogEntry (log k) payload;
  match err with
  | Some e => mret (Some e, mkKV (data k) f (logPath k))
  | None => mret (None, mkKV (delete key (data k)) f (logPath k))
  end.

(** [k.Get(key)]: [Some v] is [(v, true)], [None] is [(nil, false)]. *)
Definition Get (k : KV) (key : bytes) : option bytes := data k !! key.

(** [k.Close()]. *)
Definition KV_Close (k : KV) : IO (option error * KV) :=
  '(err, f) ← Close (log k);
  mret (err, mkKV (data k) f (logPath k)).

(** The loop of [Compact] over the entries of the map, in the order [range]
    visits them; on a failed write it closes and removes the temporary file
    and returns the error. *)
Fixpoint Compact_write (tmpName : string) (tmpF : File)
    (entries : list (bytes * bytes)) : IO (option error * File) :=
  match entries with
  | [] => mret (None, tmpF)
  | (key, val) :: rest =>
      let payload := buildSetPayload key val in
      '(err, tmpF) ← writeLogEntry tmpF payload;
      match err with
      | Some e =>
          '(_, tmpF) ← Close tmpF;
          Remove tmpName ;;
          mret (Some e, tmpF)
      | None => Compact_write tmpName tmpF rest
      end
  end.

(** The orders in which [for key, val := range m] may visit a map: every
    entry once, in an order Go leaves unspecified. *)
Definition range_order (m : gmap bytes bytes) (order : list (bytes * bytes)) : Prop :=
  order ≡ₚ map_to_list m.

(** [k.Compact()], [order] being the order in which [range k.data] visits
    the map during this call. *)
Definition Compact (order : list (bytes * bytes)) (k : KV) : IO (option error * KV) :=
  let tmpName := logPath k +:+ ".compact.tmp" in
  r ← OpenFile tmpName (mkFlags true true true false);
  match r with
  | Err err => mret (Some err, k)
  | Ok tmpF =>
  '(err, tmpF) ← Compact_write tmpName tmpF order;
  match err with
  | Some e => mret (Some e, k)
  | None =>
  '(err, tmpF) ← Close tmpF;
  match err with
  | Some e => Remove tmpName ;; mret (Some e, k)
  | None =>
  let rotatedName := logPath k +:+ ".compact.new" in
  err ← Rename tmpName rotatedName;
  match err with
  | Some e => Remove tmpName ;; mret (Some e, k)
  | None =>
  err ← Open_dir;
  match err with
  | Some e => mret (Some e, k)
  | None =>
  err ← Sync_dir;
  match err with
  | Some e => Close_dir ;; mret (Some e, k)
  | None =>
  err ← Close_dir;
  match err with
  | Some e => mret (Some e, k)
  | None =>
  '(err, oldLog) ← Close (log k);
  let k := mkKV (data k) oldLog (logPath k) in
  match err with
  | Some e => mret (Some e, k)
  | None =>
  err ← Rename rotatedName (logPath k);
  match err with
  | Some e => mret (Some e, k)
  | None =>
  err ← Open_dir;
  match err with
  | Some e => mret (Some e, k)
  | None =>
  err ← Sync_dir;
  match err with
  | Some e => Close_dir ;; mret (Some e, k)
  | None =>
  err ← Close_dir;
  match err with
  | Some e => mret (Some e, k)
  | None =>
  r ← OpenFile (logPath k) (mkFlags false false false true);
  match r with
  | Err err => mret (Some err, k)
  | Ok newLog => mret (None, mkKV (data k) newLog (logPath k))
  end end end end end end end end end end end end end.

(* ===================================================================== *)
(** * Vocabulary of the specification *)
(* ===================================================================== *)

(** A handle moved forward by [n] bytes. *)
Definition advance (f : File) (n : nat) : File :=
  mkFile (f_path f) (f_off f + n) (f_append f) false.

(** [readable f s avail]: the handle [f] is open on a file of [s], the bytes
    after its offset are [avail], and no system call of [s] is scheduled to
    fail. *)
Definition readable (f : File) (s : OS) (avail : bytes) : Prop :=
  f_closed f = false ∧ faults s = [] ∧
  ∃ content, files s !! f_path f = Some content ∧ drop (f_off f) content = avail.

(** What a crash in the middle of an append can leave after the last whole
    entry: nothing, a part of a header, a header and a part of the payload
    it announces, or an entry whose checksum field is not the checksum of
    its payload. *)
Inductive crash_tail : bytes → Prop :=
| tail_clean : crash_tail []
| tail_short_header (t : bytes) :
    (length t < 8)%nat → crash_tail t
| tail_short_payload (hdr part : bytes) :
    length hdr = 8%nat → len part < Uint32 (slice hdr 0 4) →
    crash_tail (hdr ++ part)
| tail_checksum_mismatch (sum payload rest : bytes) :
    length sum = 4%nat → len payload < 2 ^ 32 →
    Uint32 sum ≠ crc32.ChecksumIEEE payload →
    crash_tail (PutUint32 (uint32 (len payload)) ++ sum ++ payload ++ rest).

(** The log that holds the payloads [ps], one entry after the other. *)
Definition log_of (ps : list bytes) : bytes := concat (map entry_frame ps).

(** A payload whose length fits the length field of an entry. *)
Definition fits_frame (p : bytes) : Prop := len p < 2 ^ 32.

(** [appendable f s content]: the handle [f] is open on a file of [s] whose
    content is [content], its writes go to the end of that file, and no
    system call of [s] is scheduled to fail. *)
Definition appendable (f : File) (s : OS) (content : bytes) : Prop :=
  f_closed f = false ∧ faults s = [] ∧ files s !! f_path f = Some content ∧
  (f_append f = true ∨ f_off f = length content).

(** [at_end f s content]: the same, whatever the faults to come. *)
Definition at_end (f : File) (s : OS) (content : bytes) : Prop :=
  f_closed f = false ∧ files s !! f_path f = Some content ∧
  (f_append f = true ∨ f_off f = length content).

(** The handle and the state after [d] was appended to [content]. *)
Definition append_file (f : File) (content d : bytes) : File :=
  mkFile (f_path f) (length content + length d) (f_append f) false.

Definition append_os (f : File) (s : OS) (content d : bytes) : OS :=
  mkOS (<[f_path f := content ++ d]> (files s)) [].

(** The number that a byte string writes in base 256, most significant byte
    first. *)
Definition big_endian (b : bytes) : Z :=
  fold_left (λ acc x, acc * 256 + byte_to_Z x) b 0.

(** [store_ok k s content]: the store [k] holds an open handle on its own
    log, whose content is [content], and appends to its end. *)
Definition store_ok (k : KV) (s : OS) (content : bytes) : Prop :=
  f_path (log k) = logPath k ∧ appendable (log k) s content.

(** The payload of a record, and the records that fit an entry: the payload
    must be shorter than [2^32] bytes for the length field to hold its
    length. *)
Definition encode (r : record) : bytes :=
  match r with
  | SetRecord key value => buildSetPayload key value
  | DeleteRecord key => buildDelPayload key
  end.

Definition record_fits (r : record) : Prop := fits_frame (encode r).

Definition record_key (r : record) : bytes :=
  match r with
  | SetRecord key _ => key
  | DeleteRecord key => key
  end.

(** The table that a sequence of records builds, applied in order. *)
Definition table_of (ops : list record) : gmap bytes bytes :=
  fold_left (λ d r, apply_record r d) ops ∅.

(** The payloads that the replay refuses: a tag that is neither [OpSet] nor
    [OpDel]; a key length field that is cut short, or that announces more
    key bytes than the payload has left; for a Set, a value length field that
    is cut short, or that announces more value bytes than the payload has
    left. [body] is the payload after its tag. *)
Inductive malformed : bytes → Prop :=
| unknown_tag (t : byte) (body : bytes) :
    t ≠ OpSet → t ≠ OpDel → malformed (t :: body)
| key_length_cut (t : byte) (body : bytes) :
    t = OpSet ∨ t = OpDel → len body < 4 → malformed (t :: body)
| key_past_end (t : byte) (body : bytes) :
    t = OpSet ∨ t = OpDel → 4 ≤ len body →
    len body < 4 + Uint32 (take 4 body) → malformed (t :: body)
| value_length_cut (body : bytes) :
    4 ≤ len body →
    4 + Uint32 (take 4 body) ≤ len body →
    len body < 4 + Uint32 (take 4 body) + 4 → malformed (OpSet :: body)
| value_past_end (body : bytes) :
    4 ≤ len body →
    4 + Uint32 (take 4 body) + 4 ≤ len body →
    len body < 4 + Uint32 (take 4 body) + 4
               + Uint32 (take 4 (drop (Z.to_nat (4 + Uint32 (take 4 body))) body)) →
    malformed (OpSet :: body).

(** The two names [Compact] derives from the path of the log, and the
    payloads it writes for the entries of the map in the order [order]. *)
Definition tmpName (k : KV) : string := logPath k +:+ ".compact.tmp".

Definition rotatedName (k : KV) : string := logPath k +:+ ".compact.new".

Definition snapshot (order : list (bytes * bytes)) : list bytes :=
  map (λ kv, buildSetPayload kv.1 kv.2) order.

(** ** Vocabulary of the further properties *)

(** [consistent k s ops]: the log of the store [k] holds the records [ops],
    each of which fits an entry, and nothing else; the handle of the store
    is open at its end; no system call of [s] is scheduled to fail; and the
    table is the one that [ops] build. *)
Definition consistent (k : KV) (s : OS) (ops : list record) : Prop :=
  Forall record_fits ops ∧
  store_ok k s (log_of (map encode ops)) ∧
  data k = table_of ops.

(** [reads_from f fs avail]: the handle [f] is open on a file of [fs] and
    the bytes after its offset are [avail]. *)
Definition reads_from (f : File) (fs : gmap string bytes) (avail : bytes) : Prop :=
  f_closed f = false ∧
  ∃ content, fs !! f_path f = Some content ∧ drop (f_off f) content = avail.

(** The system calls that [readLog] makes to read the payloads [ps]: one for
    each header, and one for each payload that is not empty. *)
Definition read_calls (ps : list bytes) : nat :=
  length ps + length (filter (λ p, p ≠ []) ps).

(** A small store used to run the properties: the log of set(a,1), set(b,2),
    delete(a), and the store that [NewKV] builds from it. *)
Definition example_ops : list record :=
  [SetRecord [x61] [x31]; SetRecord [x62] [x32]; DeleteRecord [x61]].

Definition example_os : OS :=
  mkOS {[ "db.log" := log_of (map encode example_ops) ]} [].

Definition example_store : KV :=
  mkKV (table_of example_ops)
       (mkFile "db.log" (length (log_of (map encode example_ops))) false false)
       "db.log".

(* ===================================================================== *)
(** * Properties *)
(* ===================================================================== *)

(** ** Bytes and 32-bit integers *)

Section integers.

Lemma lor_range n a b :
  0 ≤ n → 0 ≤ a < 2 ^ n → 0 ≤ b < 2 ^ n → 0 ≤ Z.lor a b < 2 ^ n.
Proof.
  intros Hn [Ha0 Ha] [Hb0 Hb].
  assert (0 ≤ Z.lor a b) as H0 by (apply Z.lor_nonneg; lia).
  split; [done|].
  apply Z.bounded_iff_bits_nonneg; [done..|].
  intros l Hl. rewrite Z.lor_spec.
  rewrite (proj1 (Z.bounded_iff_bits_nonneg n a Hn Ha0) Ha l Hl).
  by rewrite (proj1 (Z.bounded_iff_bits_nonneg n b Hn Hb0) Hb l Hl).
Qed.

Lemma lxor_range n a b :
  0 ≤ n → 0 ≤ a < 2 ^ n → 0 ≤ b < 2 ^ n → 0 ≤ Z.lxor a b < 2 ^ n.
Proof.
  intros Hn [Ha0 Ha] [Hb0 Hb].
  assert (0 ≤ Z.lxor a b) as H0 by (apply Z.lxor_nonneg; lia).
  split; [done|].
  apply Z.bounded_iff_bits_nonneg; [done..|].
  intros l Hl. rewrite Z.lxor_spec.
  rewrite (proj1 (Z.bounded_iff_bits_nonneg n a Hn Ha0) Ha l Hl).
  by rewrite (proj1 (Z.bounded_iff_bits_nonneg n b Hn Hb0) Hb l Hl).
Qed.

Lemma byte_to_Z_range b : 0 ≤ byte_to_Z b < 256.
Proof.
  unfold byte_to_Z. pose proof (Byte.to_N_bounded b). lia.
Qed.

Lemma land_255 v : Z.land v 255 = v mod 256.
Proof. change 255 with (Z.ones 8). by rewrite Z.land_ones. Qed.

Lemma byte_to_of_Z v : byte_to_Z (byte_of_Z v) = v mod 256.
Proof.
  unfold byte_to_Z, byte_of_Z. rewrite land_255.
  pose proof (Z.mod_pos_bound v 256 eq_refl) as Hv.
  destruct (Byte.of_N (Z.to_N (v mod 256))) as [b|] eqn:E.
  - apply Byte.to_of_N in E. lia.
  - apply Byte.of_N_None_iff in E. lia.
Qed.

Lemma byte_of_to_Z b : byte_of_Z (byte_to_Z b) = b.
Proof.
  unfold byte_of_Z. rewrite land_255, Z.mod_small by apply byte_to_Z_range.
  unfold byte_to_Z. by rewrite N2Z.id, Byte.of_to_N.
Qed.

Lemma length_PutUint32 v : length (PutUint32 v) = 4%nat.
Proof. done. Qed.

Lemma Uint32_range b : 0 ≤ Uint32 b < 2 ^ 32.
Proof.
  destruct b as [|b0 [|b1 [|b2 [|b3 [|]]]]]; simpl; try lia.
  pose proof (byte_to_Z_range b0). pose proof (byte_to_Z_range b1).
  pose proof (byte_to_Z_range b2). pose proof (byte_to_Z_range b3).
  rewrite !Z.shiftl_mul_pow2 by lia.
  repeat apply lor_range; lia.
Qed.

(** The bits of a 32-bit value, regrouped byte by byte. *)
Lemma Uint32_PutUint32 v : 0 ≤ v < 2 ^ 32 → Uint32 (PutUint32 v) = v.
Proof.
  intros [Hv0 Hv]. unfold PutUint32, Uint32. rewrite !byte_to_of_Z.
  change 256 with (2 ^ 8). rewrite <-!Z.land_ones by lia.
  apply Z.bits_inj'. intros i Hi.
  rewrite !Z.lor_spec, !Z.shiftl_spec, !Z.land_spec by lia.
  rewrite !Z.testbit_ones by lia.
  destruct (decide (i < 8)).
  { rewrite !(Z.testbit_neg_r _ (i - _)) by lia.
    replace (i <? 8) with true by lia. replace (0 <=? i) with true by lia.
    simpl. by rewrite !orb_false_r, andb_true_r. }
  destruct (decide (i < 16)).
  { rewrite !(Z.testbit_neg_r _ (i - 16)), !(Z.testbit_neg_r _ (i - 24)) by lia.
    rewrite Z.shiftr_spec by lia.
    replace (i <? 8) with false by lia.
    replace (0 <=? i - 8) with true by lia.
    replace (i - 8 <? 8) with true by lia.
    rewrite !andb_false_r. simpl. rewrite !orb_false_r, andb_true_r.
    f_equal. lia. }
  destruct (decide (i < 24)).
  { rewrite !(Z.testbit_neg_r _ (i - 24)) by lia.
    rewrite !Z.shiftr_spec by lia.
    replace (i <? 8) with false by lia.
    replace (i - 8 <? 8) with false by lia.
    replace (0 <=? i - 16) with true by lia.
    replace (i - 16 <? 8) with true by lia.
    rewrite !andb_false_r. simpl. rewrite !orb_false_r, andb_true_r.
    f_equal. lia. }
  rewrite !Z.shiftr_spec by lia.
  replace (i <? 8) with false by lia.
  replace (i - 8 <? 8) with false by lia.
  replace (i - 16 <? 8) with false by lia.
  replace (0 <=? i - 24) with true by lia.
  rewrite !andb_false_r. simpl.
  replace (i - 24 + 24) with i by lia.
  destruct (decide (i < 32)).
  - replace (i - 24 <? 8) with true by lia. by rewrite andb_true_r.
  - replace (i - 24 <? 8) with false by lia. rewrite andb_false_r.
    symmetry. apply (Z.bounded_iff_bits_nonneg 32 v); lia.
Qed.

Lemma uint32_small n : 0 ≤ n < 2 ^ 32 → uint32 n = n.
Proof. intros. by apply Z.mod_small. Qed.

Lemma uint32_range n : 0 ≤ uint32 n < 2 ^ 32.
Proof. unfold uint32. apply Z.mod_pos_bound. lia. Qed.

Lemma crc32_step_range c : 0 ≤ c < 2 ^ 32 → 0 ≤ crc32.step c < 2 ^ 32.
Proof.
  intros Hc. unfold crc32.step.
  assert (0 ≤ Z.shiftr c 1 < 2 ^ 32).
  { rewrite Z.shiftr_div_pow2 by lia. split; [apply Z.div_pos; lia|].
    apply Z.div_lt_upper_bound; lia. }
  destruct (Z.testbit c 0); [|done].
  apply lxor_range; [lia|done|]. unfold crc32.IEEE. lia.
Qed.

Lemma crc32_update_range p : ∀ c, 0 ≤ c < 2 ^ 32 → 0 ≤ crc32.update c p < 2 ^ 32.
Proof.
  induction p as [|b p IH]; intros c Hc; simpl; [done|].
  apply IH. unfold crc32.update_byte.
  pose proof (byte_to_Z_range b).
  assert (0 ≤ Z.lxor c (byte_to_Z b) < 2 ^ 32) as Hx by (apply lxor_range; lia).
  revert Hx. generalize (Z.lxor c (byte_to_Z b)). intros x Hx. simpl.
  do 8 apply crc32_step_range. done.
Qed.

Lemma ChecksumIEEE_range p : 0 ≤ crc32.ChecksumIEEE p < 2 ^ 32.
Proof.
  unfold crc32.ChecksumIEEE. apply lxor_range; [lia| |lia].
  apply crc32_update_range. lia.
Qed.

End integers.

(** The standard check value of CRC-32/IEEE: the checksum of the ASCII
    string "123456789" is [0xcbf43926]. *)
Example crc32_check_value :
  crc32.ChecksumIEEE [x31; x32; x33; x34; x35; x36; x37; x38; x39] = 0xcbf43926.
Proof. vm_compute. reflexivity. Qed.

(** ** Slices and lengths *)

Section slices.

Lemma len_app (a b : bytes) : len (a ++ b) = len a + len b.
Proof. unfold len. rewrite length_app. lia. Qed.

Lemma len_cons x (a : bytes) : len (x :: a) = 1 + len a.
Proof. unfold len. simpl. lia. Qed.

Lemma len_nil : len [] = 0.
Proof. done. Qed.

Lemma len_PutUint32 v : len (PutUint32 v) = 4.
Proof. done. Qed.

Lemma len_nonneg (a : bytes) : 0 ≤ len a.
Proof. unfold len. lia. Qed.

Lemma slice_middle (b pre mid post : bytes) lo hi :
  b = pre ++ mid ++ post → lo = len pre → hi = lo + len mid →
  slice b lo hi = mid.
Proof.
  intros -> -> ->. unfold slice, len.
  rewrite Nat2Z.id, drop_app_length.
  replace (Z.to_nat _) with (length mid) by lia.
  by rewrite take_app_length.
Qed.

(** The two fields of an eight-byte header. *)
Lemma header_fields (a b : bytes) :
  length a = 4%nat → length b = 4%nat →
  slice (a ++ b) 0 4 = a ∧ slice (a ++ b) 4 8 = b.
Proof.
  intros Ha Hb. split.
  - apply (slice_middle _ [] a b); [done..|]. unfold len. lia.
  - apply (slice_middle _ a b []); [by rewrite app_nil_r|unfold len; lia..].
Qed.

End slices.

Ltac len_simpl :=
  rewrite ?len_app, ?len_cons, ?len_nil, ?len_PutUint32 in *.

(** ** Entry codec *)

Section codec.

Lemma decode_buildSetPayload key value :
  len key < 2 ^ 32 → len value < 2 ^ 32 →
  decode (buildSetPayload key value) = Ok (SetRecord key value).
Proof.
  intros Hk Hv.
  pose proof (len_nonneg key). pose proof (len_nonneg value).
  unfold buildSetPayload.
  set (payload := [OpSet] ++ _).
  assert (len payload = 9 + len key + len value) as Hlen.
  { unfold payload. len_simpl. lia. }
  assert (Uint32 (slice payload 1 (1 + 4)) = len key) as Ek.
  { rewrite (slice_middle _ [OpSet] (PutUint32 (uint32 (len key)))
               (key ++ PutUint32 (uint32 (len value)) ++ value)); [|done..].
    rewrite Uint32_PutUint32 by apply uint32_range. apply uint32_small. lia. }
  assert (slice payload (1 + 4) (1 + 4 + len key) = key) as E2.
  { apply (slice_middle _ ([OpSet] ++ PutUint32 (uint32 (len key))) key
             (PutUint32 (uint32 (len value)) ++ value)).
    - unfold payload. by rewrite <-!(assoc_L app).
    - len_simpl. lia.
    - len_simpl. lia. }
  assert (Uint32 (slice payload (1 + 4 + len key) (1 + 4 + len key + 4))
          = len value) as Ev.
  { rewrite (slice_middle _ ([OpSet] ++ PutUint32 (uint32 (len key)) ++ key)
             (PutUint32 (uint32 (len value))) value).
    - rewrite Uint32_PutUint32 by apply uint32_range. apply uint32_small. lia.
    - unfold payload. by rewrite <-!(assoc_L app).
    - len_simpl. lia.
    - len_simpl. lia. }
  assert (slice payload (1 + 4 + len key + 4) (1 + 4 + len key + 4 + len value)
          = value) as E4.
  { apply (slice_middle _ ([OpSet] ++ PutUint32 (uint32 (len key)) ++ key
                           ++ PutUint32 (uint32 (len value))) value []).
    - unfold payload. by rewrite <-!(assoc_L app), app_nil_r.
    - len_simpl. lia.
    - len_simpl. lia. }
  assert (∃ rest, payload = OpSet :: rest) as [rest Hp] by (by eexists).
  clearbody payload. unfold decode. rewrite Hp at 1.
  rewrite decide_True by done.
  rewrite Ek, Ev, E2, E4, Hlen.
  repeat (case_decide; [lia|]). done.
Qed.

Lemma decode_buildDelPayload key :
  len key < 2 ^ 32 →
  decode (buildDelPayload key) = Ok (DeleteRecord key).
Proof.
  intros Hk. pose proof (len_nonneg key).
  unfold buildDelPayload.
  set (payload := [OpDel] ++ _).
  assert (len payload = 5 + len key) as Hlen.
  { unfold payload. len_simpl. lia. }
  assert (Uint32 (slice payload 1 (1 + 4)) = len key) as Ek.
  { rewrite (slice_middle _ [OpDel] (PutUint32 (uint32 (len key))) key); [|done..].
    rewrite Uint32_PutUint32 by apply uint32_range. apply uint32_small. lia. }
  assert (slice payload (1 + 4) (1 + 4 + len key) = key) as E2.
  { apply (slice_middle _ ([OpDel] ++ PutUint32 (uint32 (len key))) key []).
    - unfold payload. by rewrite <-!(assoc_L app), app_nil_r.
    - len_simpl. lia.
    - len_simpl. lia. }
  assert (∃ rest, payload = OpDel :: rest) as [rest Hp] by (by eexists).
  clearbody payload. unfold decode. rewrite Hp at 1.
  rewrite decide_False by done. rewrite decide_True by done.
  rewrite Ek, E2, Hlen.
  repeat (case_decide; [lia|]). done.
Qed.

End codec.

(** C5. Codec round trip: for every key and value shorter than [2^32] bytes
    (the empty byte string and byte strings in which all 256 byte values
    occur included), decoding the payload built by [buildSetPayload] gives
    the Set record with that key and that value, and decoding the payload
    built by [buildDelPayload] gives the Delete record with that key. *)
Theorem codec_round_trip (key value : bytes) :
  len key < 2 ^ 32 → len value < 2 ^ 32 →
  decode (buildSetPayload key value) = Ok (SetRecord key value) ∧
  decode (buildDelPayload key) = Ok (DeleteRecord key).
Proof.
  intros Hk Hv. split.
  - by apply decode_buildSetPayload.
  - by apply decode_buildDelPayload.
Qed.

(** The round trip at the empty key and the value made of all 256 bytes. *)
Lemma codec_round_trip_witness :
  let all_bytes := map (λ n, byte_of_Z (Z.of_nat n)) (seq 0 256) in
  NoDup all_bytes ∧ length all_bytes = 256%nat ∧
  decode (buildSetPayload [] all_bytes) = Ok (SetRecord [] all_bytes) ∧
  decode (buildDelPayload []) = Ok (DeleteRecord []).
Proof.
  intros all_bytes. split; [|split].
  - apply (bool_decide_unpack (NoDup all_bytes)). vm_compute. reflexivity.
  - reflexivity.
  - apply (codec_round_trip [] all_bytes); vm_compute; reflexivity.
Defined.

(** The error of an unknown tag names the tag in decimal, as
    [fmt.Errorf("unknown entry type %d", payload[0])] prints it. *)
Example decode_unknown_tag :
  decode [x07; x00] = Err (Errorf "unknown entry type 7") ∧
  decode [xff] = Err (Errorf "unknown entry type 255").
Proof. split; reflexivity. Qed.

(** ** Log reader *)

Section reader.

Lemma readLog_loop_body f results s :
  readLog_loop f results s =
    match ReadFull f 8 s with
    | (Err err, f1, s1) =>
        match err with
        | EOF | ErrUnexpectedEOF => (results, None, f1, s1)
        | _ => (results, Some err, f1, s1)
        end
    | (Ok hdr, f1, s1) =>
        match ReadFull f1 (Z.to_nat (Uint32 (slice hdr 0 4))) s1 with
        | (Err _, f2, s2) => (results, None, f2, s2)
        | (Ok payload, f2, s2) =>
            if decide (crc32.ChecksumIEEE payload ≠ Uint32 (slice hdr 4 8))
            then (results, None, f2, s2)
            else readLog_loop f2 (results ++ [payload]) s2
        end
    end.
Proof.
  funelim (readLog_loop f results s);
    repeat match goal with E : ReadFull _ _ _ = _ |- _ => rewrite E end;
    done.
Qed.

Lemma next_outcome_no_faults s : faults s = [] → next_outcome s = (Succeeds, s).
Proof. intros E. unfold next_outcome. by rewrite E. Qed.

Lemma advance_0 f : f_closed f = false → advance f 0 = f.
Proof. destruct f; simpl; intros ->. unfold advance; simpl. f_equal. lia. Qed.

Lemma advance_advance f n m : advance (advance f n) m = advance f (n + m).
Proof. unfold advance; simpl. f_equal. lia. Qed.

Lemma readable_advance f s d rest n :
  n = length d → readable f s (d ++ rest) → readable (advance f n) s rest.
Proof.
  intros -> (Hc & Hf & content & Hl & Hd). repeat split; [done|].
  exists content. split; [done|]. simpl.
  by rewrite <-drop_drop, Hd, drop_app_length.
Qed.

(** Enough bytes are left: [ReadFull] returns them and moves the offset. *)
Lemma ReadFull_ok f s d rest n :
  n = length d → readable f s (d ++ rest) →
  ReadFull f n s = (Ok d, advance f n, s).
Proof.
  intros -> (Hc & Hf & content & Hl & Hd). unfold ReadFull.
  case_decide as Hn.
  { apply nil_length_inv in Hn as ->. simpl. by rewrite advance_0. }
  rewrite Hc. unfold mbind, IO_bind, mret, IO_ret.
  rewrite next_outcome_no_faults by done. unfold get_files.
  rewrite Hl, Hd.
  rewrite decide_False by (by destruct d).
  rewrite decide_False by (rewrite length_app; lia).
  by rewrite take_app_length.
Qed.

(** Fewer bytes are left than asked for: an error, whatever its name; the
    handle stays open on the same file. *)
Lemma ReadFull_short f s avail n :
  readable f s avail → (length avail < n)%nat →
  ∃ e f', ReadFull f n s = (Err e, f', s) ∧ (e = EOF ∨ e = ErrUnexpectedEOF)
          ∧ f_path f' = f_path f ∧ f_append f' = f_append f
          ∧ f_closed f' = false.
Proof.
  intros (Hc & Hf & content & Hl & Hd) Hn. unfold ReadFull.
  rewrite decide_False by lia.
  rewrite Hc. unfold mbind, IO_bind, mret, IO_ret.
  rewrite next_outcome_no_faults by done. unfold get_files.
  rewrite Hl, Hd. repeat case_decide; try lia; eauto 10.
Qed.

(** One turn of the loop on a well-formed entry. *)
Lemma readLog_loop_frame f s p rest results :
  fits_frame p →
  readable f s (entry_frame p ++ rest) →
  readLog_loop f results s
  = readLog_loop (advance f (length (entry_frame p))) (results ++ [p]) s.
Proof.
  intros Hp Hr. unfold entry_frame, fits_frame in *.
  assert (length (entry_header p) = 8%nat) as Hh by done.
  rewrite <-(assoc_L app) in Hr.
  rewrite readLog_loop_body.
  rewrite (ReadFull_ok f s _ _ 8 (eq_sym Hh) Hr).
  apply (readable_advance _ _ _ _ 8 (eq_sym Hh)) in Hr. rewrite length_app, Hh.
  destruct (header_fields (PutUint32 (uint32 (len p)))
              (PutUint32 (crc32.ChecksumIEEE p))) as [E1 E2]; [done..|].
  unfold entry_header in *. rewrite E1, E2.
  rewrite !Uint32_PutUint32
    by (apply uint32_range || apply ChecksumIEEE_range).
  rewrite uint32_small by (unfold len in *; lia).
  replace (Z.to_nat (len p)) with (length p) by (unfold len; lia).
  rewrite (ReadFull_ok _ s _ _ (length p) eq_refl Hr).
  rewrite decide_False by (intros HH; by apply HH).
  by rewrite advance_advance.
Qed.

(** The loop stops without an error at a crash tail. *)
Lemma readLog_loop_tail f s t results :
  crash_tail t → readable f s t →
  ∃ f', readLog_loop f results s = (results, None, f', s)
        ∧ f_path f' = f_path f ∧ f_append f' = f_append f
        ∧ f_closed f' = false.
Proof.
  intros Ht Hr. rewrite readLog_loop_body.
  destruct Ht as [|t Ht|hdr part Hh Hpart|sum p rest Hs Hp Hsum].
  - destruct (ReadFull_short f s [] 8 Hr)
      as (e & f' & -> & [-> | ->] & ?); [simpl; lia|eauto..].
  - destruct (ReadFull_short f s t 8 Hr)
      as (e & f' & -> & [-> | ->] & ?); [simpl; lia|eauto..].
  - rewrite (ReadFull_ok f s _ _ 8 (eq_sym Hh) Hr).
    apply (readable_advance _ _ _ _ 8 (eq_sym Hh)) in Hr.
    destruct (ReadFull_short _ _ _ (Z.to_nat (Uint32 (slice hdr 0 4))) Hr)
      as (e & f' & -> & _ & ?); [unfold len in *; lia|eauto].
  - rewrite (assoc_L app (PutUint32 _)) in Hr.
    assert (length (PutUint32 (uint32 (len p)) ++ sum) = 8%nat) as Hh
      by (rewrite length_app, Hs; done).
    rewrite (ReadFull_ok f s _ _ 8 (eq_sym Hh) Hr).
    apply (readable_advance _ _ _ _ 8 (eq_sym Hh)) in Hr.
    destruct (header_fields (PutUint32 (uint32 (len p))) sum) as [E1 E2];
      [done..|].
    rewrite E1, E2, Uint32_PutUint32 by apply uint32_range.
    rewrite uint32_small by (unfold len in *; lia).
    replace (Z.to_nat (len p)) with (length p) by (unfold len; lia).
    rewrite (ReadFull_ok _ s _ _ (length p) eq_refl Hr).
    rewrite decide_True by congruence.
    destruct Hr as (? & _). eauto 10.
Qed.

Lemma readLog_loop_frames ps : ∀ f s t results,
  Forall fits_frame ps → crash_tail t →
  readable f s (log_of ps ++ t) →
  ∃ f', readLog_loop f results s = (results ++ ps, None, f', s)
        ∧ f_path f' = f_path f ∧ f_append f' = f_append f
        ∧ f_closed f' = false.
Proof.
  induction ps as [|p ps IH]; intros f s t results Hps Ht Hr.
  - rewrite app_nil_r. by apply readLog_loop_tail with t.
  - inversion Hps as [|? ? Hp Hps']; subst.
    change (log_of (p :: ps)) with (entry_frame p ++ log_of ps) in Hr.
    rewrite <-(assoc_L app) in Hr.
    rewrite (readLog_loop_frame _ _ _ _ _ Hp Hr).
    apply (readable_advance _ _ _ _ _ eq_refl) in Hr.
    destruct (IH _ _ _ (results ++ [p]) Hps' Ht Hr) as (f' & -> & ?).
    rewrite <-(assoc_L app). eauto.
Qed.

End reader.

(** C3. Crash-tail tolerance of replay: when the bytes a handle has yet to
    read are a sequence of well-formed entries followed by nothing, by a
    part of a header, by a header with a part of the payload it announces,
    or by an entry whose checksum does not match its payload, [readLog]
    returns the payloads of the well-formed entries, in order, and no
    error. *)
Theorem readLog_crash_tail_tolerance
    (f : File) (s : OS) (ps : list bytes) (t : bytes) :
  Forall fits_frame ps →
  crash_tail t →
  readable f s (log_of ps ++ t) →
  ∃ f', readLog f s = (ps, None, f', s).
Proof.
  intros Hps Ht Hr. unfold readLog.
  destruct (readLog_loop_frames ps f s t [] Hps Ht Hr) as (f' & E & _).
  by exists f'.
Qed.

(** Two entries followed by each of the four tails: nothing, three bytes of
    a header, a header that announces five bytes followed by two, and an
    entry whose checksum field is zero. *)
Lemma readLog_crash_tail_tolerance_witness :
  let ps := [buildSetPayload [x6b] [x76]; buildDelPayload [x6b]] in
  let f := mkFile "db.log" 0 false false in
  let s t := mkOS {[ "db.log" := log_of ps ++ t ]} [] in
  let t1 := [] in
  let t2 := [x00; x00; x00] in
  let t3 := [x00; x00; x00; x05; x01; x02; x03; x04] ++ [x02; x00] in
  let t4 := PutUint32 (uint32 (len [x02])) ++ [x00; x00; x00; x00] ++ [x02] ++ [] in
  (∃ f', readLog f (s t1) = (ps, None, f', s t1)) ∧
  (∃ f', readLog f (s t2) = (ps, None, f', s t2)) ∧
  (∃ f', readLog f (s t3) = (ps, None, f', s t3)) ∧
  (∃ f', readLog f (s t4) = (ps, None, f', s t4)).
Proof.
  intros ps f s t1 t2 t3 t4.
  assert (Forall fits_frame ps) as Hps by (repeat constructor).
  assert (∀ t, readable f (s t) (log_of ps ++ t)) as Hr.
  { intros t. split_and!; [reflexivity..|]. by eexists. }
  split_and!.
  - apply (readLog_crash_tail_tolerance f (s t1) ps t1 Hps); [|apply Hr].
    apply tail_clean.
  - apply (readLog_crash_tail_tolerance f (s t2) ps t2 Hps); [|apply Hr].
    apply tail_short_header. simpl. lia.
  - apply (readLog_crash_tail_tolerance f (s t3) ps t3 Hps); [|apply Hr].
    apply tail_short_payload; [reflexivity|]. vm_compute. reflexivity.
  - apply (readLog_crash_tail_tolerance f (s t4) ps t4 Hps); [|apply Hr].
    apply tail_checksum_mismatch; [reflexivity| |]; vm_compute; congruence.
Defined.

(** ** Log writer *)

Section writer.

Lemma write_at_end content d : write_at content (length content) d = content ++ d.
Proof.
  unfold write_at. rewrite firstn_all, Nat.sub_diag, drop_ge by lia.
  simpl. by rewrite app_nil_r.
Qed.

Lemma appendable_append f s content d :
  appendable f s content →
  appendable (append_file f content d) (append_os f s content d) (content ++ d).
Proof.
  intros (Hc & Hf & Hl & He). unfold append_file, append_os.
  split_and!; simpl; [done|done|by rewrite lookup_insert_eq|].
  right. by rewrite length_app.
Qed.

Lemma Write_appendable f s content d :
  appendable f s content →
  Write f d s = (None, append_file f content d, append_os f s content d).
Proof.
  intros (Hc & Hf & Hl & He). unfold Write. rewrite Hc.
  unfold mbind, IO_bind, mret, IO_ret.
  rewrite next_outcome_no_faults by done. unfold get_files.
  rewrite Hl. unfold set_files, append_file, append_os. simpl. rewrite Hf.
  assert ((if f_append f then length content else f_off f) = length content) as ->.
  { destruct He as [-> | ->]; [done|]. by destruct (f_append f). }
  by rewrite write_at_end.
Qed.

Lemma Sync_no_faults f s :
  f_closed f = false → faults s = [] → Sync f s = (None, s).
Proof.
  intros Hc Hf. unfold Sync. rewrite Hc.
  unfold mbind, IO_bind, mret, IO_ret.
  by rewrite next_outcome_no_faults.
Qed.

Lemma append_append f s content d1 d2 :
  append_file (append_file f content d1) (content ++ d1) d2
  = append_file f content (d1 ++ d2) ∧
  append_os (append_file f content d1) (append_os f s content d1)
            (content ++ d1) d2
  = append_os f s content (d1 ++ d2).
Proof.
  unfold append_file, append_os; simpl. rewrite insert_insert_eq, !length_app.
  by rewrite <-!(assoc_L app), Nat.add_assoc.
Qed.

(** An append without faults: the entry goes to the end of the file. *)
Lemma writeLogEntry_appendable f s content payload :
  appendable f s content →
  writeLogEntry f payload s
  = (None, append_file f content (entry_frame payload),
           append_os f s content (entry_frame payload)).
Proof.
  intros Ha. unfold writeLogEntry.
  unfold mbind, IO_bind, mret, IO_ret.
  rewrite (Write_appendable _ _ _ _ Ha).
  apply (appendable_append _ _ _ (entry_header payload)) in Ha.
  unfold entry_header in Ha.
  rewrite (Write_appendable _ _ _ _ Ha).
  apply (appendable_append _ _ _ payload) in Ha.
  destruct (append_append f s content (entry_header payload) payload)
    as [E1 E2].
  unfold entry_header in *. rewrite E1, E2 in *.
  destruct Ha as (Hc & Hf & _).
  by rewrite Sync_no_faults.
Qed.

Lemma big_endian_PutUint32 v : 0 ≤ v < 2 ^ 32 → big_endian (PutUint32 v) = v.
Proof.
  intros Hv. unfold big_endian, PutUint32. simpl.
  rewrite !byte_to_of_Z, !Z.shiftr_div_pow2 by lia.
  change (2 ^ 24) with 16777216. change (2 ^ 16) with 65536.
  change (2 ^ 8) with 256. change (2 ^ 32) with 4294967296 in Hv.
  Z.div_mod_to_equations. lia.
Qed.

End writer.

(** C8. Frame byte layout: for every payload shorter than [2^32] bytes,
    [writeLogEntry] on a handle that appends to a file succeeds and adds to
    the end of the file exactly four bytes that are the length of the
    payload in big-endian order, then four bytes that are the CRC-32 (IEEE)
    checksum of the payload in big-endian order, then the payload: [8 +
    len(payload)] bytes in all, by which the offset of the handle moves. No
    other file changes. *)
Theorem writeLogEntry_frame_layout (f : File) (s : OS) (content payload : bytes) :
  len payload < 2 ^ 32 →
  appendable f s content →
  ∃ f' s' size sum,
    writeLogEntry f payload s = (None, f', s') ∧
    files s' = <[f_path f := content ++ size ++ sum ++ payload]> (files s) ∧
    length size = 4%nat ∧ big_endian size = len payload ∧
    length sum = 4%nat ∧ big_endian sum = crc32.ChecksumIEEE payload ∧
    len (size ++ sum ++ payload) = 8 + len payload ∧
    Z.of_nat (f_off f') = len content + 8 + len payload.
Proof.
  intros Hp Ha. pose proof (len_nonneg payload).
  exists (append_file f content (entry_frame payload)),
         (append_os f s content (entry_frame payload)),
         (PutUint32 (uint32 (len payload))),
         (PutUint32 (crc32.ChecksumIEEE payload)).
  split_and!.
  - by apply writeLogEntry_appendable.
  - unfold append_os, entry_frame, entry_header.
    by rewrite <-!(assoc_L app).
  - done.
  - rewrite uint32_small by lia. apply big_endian_PutUint32. lia.
  - done.
  - apply big_endian_PutUint32, ChecksumIEEE_range.
  - len_simpl. lia.
  - unfold append_file, entry_frame, entry_header, len. simpl. lia.
Qed.

(** Appending the payload "abc" to an empty log. *)
Lemma writeLogEntry_frame_layout_witness :
  let f := mkFile "db.log" 0 false false in
  let s := mkOS {[ "db.log" := [] ]} [] in
  ∃ f' s' size sum,
    writeLogEntry f [x61; x62; x63] s = (None, f', s') ∧
    files s' = <[f_path f := [] ++ size ++ sum ++ [x61; x62; x63]]> (files s) ∧
    length size = 4%nat ∧ big_endian size = len [x61; x62; x63] ∧
    length sum = 4%nat ∧ big_endian sum = crc32.ChecksumIEEE [x61; x62; x63] ∧
    len (size ++ sum ++ [x61; x62; x63]) = 8 + len [x61; x62; x63] ∧
    Z.of_nat (f_off f') = len [] + 8 + len [x61; x62; x63].
Proof.
  intros f s.
  apply (writeLogEntry_frame_layout f s [] [x61; x62; x63]).
  - vm_compute. reflexivity.
  - unfold appendable. split_and!; [reflexivity..|by right].
Defined.

(** ** Opening a store *)

Section store.

Lemma OS_no_faults s : faults s = [] → s = mkOS (files s) [].
Proof. destruct s; simpl. by intros ->. Qed.

(** Opening a file that exists, without [O_EXCL] and [O_TRUNC]. *)
Lemma OpenFile_existing path fl s content :
  faults s = [] → files s !! path = Some content →
  O_CREATE fl && O_EXCL fl = false → O_TRUNC fl = false →
  OpenFile path fl s = (Ok (mkFile path 0 (O_APPEND fl) false), s).
Proof.
  intros Hf Hl Hx Ht. unfold OpenFile, mbind, IO_bind, mret, IO_ret.
  rewrite next_outcome_no_faults by done. unfold get_files.
  by rewrite Hl, Hx, Ht.
Qed.

(** Opening a file that does not exist, with [O_CREATE]. *)
Lemma OpenFile_create path fl s :
  faults s = [] → files s !! path = None → O_CREATE fl = true →
  OpenFile path fl s
  = (Ok (mkFile path 0 (O_APPEND fl) false), mkOS (<[path := []]> (files s)) []).
Proof.
  intros Hf Hl Hc. unfold OpenFile, mbind, IO_bind, mret, IO_ret.
  rewrite next_outcome_no_faults by done. unfold get_files, set_files.
  by rewrite Hl, Hc, Hf.
Qed.

Lemma Seek_end_no_faults f s content :
  f_closed f = false → faults s = [] → files s !! f_path f = Some content →
  Seek_end f s = (None, mkFile (f_path f) (length content) (f_append f) false, s).
Proof.
  intros Hc Hf Hl. unfold Seek_end, mbind, IO_bind, mret, IO_ret.
  rewrite Hc, next_outcome_no_faults by done. unfold get_files.
  by rewrite Hl.
Qed.

Lemma Close_no_faults f s :
  f_closed f = false → faults s = [] →
  Close f s = (None, mkFile (f_path f) (f_off f) (f_append f) true, s).
Proof.
  intros Hc Hf. unfold Close, mbind, IO_bind, mret, IO_ret.
  by rewrite Hc, next_outcome_no_faults.
Qed.

(** Opening a store on a log made of well-formed entries and a crash
    tail: the table is the replay of the payloads, or the error of the
    replay; the handle is at the end of the file. *)
Lemma NewKV_log path s ps t :
  faults s = [] → files s !! path = Some (log_of ps ++ t) →
  Forall fits_frame ps → crash_tail t →
  NewKV path s
  = (match replay ps ∅ with
     | Ok d => Ok (mkKV d (mkFile path (length (log_of ps ++ t)) false false) path)
     | Err e => Err e
     end, s).
Proof.
  intros Hf Hl Hps Ht. unfold NewKV.
  unfold mbind at 1. unfold IO_bind.
  rewrite (OpenFile_existing _ _ _ _ Hf Hl) by done. simpl.
  assert (readable (mkFile path 0 false false) s (log_of ps ++ t)) as Hr.
  { split_and!; [done..|]. by exists (log_of ps ++ t). }
  destruct (readLog_loop_frames ps _ s t [] Hps Ht Hr)
    as (f' & Hread & Hp & Ha & Hc). simpl in *.
  unfold mbind at 1. unfold IO_bind, readLog. rewrite Hread.
  destruct (replay ps ∅) as [d|e]; [|done].
  unfold mbind, IO_bind, mret, IO_ret.
  rewrite (Seek_end_no_faults f' s (log_of ps ++ t)) by (by rewrite ?Hp).
  by rewrite Hp, Ha.
Qed.

End store.

(** ** Replay *)

Section replay.

Lemma encode_nonempty r : len (encode r) ≠ 0.
Proof. destruct r; unfold encode, buildSetPayload, buildDelPayload; len_simpl;
       pose proof (len_nonneg key); try pose proof (len_nonneg value); lia. Qed.

Lemma len_encode r :
  len (encode r) = match r with
                   | SetRecord key value => 9 + len key + len value
                   | DeleteRecord key => 5 + len key
                   end.
Proof. destruct r; unfold encode, buildSetPayload, buildDelPayload; len_simpl; lia. Qed.

Lemma decode_encode r : record_fits r → decode (encode r) = Ok r.
Proof.
  unfold record_fits, fits_frame. rewrite len_encode.
  destruct r as [key value|key]; simpl; intros Hfit;
    pose proof (len_nonneg key).
  - pose proof (len_nonneg value). apply decode_buildSetPayload; lia.
  - apply decode_buildDelPayload; lia.
Qed.

Lemma replay_entry_encode d r :
  record_fits r → replay_entry d (encode r) = Ok (apply_record r d).
Proof.
  intros Hr. unfold replay_entry.
  rewrite decide_False by apply encode_nonempty.
  by rewrite decode_encode.
Qed.

Lemma replay_encode ops : ∀ d,
  Forall record_fits ops →
  replay (map encode ops) d = Ok (fold_left (λ d r, apply_record r d) ops d).
Proof.
  induction ops as [|r ops IH]; intros d Hops; [done|].
  inversion Hops; subst. simpl.
  rewrite replay_entry_encode by done. by apply IH.
Qed.

Lemma table_of_snoc ops r : table_of (ops ++ [r]) = apply_record r (table_of ops).
Proof. unfold table_of. by rewrite fold_left_app. Qed.

(** A key is bound to [v] exactly when some Set record binds it to [v] and
    no later record has that key. *)
Lemma table_of_lookup ops key v :
  table_of ops !! key = Some v ↔
  ∃ ops1 ops2, ops = ops1 ++ SetRecord key v :: ops2 ∧
               Forall (λ r, record_key r ≠ key) ops2.
Proof.
  induction ops as [|r ops IH] using rev_ind.
  - split; [done|]. intros (ops1 & ops2 & E & _). by destruct ops1.
  - rewrite table_of_snoc.
    assert (record_key r ≠ key →
            (∃ ops1 ops2, ops ++ [r] = ops1 ++ SetRecord key v :: ops2 ∧
                          Forall (λ r, record_key r ≠ key) ops2) ↔
            (∃ ops1 ops2, ops = ops1 ++ SetRecord key v :: ops2 ∧
                          Forall (λ r, record_key r ≠ key) ops2)) as Hne.
    { intros Hr. split.
      - intros (ops1 & ops2 & E & Hall).
        destruct ops2 as [|r2 ops2 _] using rev_ind.
        + apply app_inj_tail in E as [_ ->]. done.
        + rewrite app_comm_cons, (assoc_L app) in E.
          apply app_inj_tail in E as [-> ->].
          apply Forall_app in Hall as [Hall _]. eauto.
      - intros (ops1 & ops2 & -> & Hall). exists ops1, (ops2 ++ [r]).
        split; [by rewrite <-(assoc_L app)|].
        apply Forall_app. split; [done|]. by constructor. }
    destruct r as [k' v'|k']; simpl in *.
    + destruct (decide (k' = key)) as [->|Hk].
      * rewrite lookup_insert_eq. split.
        -- intros [= ->]. exists ops, []. by split.
        -- intros (ops1 & ops2 & E & Hall).
           destruct ops2 as [|r2 ops2 _] using rev_ind.
           ++ apply app_inj_tail in E as [_ E]. by inversion E.
           ++ rewrite app_comm_cons, (assoc_L app) in E.
              apply app_inj_tail in E as [_ <-].
              apply Forall_app in Hall as [_ Hall].
              by inversion Hall.
      * rewrite lookup_insert_ne by done. rewrite IH. symmetry. by apply Hne.
    + destruct (decide (k' = key)) as [->|Hk].
      * rewrite lookup_delete_eq. split; [done|].
        intros (ops1 & ops2 & E & Hall).
        destruct ops2 as [|r2 ops2 _] using rev_ind.
        -- apply app_inj_tail in E as [_ E]. by inversion E.
        -- rewrite app_comm_cons, (assoc_L app) in E.
           apply app_inj_tail in E as [_ <-].
           apply Forall_app in Hall as [_ Hall].
           by inversion Hall.
      * rewrite lookup_delete_ne by done. rewrite IH. symmetry. by apply Hne.
Qed.

End replay.

(** ** Payloads that the replay refuses or skips *)

Section malformed.

Lemma slice_body t (body : bytes) a n :
  0 ≤ a → slice (t :: body) (1 + a) (1 + a + n)
          = take (Z.to_nat n) (drop (Z.to_nat a) body).
Proof.
  intros Ha. unfold slice.
  replace (Z.to_nat (1 + a)) with (S (Z.to_nat a)) by lia.
  replace (1 + a + n - (1 + a)) with n by lia. done.
Qed.

Lemma slice_key_field t (body : bytes) :
  slice (t :: body) 1 (1 + 4) = take 4 body.
Proof. done. Qed.

Lemma slice_value_field t (body : bytes) k :
  0 ≤ k → slice (t :: body) (1 + 4 + k) (1 + 4 + k + 4)
          = take 4 (drop (Z.to_nat (4 + k)) body).
Proof.
  intros Hk. rewrite <-(assoc_L Z.add 1 4 k).
  rewrite (slice_body t body (4 + k) 4) by lia. done.
Qed.

Lemma decode_malformed p : malformed p → ∃ e, decode p = Err e.
Proof.
  intros Hm. unfold decode.
  destruct Hm as [t body H1 H2|t body Ht Hb|t body Ht Hb Hk
                  |body Hb Hk Hv|body Hb Hk Hv].
  - rewrite !decide_False by done. eauto.
  - destruct Ht as [-> | ->].
    + rewrite decide_True by done. len_simpl.
      rewrite decide_True by lia. eauto.
    + rewrite decide_False by done. rewrite decide_True by done. len_simpl.
      rewrite decide_True by lia. eauto.
  - pose proof (slice_key_field t body) as E.
    destruct Ht as [-> | ->].
    + rewrite decide_True by done. len_simpl.
      rewrite decide_False by lia. rewrite E.
      rewrite decide_True by lia. eauto.
    + rewrite decide_False by done. rewrite decide_True by done. len_simpl.
      rewrite decide_False by lia. rewrite E.
      rewrite decide_True by lia. eauto.
  - pose proof (slice_key_field OpSet body) as E.
    rewrite decide_True by done. len_simpl.
    rewrite decide_False by lia. rewrite E.
    rewrite decide_False by lia.
    rewrite decide_True by lia. eauto.
  - pose proof (slice_key_field OpSet body) as E.
    pose proof (Uint32_range (take 4 body)) as Hr.
    pose proof (slice_value_field OpSet body (Uint32 (take 4 body))
                  ltac:(lia)) as E'.
    rewrite decide_True by done. len_simpl.
    rewrite decide_False by lia. rewrite E.
    rewrite decide_False by lia.
    rewrite decide_False by lia.
    rewrite E'.
    rewrite decide_True by lia. eauto.
Qed.

(** The converse: a non-empty payload that does not decode is malformed. *)
Lemma decode_error_malformed p e : p ≠ [] → decode p = Err e → malformed p.
Proof.
  destruct p as [|t body]; [done|]. intros _. unfold decode.
  pose proof (slice_key_field t body) as E.
  pose proof (Uint32_range (take 4 body)) as Hr.
  pose proof (slice_value_field t body (Uint32 (take 4 body)) ltac:(lia)) as E'.
  pose proof (len_nonneg body).
  rewrite E. len_simpl.
  destruct (decide (t = OpSet)) as [->|Hs].
  - rewrite E'.
    repeat case_decide; try done; intros _.
    + apply key_length_cut; [by left|lia].
    + apply key_past_end; [by left|lia..].
    + apply value_length_cut; lia.
    + apply value_past_end; lia.
  - destruct (decide (t = OpDel)) as [->|Hd].
    + repeat case_decide; try done; intros _.
      * apply key_length_cut; [by right|lia].
      * apply key_past_end; [by right|lia..].
    + intros _. by apply unknown_tag.
Qed.

Lemma replay_entry_malformed d p : malformed p → ∃ e, replay_entry d p = Err e.
Proof.
  intros Hm. unfold replay_entry.
  rewrite decide_False by (destruct Hm; len_simpl; pose proof (len_nonneg body); lia).
  destruct (decode_malformed p Hm) as [e ->]. eauto.
Qed.

Lemma replay_malformed ps1 p ps2 : ∀ d,
  malformed p → ∃ e, replay (ps1 ++ p :: ps2) d = Err e.
Proof.
  induction ps1 as [|q ps1 IH]; intros d Hm; simpl.
  - destruct (replay_entry_malformed d p Hm) as [e ->]. eauto.
  - destruct (replay_entry d q); eauto.
Qed.

Lemma replay_skip_empty ps1 ps2 : ∀ d,
  replay (ps1 ++ [] :: ps2) d = replay (ps1 ++ ps2) d.
Proof.
  induction ps1 as [|q ps1 IH]; intros d; simpl; [done|].
  destruct (replay_entry d q); eauto.
Qed.

End malformed.

(** ** The store: Set, Del and Get *)

Section mutations.

Lemma KV_Set_store_ok k s content key value :
  store_ok k s content →
  let frame := entry_frame (buildSetPayload key value) in
  KV_Set k key value s
  = (None, mkKV (<[key := value]> (data k))
                (append_file (log k) content frame) (logPath k),
     append_os (log k) s content frame).
Proof.
  intros [Hp Ha] frame. unfold KV_Set, mbind, IO_bind, mret, IO_ret.
  by rewrite (writeLogEntry_appendable _ _ _ _ Ha).
Qed.

Lemma Del_store_ok k s content key :
  store_ok k s content →
  let frame := entry_frame (buildDelPayload key) in
  Del k key s
  = (None, mkKV (delete key (data k))
                (append_file (log k) content frame) (logPath k),
     append_os (log k) s content frame).
Proof.
  intros [Hp Ha] frame. unfold Del, mbind, IO_bind, mret, IO_ret.
  by rewrite (writeLogEntry_appendable _ _ _ _ Ha).
Qed.

(** An append keeps the store in order. *)
Lemma store_ok_append k s content d t :
  store_ok k s content →
  store_ok (mkKV t (append_file (log k) content d) (logPath k))
           (append_os (log k) s content d) (content ++ d).
Proof.
  intros [Hp Ha]. split; [done|]. simpl. by apply appendable_append.
Qed.

(** Reading neither moves a handle to another file nor closes it, and
    changes no file; without faults it leaves the state as it is. *)
Lemma ReadFull_handle f n s r f' s' :
  ReadFull f n s = (r, f', s') →
  f_path f' = f_path f ∧ f_closed f' = f_closed f ∧ f_append f' = f_append f ∧
  files s' = files s ∧ (faults s = [] → s' = s).
Proof.
  unfold ReadFull, mbind, IO_bind, mret, IO_ret, next_outcome, get_files.
  destruct s as [fs [|o fl]]; simpl;
    repeat case_match; intros; simplify_eq/=; done.
Qed.

Ltac chain_states :=
  intros;
  repeat match goal with
         | HH : faults ?x = [] → _, Hx : faults ?x = [] |- _ =>
             specialize (HH Hx); subst
         end;
  done.

Lemma readLog_loop_handle f acc s :
  ∀ entries rerr f' s',
  readLog_loop f acc s = (entries, rerr, f', s') →
  f_path f' = f_path f ∧ f_closed f' = f_closed f ∧ f_append f' = f_append f ∧
  files s' = files s ∧ (faults s = [] → s' = s).
Proof.
  funelim (readLog_loop f acc s); intros entries rerr f' s' Hread;
    repeat match goal with
           | E : ReadFull _ _ _ = _ |- _ =>
               apply ReadFull_handle in E as (? & ? & ? & ? & ?)
           | E : sigmaI _ _ _ = _ |- _ => clear E
           end.
  - destruct err; simplify_eq/=; done.
  - case_decide as Hd.
    + simplify_eq/=. split_and!; try congruence. chain_states.
    + match goal with
      | IH : _ → ∀ _ _ _ _, readLog_loop _ _ _ = _ → _ |- _ =>
          apply (IH (λ HH, HH Hd)) in Hread as (? & ? & ? & ? & ?)
      end.
      split_and!; try congruence. chain_states.
  - simplify_eq/=. split_and!; try congruence. chain_states.
Qed.

(** A store that was opened without faults on an existing file, whatever
    its content, is in order. *)
Lemma NewKV_store_ok path s content k s' :
  faults s = [] → files s !! path = Some content →
  NewKV path s = (Ok k, s') → s' = s ∧ store_ok k s content.
Proof.
  intros Hf Hl. unfold NewKV.
  unfold mbind at 1. unfold IO_bind.
  rewrite (OpenFile_existing _ _ _ _ Hf Hl) by done. simpl.
  unfold mbind at 1. unfold IO_bind, readLog.
  destruct (readLog_loop _ [] s) as [[[entries rerr] f] s1] eqn:Hread.
  apply readLog_loop_handle in Hread as (Hp & Hc & Ha & _ & Hs).
  specialize (Hs Hf). subst s1. simpl in *.
  destruct rerr as [e|].
  { unfold mbind, IO_bind, mret, IO_ret. by destruct (Close f s). }
  destruct (replay entries ∅) as [d|e]; [|done].
  unfold mbind at 1. unfold IO_bind.
  rewrite (Seek_end_no_faults f s content) by (by rewrite ?Hp).
  intros [= <- <-]. split; [done|].
  split; [done|]. simpl. split_and!; [done|done|by rewrite Hp|by right].
Qed.

Lemma replay_snoc ps p : ∀ d,
  replay (ps ++ [p]) d = match replay ps d with
                         | Ok d' => replay_entry d' p
                         | Err e => Err e
                         end.
Proof.
  induction ps as [|q ps IH]; intros d; simpl.
  - by destruct (replay_entry d p).
  - destruct (replay_entry d q); [apply IH|done].
Qed.

(** A payload that decodes to a tombstone holds the tag, the length field
    and the whole key. *)
Lemma decode_DeleteRecord_len p key :
  decode p = Ok (DeleteRecord key) → 5 + len key ≤ len p.
Proof.
  unfold decode. intros Hd.
  repeat case_match; simplify_eq/=.
  match goal with
  | H : ¬ (1 + 4 + Uint32 ?x > len ?b) |- _ =>
      pose proof (Uint32_range x);
      assert (len (slice b (1 + 4) (1 + 4 + Uint32 x)) = Uint32 x) as ->; [|lia];
      unfold slice, len in *; rewrite length_take, length_drop; lia
  end.
Qed.

Lemma ReadFull_length f n s b f' s' :
  ReadFull f n s = (Ok b, f', s') → length b = n.
Proof.
  unfold ReadFull, mbind, IO_bind, mret, IO_ret, next_outcome, get_files.
  destruct s as [fs [|o fl]]; simpl;
    repeat case_match; intros; simplify_eq/=; try done;
    rewrite length_take; lia.
Qed.

(** Every payload that [readLog] returns is as long as a length field
    said: shorter than [2^32] bytes. *)
Lemma readLog_loop_fits f results s :
  ∀ entries rerr f' s',
  readLog_loop f results s = (entries, rerr, f', s') →
  Forall fits_frame results → Forall fits_frame entries.
Proof.
  funelim (readLog_loop f results s); intros entries rerr f' s' Hread Hacc.
  - destruct err; simplify_eq/=; done.
  - case_decide as Hd.
    + by simplify_eq/=.
    + match goal with
      | IH : ¬ _ → _ |- _ => apply (IH (λ HH, HH Hd) _ _ _ _ Hread)
      end.
      apply Forall_app. split; [done|]. apply Forall_singleton.
      match goal with
      | E : ReadFull _ (Z.to_nat (Uint32 ?x)) _ = (Ok _, _, _) |- _ =>
          pose proof (ReadFull_length _ _ _ _ _ _ E);
          pose proof (Uint32_range x)
      end.
      unfold fits_frame, len. lia.
  - by simplify_eq/=.
Qed.

End mutations.

(** C7. At most one side effect: whatever the state of the system and the
    faults to come, [Set] and [Del] return the error of the append, and when
    the append returns an error the table is the one before the call; the
    key is bound (by [Set]) or removed (by [Del]) only when the append
    returns no error. *)
Theorem set_del_at_most_one_side_effect (k : KV) (key value : bytes) (s : OS) :
  (let '(werr, _, _) := writeLogEntry (log k) (buildSetPayload key value) s in
   let '(err, k', _) := KV_Set k key value s in
   err = werr ∧
   data k' = match werr with
             | Some _ => data k
             | None => <[key := value]> (data k)
             end) ∧
  (let '(werr, _, _) := writeLogEntry (log k) (buildDelPayload key) s in
   let '(err, k', _) := Del k key s in
   err = werr ∧
   data k' = match werr with
             | Some _ => data k
             | None => delete key (data k)
             end).
Proof.
  unfold KV_Set, Del, mbind, IO_bind, mret, IO_ret. split.
  - destruct (writeLogEntry _ _ s) as [[[e|] f] s']; done.
  - destruct (writeLogEntry _ _ s) as [[[e|] f] s']; done.
Qed.

(** A [Set] whose second write fails: the error comes back, the table keeps
    its old binding, although a part of the entry has reached the file. *)
Example KV_Set_failed_append :
  let k := mkKV {[ [x6b] := [x31] ]} (mkFile "db.log" 0 true false) "db.log" in
  let s := mkOS {[ "db.log" := [] ]} [Succeeds; Fails 2] in
  let '(err, k', s') := KV_Set k [x6b] [x32; x33; x34] s in
  err = Some EIO ∧ Get k' [x6b] = Some [x31] ∧
  (length <$> files s' !! "db.log") = Some 10%nat.
Proof. vm_compute. done. Qed.

(** C9. Idempotent delete, for the keys whose tombstone fits an entry
    ([5 + len(key) < 2^32]): on a store in order, with no fault to come,
    [Del] of a key that the table does not hold returns no error and appends
    one entry to the log. The payload of that entry is the tombstone of the
    key: the tag byte 2, the length of the key on four bytes in big-endian
    order, the key; it decodes to the Delete record of the key. Before it
    come its length and its CRC-32, four bytes each in big-endian order. The
    table is unchanged and [Get] of the key is still absent. When the log
    held whole entries, opening it again replays them and then removes the
    key. *)
Theorem del_absent_key (k : KV) (s : OS) (content key : bytes) :
  store_ok k s content →
  5 + len key < 2 ^ 32 →
  data k !! key = None →
  ∃ k' s' size sum klen,
    let tombstone := x02 :: klen ++ key in
    Del k key s = (None, k', s') ∧
    files s' !! logPath k = Some (content ++ size ++ sum ++ tombstone) ∧
    length size = 4%nat ∧ big_endian size = len tombstone ∧
    length sum = 4%nat ∧ big_endian sum = crc32.ChecksumIEEE tombstone ∧
    length klen = 4%nat ∧ big_endian klen = len key ∧
    decode tombstone = Ok (DeleteRecord key) ∧
    data k' = data k ∧
    Get k' key = None ∧
    store_ok k' s' (content ++ size ++ sum ++ tombstone) ∧
    (∀ ps, Forall fits_frame ps → content = log_of ps →
       NewKV (logPath k) s'
       = (match replay ps ∅ with
          | Ok d =>
              Ok (mkKV (delete key d)
                       (mkFile (logPath k)
                               (length (content ++ size ++ sum ++ tombstone))
                               false false)
                       (logPath k))
          | Err e => Err e
          end, s')).
Proof.
  intros Hok Hfit Hkey. pose proof Hok as [Hp _].
  pose proof (len_nonneg key).
  set (p := buildDelPayload key).
  assert (len p = 5 + len key) as Hlen.
  { unfold p, buildDelPayload. len_simpl. lia. }
  assert (decode p = Ok (DeleteRecord key)) as Hdec
    by (apply decode_buildDelPayload; lia).
  exists (mkKV (delete key (data k))
               (append_file (log k) content (entry_frame p)) (logPath k)),
         (append_os (log k) s content (entry_frame p)),
         (PutUint32 (uint32 (len p))),
         (PutUint32 (crc32.ChecksumIEEE p)),
         (PutUint32 (uint32 (len key))).
  cbv zeta.
  change (x02 :: PutUint32 (uint32 (len key)) ++ key) with p.
  change (PutUint32 (uint32 (len p)) ++ PutUint32 (crc32.ChecksumIEEE p) ++ p)
    with (entry_frame p).
  split_and!.
  - by apply Del_store_ok.
  - simpl. by rewrite Hp, lookup_insert_eq.
  - done.
  - rewrite uint32_small by lia. apply big_endian_PutUint32. lia.
  - done.
  - apply big_endian_PutUint32, ChecksumIEEE_range.
  - done.
  - rewrite uint32_small by lia. apply big_endian_PutUint32. lia.
  - done.
  - simpl. by apply delete_id.
  - unfold Get. simpl. by apply lookup_delete_None; left.
  - by apply store_ok_append.
  - intros ps Hps ->.
    replace (log_of ps ++ entry_frame p) with (log_of (ps ++ [p]) ++ [])
      by (unfold log_of;
          by rewrite map_app, concat_app; simpl; rewrite !app_nil_r).
    rewrite (NewKV_log _ _ (ps ++ [p]) []).
    + rewrite replay_snoc. destruct (replay ps ∅) as [d|e]; [|done].
      unfold replay_entry. rewrite decide_False by lia. rewrite Hdec. done.
    + done.
    + simpl. rewrite Hp, lookup_insert_eq, app_nil_r.
      unfold log_of. by rewrite map_app, concat_app; simpl; rewrite app_nil_r.
    + apply Forall_app. split; [done|]. apply Forall_singleton.
      unfold fits_frame. lia.
    + constructor.
Qed.

(** Deleting the key "k" from a store that is empty. *)
Lemma del_absent_key_witness :
  let k := mkKV ∅ (mkFile "db.log" 0 false false) "db.log" in
  let s := mkOS {[ "db.log" := [] ]} [] in
  ∃ k' s' size sum klen,
    let tombstone := x02 :: klen ++ [x6b] in
    Del k [x6b] s = (None, k', s') ∧
    files s' !! "db.log" = Some ([] ++ size ++ sum ++ tombstone) ∧
    length size = 4%nat ∧ big_endian size = 6 ∧
    length sum = 4%nat ∧ big_endian sum = crc32.ChecksumIEEE tombstone ∧
    length klen = 4%nat ∧ big_endian klen = 1 ∧
    decode tombstone = Ok (DeleteRecord [x6b]) ∧
    Get k' [x6b] = None.
Proof.
  intros k s.
  destruct (del_absent_key k s [] [x6b])
    as (k' & s' & size & sum & klen & E & Hl & Hs1 & Hs2 & Hc1 & Hc2 & Hk1 & Hk2
        & Hd & _ & Hg & _).
  - split; [reflexivity|]. split_and!; [reflexivity..|by right].
  - vm_compute. reflexivity.
  - reflexivity.
  - exists k', s', size, sum, klen. cbv zeta in *.
    split_and!; try done.
    rewrite Hs2. unfold len. simpl. rewrite length_app, Hk1. reflexivity.
Defined.

(** C9 as stated, for every key, fails for a key of [2^32 - 5] bytes, a
    length that the key length field can still hold. The key is absent,
    [Del] returns no error and [Get] stays absent, but what reaches the log
    is no tombstone: the payload has [2^32] bytes and the length field
    before it says 0. No entry of a log can hold the tombstone of this key,
    and no reading of the file, from any offset and whatever the faults,
    returns a payload that decodes to it. *)
Lemma del_oversized_key_counterexample :
  let key := replicate (Z.to_nat (2 ^ 32 - 5)) x00 in
  let k := mkKV ∅ (mkFile "db.log" 0 false false) "db.log" in
  let s := mkOS {[ "db.log" := [] ]} [] in
  len key = 2 ^ 32 - 5 ∧
  store_ok k s [] ∧
  data k !! key = None ∧
  ∃ k' s' added,
    Del k key s = (None, k', s') ∧
    Get k' key = None ∧
    files s' !! "db.log" = Some added ∧
    len added = 8 + 2 ^ 32 ∧
    big_endian (take 4 added) = 0 ∧
    (∀ p, fits_frame p → decode p ≠ Ok (DeleteRecord key)) ∧
    (∀ f ps rerr f' s'',
       readLog f s' = (ps, rerr, f', s'') →
       ∀ p, p ∈ ps → decode p ≠ Ok (DeleteRecord key)).
Proof.
  intros key k s.
  assert (len key = 2 ^ 32 - 5) as Hkey.
  { unfold key, len. rewrite length_replicate. by rewrite Z2Nat.id. }
  clearbody key.
  assert (store_ok k s []) as Hok.
  { split; [done|]. split_and!; [done..|by right]. }
  assert (∀ p, fits_frame p → decode p ≠ Ok (DeleteRecord key)) as Hno.
  { intros p Hp Hd. apply decode_DeleteRecord_len in Hd.
    unfold fits_frame in Hp. lia. }
  split; [done|]. split; [done|]. split; [done|].
  set (p := buildDelPayload key).
  assert (len p = 2 ^ 32) as Hlen.
  { unfold p, buildDelPayload. len_simpl. lia. }
  exists (mkKV (delete key (data k))
               (append_file (log k) [] (entry_frame p)) (logPath k)),
         (append_os (log k) s [] (entry_frame p)),
         (entry_frame p).
  split_and!.
  - by apply Del_store_ok.
  - unfold Get. simpl. by rewrite lookup_delete_eq.
  - done.
  - unfold entry_frame, entry_header. len_simpl. lia.
  - unfold entry_frame, entry_header. rewrite Hlen.
    rewrite <-!(assoc_L app). rewrite take_app_length' by done.
    change (uint32 (2 ^ 32)) with 0. apply big_endian_PutUint32. lia.
  - done.
  - intros f ps rerr f' s'' Hread q Hq.
    apply Hno. unfold readLog in Hread.
    apply readLog_loop_fits in Hread; [|done].
    rewrite list.Forall_forall in Hread. exact (Hread q Hq).
Qed.

(** ** Replay at open *)

(** C4. Replay order: opening a store on a log that holds the records [ops]
    applies them in file order. A key is bound to [v] in the table exactly
    when some Set record of the log binds it to [v] and no later record,
    Set or Delete, has that key. In particular the log of set(k,"a"),
    set(k,"b"), delete(k), set(k,"c") opens with k bound to "c", and the log
    of set(k,"x"), delete(k) opens with k absent. *)
Theorem replay_order (path : string) (s : OS) (ops : list record) :
  faults s = [] →
  Forall record_fits ops →
  files s !! path = Some (log_of (map encode ops)) →
  ∃ k,
    NewKV path s = (Ok k, s) ∧
    data k = table_of ops ∧
    (∀ key v,
       Get k key = Some v ↔
       ∃ ops1 ops2, ops = ops1 ++ SetRecord key v :: ops2 ∧
                    Forall (λ r, record_key r ≠ key) ops2) ∧
    (∀ key,
       ops = [SetRecord key [x61]; SetRecord key [x62]; DeleteRecord key;
              SetRecord key [x63]] →
       Get k key = Some [x63]) ∧
    (∀ key,
       ops = [SetRecord key [x78]; DeleteRecord key] →
       Get k key = None).
Proof.
  intros Hf Hops Hl.
  assert (Forall fits_frame (map encode ops)) as Hfit by (by apply Forall_map).
  rewrite <-(app_nil_r (log_of _)) in Hl.
  pose proof (NewKV_log path s _ [] Hf Hl Hfit tail_clean) as HN.
  rewrite replay_encode in HN by done.
  eexists. split; [exact HN|]. simpl. split; [done|]. split_and!.
  - intros key v. unfold Get. simpl. apply table_of_lookup.
  - intros key ->. unfold Get, table_of. simpl. by rewrite lookup_insert_eq.
  - intros key ->. unfold Get, table_of. simpl. by rewrite lookup_delete_eq.
Qed.

(** The two logs of the claim, for the key "k". *)
Lemma replay_order_witness :
  let ops1 := [SetRecord [x6b] [x61]; SetRecord [x6b] [x62];
               DeleteRecord [x6b]; SetRecord [x6b] [x63]] in
  let ops2 := [SetRecord [x6b] [x78]; DeleteRecord [x6b]] in
  let s := mkOS {[ "a.log" := log_of (map encode ops1);
                   "b.log" := log_of (map encode ops2) ]} [] in
  (∃ k, NewKV "a.log" s = (Ok k, s) ∧ Get k [x6b] = Some [x63]) ∧
  (∃ k, NewKV "b.log" s = (Ok k, s) ∧ Get k [x6b] = None).
Proof.
  intros ops1 ops2 s. split.
  - destruct (replay_order "a.log" s ops1) as (k & E & _ & _ & H & _).
    + reflexivity.
    + repeat constructor.
    + reflexivity.
    + exists k. split; [exact E|]. by apply H.
  - destruct (replay_order "b.log" s ops2) as (k & E & _ & _ & _ & H).
    + reflexivity.
    + repeat constructor.
    + reflexivity.
    + exists k. split; [exact E|]. by apply H.
Defined.

(** C6. A malformed entry is a hard failure: when the log holds, among
    entries that pass their checksum, a payload whose tag is neither 1 nor
    2, or whose key or value length announces bytes past the end of the
    payload (or is itself cut short), opening the store returns an error: the
    entry is not skipped, and the replay does not end silently before it. *)
Theorem malformed_entry_aborts_open
    (path : string) (s : OS) (ps1 ps2 : list bytes) (p t : bytes) :
  faults s = [] →
  Forall fits_frame (ps1 ++ p :: ps2) →
  crash_tail t →
  files s !! path = Some (log_of (ps1 ++ p :: ps2) ++ t) →
  malformed p →
  ∃ e, NewKV path s = (Err e, s).
Proof.
  intros Hf Hfit Ht Hl Hm.
  rewrite (NewKV_log path s _ t Hf Hl Hfit Ht).
  destruct (replay_malformed ps1 p ps2 ∅ Hm) as [e ->]. eauto.
Qed.

(** A log whose second entry carries the tag 3. *)
Lemma malformed_entry_aborts_open_witness :
  let p := [x03; x00; x00; x00; x00] in
  let s := mkOS {[ "db.log" := log_of ([buildSetPayload [x6b] [x76]] ++ p :: [])
                               ++ [] ]} [] in
  ∃ e, NewKV "db.log" s = (Err e, s).
Proof.
  intros p s.
  apply (malformed_entry_aborts_open "db.log" s [buildSetPayload [x6b] [x76]] [] p []).
  - reflexivity.
  - repeat constructor.
  - constructor.
  - reflexivity.
  - by apply unknown_tag.
Defined.

(** C10. An empty payload is read and skipped: the entry of the empty
    payload is eight zero bytes (length 0, and 0 is the CRC-32 of the empty
    byte string); [readLog] accepts it and returns the empty payload among
    the others; the replay passes over it and leaves the table as it is; and
    opening a store on a log that holds it gives what the same log without
    it gives, table or error. *)
Theorem empty_payload_skipped
    (path : string) (s : OS) (ps1 ps2 : list bytes) (t : bytes) :
  faults s = [] →
  Forall fits_frame (ps1 ++ ps2) →
  crash_tail t →
  files s !! path = Some (log_of (ps1 ++ [] :: ps2) ++ t) →
  entry_frame [] = replicate 8 x00 ∧
  (∃ f', readLog (mkFile path 0 false false) s
         = (ps1 ++ [] :: ps2, None, f', s)) ∧
  (∀ d, replay_entry d [] = Ok d) ∧
  ¬ malformed [] ∧
  NewKV path s
  = (match replay (ps1 ++ ps2) ∅ with
     | Ok d => Ok (mkKV d (mkFile path (length (log_of (ps1 ++ [] :: ps2) ++ t))
                                  false false) path)
     | Err e => Err e
     end, s).
Proof.
  intros Hf Hfit Ht Hl.
  assert (Forall fits_frame (ps1 ++ [] :: ps2)) as Hfit'.
  { apply Forall_app in Hfit as [H1 H2]. apply Forall_app. split; [done|].
    constructor; [|done]. by vm_compute. }
  split_and!.
  - by vm_compute.
  - destruct (readLog_loop_frames (ps1 ++ [] :: ps2)
                (mkFile path 0 false false) s t [] Hfit' Ht)
      as (f' & E & _); [|by exists f'].
    split_and!; [done..|]. by eexists.
  - done.
  - by inversion 1.
  - rewrite (NewKV_log path s _ t Hf Hl Hfit' Ht).
    by rewrite replay_skip_empty.
Qed.

(** A log made of one empty entry between two Set entries. *)
Lemma empty_payload_skipped_witness :
  let p1 := buildSetPayload [x61] [x31] in
  let p2 := buildSetPayload [x62] [x32] in
  let s := mkOS {[ "db.log" := log_of ([p1] ++ [] :: [p2]) ++ [] ]} [] in
  ∃ k, NewKV "db.log" s = (Ok k, s) ∧
       data k = {[ [x61] := [x31]; [x62] := [x32] ]}.
Proof.
  intros p1 p2 s.
  destruct (empty_payload_skipped "db.log" s [p1] [p2] [])
    as (_ & _ & _ & _ & E).
  - reflexivity.
  - repeat constructor.
  - constructor.
  - reflexivity.
  - eexists. split; [exact E|]. vm_compute. reflexivity.
Defined.

(** ** Compaction *)

Section compaction.

Lemma path_suffix_ne (p suffix : string) : suffix ≠ "" → p +:+ suffix ≠ p.
Proof.
  intros Hs. induction p as [|a p IH]; simpl; [done|].
  intros [= E]. by apply IH.
Qed.

Lemma tmpName_ne_logPath k : tmpName k ≠ logPath k.
Proof. by apply path_suffix_ne. Qed.

Lemma rotatedName_ne_logPath k : rotatedName k ≠ logPath k.
Proof. by apply path_suffix_ne. Qed.

Lemma tmpName_ne_rotatedName k : tmpName k ≠ rotatedName k.
Proof. unfold tmpName, rotatedName. intros E. by apply String.app_inj in E. Qed.

Lemma Rename_no_faults oldpath newpath s content :
  faults s = [] → files s !! oldpath = Some content →
  Rename oldpath newpath s
  = (None, mkOS (<[newpath := content]> (delete oldpath (files s))) []).
Proof.
  intros Hf Hl. unfold Rename, mbind, IO_bind, mret, IO_ret.
  rewrite next_outcome_no_faults by done. unfold get_files, set_files.
  by rewrite Hl, Hf.
Qed.

Lemma dir_calls_no_faults s :
  faults s = [] →
  Open_dir s = (None, s) ∧ Sync_dir s = (None, s) ∧ Close_dir s = (None, s).
Proof.
  intros Hf. unfold Open_dir, Sync_dir, Close_dir, mbind, IO_bind, mret, IO_ret.
  by rewrite next_outcome_no_faults.
Qed.

(** The loop of [Compact] without faults: every entry of the map, in the
    order of the iteration, goes to the end of the temporary file. *)
Lemma Compact_write_no_faults name order : ∀ tmpF s content,
  appendable tmpF s content →
  ∃ tmpF' s',
    Compact_write name tmpF order s = (None, tmpF', s') ∧
    appendable tmpF' s' (content ++ log_of (snapshot order)) ∧
    f_path tmpF' = f_path tmpF ∧
    files s' = <[f_path tmpF := content ++ log_of (snapshot order)]> (files s).
Proof.
  induction order as [|[key val] order IH]; intros tmpF s content Ha.
  - exists tmpF, s. simpl. rewrite app_nil_r. split_and!; [done..|].
    destruct Ha as (_ & _ & Hl & _). by rewrite insert_id.
  - change (log_of (snapshot ((key, val) :: order)))
      with (entry_frame (buildSetPayload key val) ++ log_of (snapshot order)).
    rewrite (assoc_L app).
    cbn [Compact_write]. unfold mbind, IO_bind.
    rewrite (writeLogEntry_appendable _ _ _ _ Ha).
    apply (appendable_append _ _ _ (entry_frame (buildSetPayload key val))) in Ha.
    destruct (IH _ _ _ Ha) as (tmpF' & s' & -> & Ha' & Hp & Hfs).
    exists tmpF', s'. split_and!; [done..|].
    rewrite Hfs. unfold append_os, append_file. simpl.
    by rewrite insert_insert_eq.
Qed.

(** A compaction without faults. *)
Lemma Compact_no_faults order k s :
  faults s = [] → f_closed (log k) = false → files s !! tmpName k = None →
  Compact order k s
  = (None, mkKV (data k) (mkFile (logPath k) 0 true false) (logPath k),
     mkOS (<[logPath k := log_of (snapshot order)]>
             (delete (rotatedName k) (files s))) []).
Proof.
  intros Hf Hc Htmp. unfold Compact. fold (tmpName k). fold (rotatedName k).
  unfold mbind at 1. unfold IO_bind.
  rewrite (OpenFile_create _ _ _ Hf Htmp) by done. cbn [O_APPEND].
  set (s1 := mkOS (<[tmpName k := []]> (files s)) []).
  assert (appendable (mkFile (tmpName k) 0 false false) s1 []) as Ha.
  { split_and!; [done..| |by right]. simpl. by rewrite lookup_insert_eq. }
  destruct (Compact_write_no_faults (tmpName k) order _ _ _ Ha)
    as (tmpF & s2 & E & (Hc2 & Hf2 & Hl2 & _) & Hp2 & Hfs2).
  simpl in Hl2, Hfs2.
  unfold mbind at 1. unfold IO_bind. rewrite E. cbn beta iota zeta.
  unfold mbind at 1. unfold IO_bind. rewrite (Close_no_faults _ _ Hc2 Hf2).
  cbn beta iota zeta.
  rewrite Hp2 in Hl2. simpl in Hl2.
  unfold mbind at 1. unfold IO_bind.
  rewrite (Rename_no_faults _ _ _ _ Hf2 Hl2). cbn beta iota zeta.
  set (s3 := mkOS _ []).
  destruct (dir_calls_no_faults s3 eq_refl) as (E1 & E2 & E3).
  unfold mbind at 1. unfold IO_bind. rewrite E1. cbn beta iota zeta.
  unfold mbind at 1. unfold IO_bind. rewrite E2. cbn beta iota zeta.
  unfold mbind at 1. unfold IO_bind. rewrite E3. cbn beta iota zeta.
  unfold mbind at 1. unfold IO_bind.
  rewrite (Close_no_faults _ s3 Hc eq_refl). cbn [logPath].
  unfold mbind at 1. unfold IO_bind.
  rewrite (Rename_no_faults _ _ s3 (log_of (snapshot order)) eq_refl)
    by (unfold s3; simpl; by rewrite lookup_insert_eq).
  cbn beta iota zeta.
  set (s4 := mkOS _ []).
  destruct (dir_calls_no_faults s4 eq_refl) as (E4 & E5 & E6).
  unfold mbind at 1. unfold IO_bind. rewrite E4. cbn beta iota zeta.
  unfold mbind at 1. unfold IO_bind. rewrite E5. cbn beta iota zeta.
  unfold mbind at 1. unfold IO_bind. rewrite E6. cbn beta iota zeta.
  unfold mbind at 1. unfold IO_bind.
  rewrite (OpenFile_existing _ _ s4 (log_of (snapshot order)) eq_refl)
    by (done || unfold s4; simpl; by rewrite lookup_insert_eq).
  unfold mret, IO_ret. simpl. do 2 f_equal.
  unfold s4, s3. simpl. rewrite Hfs2. unfold s1. simpl.
  pose proof (tmpName_ne_logPath k). pose proof (rotatedName_ne_logPath k).
  pose proof (tmpName_ne_rotatedName k).
  apply map_eq. intros p.
  destruct (decide (p = logPath k)) as [->|]; [by rewrite !lookup_insert_eq|].
  rewrite !(lookup_insert_ne _ (logPath k)) by done.
  destruct (decide (p = rotatedName k)) as [->|]; [by rewrite !lookup_delete_eq|].
  rewrite !(lookup_delete_ne _ (rotatedName k)) by done.
  rewrite lookup_insert_ne by done.
  destruct (decide (p = tmpName k)) as [->|]; [by rewrite lookup_delete_eq|].
  rewrite lookup_delete_ne by done.
  by rewrite !lookup_insert_ne by done.
Qed.

End compaction.

(** ** Calls that returned no error, whatever the faults scheduled *)

Section success.

Lemma next_outcome_files s o s1 : next_outcome s = (o, s1) → files s1 = files s.
Proof. unfold next_outcome. destruct (faults s); by intros [= <- <-]. Qed.

Ltac run_io :=
  unfold mbind, IO_bind, mret, IO_ret, get_files, set_files in *.

Lemma Write_success f d s f' s' content :
  at_end f s content → Write f d s = (None, f', s') →
  files s' = <[f_path f := content ++ d]> (files s) ∧
  f_path f' = f_path f ∧ at_end f' s' (content ++ d).
Proof.
  intros (Hc & Hl & He). unfold Write. rewrite Hc. run_io.
  destruct (next_outcome s) as [o s1] eqn:Ho.
  apply next_outcome_files in Ho. rewrite Ho, Hl.
  assert ((if f_append f then length content else f_off f) = length content) as ->.
  { destruct He as [-> | ->]; [done|]. by destruct (f_append f). }
  destruct o; [|done]. intros [= <- <-]. simpl.
  rewrite write_at_end. split_and!; [done..|].
  split_and!; simpl; [done|by rewrite lookup_insert_eq|].
  right. by rewrite length_app.
Qed.

Lemma Sync_files f s r s' : Sync f s = (r, s') → files s' = files s.
Proof.
  unfold Sync. destruct (f_closed f); run_io; [by intros [= <- <-]|].
  destruct (next_outcome s) as [o s1] eqn:Ho.
  apply next_outcome_files in Ho. by intros [= <- <-].
Qed.

Lemma Close_files f s r f' s' :
  Close f s = (r, f', s') → files s' = files s ∧ f_path f' = f_path f.
Proof.
  unfold Close. destruct (f_closed f); run_io; [by intros [= <- <- <-]|].
  destruct (next_outcome s) as [o s1] eqn:Ho.
  apply next_outcome_files in Ho. by intros [= <- <- <-].
Qed.

Lemma Close_success f s f' s' : Close f s = (None, f', s') → f_closed f = false.
Proof. unfold Close. by destruct (f_closed f). Qed.

Lemma Rename_success oldpath newpath s s' :
  Rename oldpath newpath s = (None, s') →
  ∃ content, files s !! oldpath = Some content ∧
             files s' = <[newpath := content]> (delete oldpath (files s)).
Proof.
  unfold Rename. run_io.
  destruct (next_outcome s) as [o s1] eqn:Ho.
  apply next_outcome_files in Ho. destruct o; [|done]. rewrite Ho.
  destruct (files s !! oldpath) as [content|]; [|done].
  intros [= <-]. eauto.
Qed.

Lemma dir_calls_files s :
  (∀ r s', Open_dir s = (r, s') → files s' = files s) ∧
  (∀ r s', Sync_dir s = (r, s') → files s' = files s) ∧
  (∀ r s', Close_dir s = (r, s') → files s' = files s).
Proof.
  unfold Open_dir, Sync_dir, Close_dir. run_io.
  destruct (next_outcome s) as [o s1] eqn:Ho.
  apply next_outcome_files in Ho. split_and!; by intros ?? [= <- <-].
Qed.

Lemma OpenFile_success path fl s f s' :
  OpenFile path fl s = (Ok f, s') →
  f = mkFile path 0 (O_APPEND fl) false ∧
  match files s !! path with
  | None => O_CREATE fl = true ∧ files s' = <[path := []]> (files s)
  | Some _ => O_CREATE fl && O_EXCL fl = false ∧
              files s' = if O_TRUNC fl then <[path := []]> (files s) else files s
  end.
Proof.
  unfold OpenFile. run_io.
  destruct (next_outcome s) as [o s1] eqn:Ho.
  apply next_outcome_files in Ho. destruct o; [|done]. rewrite Ho.
  destruct (files s !! path) as [content|].
  - destruct (O_CREATE fl && O_EXCL fl); [done|].
    destruct (O_TRUNC fl); by intros [= <- <-].
  - destruct (O_CREATE fl); [|done]. by intros [= <- <-].
Qed.

Lemma writeLogEntry_success f payload s f' s' content :
  at_end f s content → writeLogEntry f payload s = (None, f', s') →
  files s' = <[f_path f := content ++ entry_frame payload]> (files s) ∧
  f_path f' = f_path f ∧ at_end f' s' (content ++ entry_frame payload).
Proof.
  intros Ha. unfold writeLogEntry. run_io.
  destruct (Write f _ s) as [[[e|] f1] s1] eqn:E1; [done|].
  apply (Write_success _ _ _ _ _ _ Ha) in E1 as (Hf1 & Hp1 & Ha1).
  destruct (Write f1 _ s1) as [[[e|] f2] s2] eqn:E2; [done|].
  apply (Write_success _ _ _ _ _ _ Ha1) in E2 as (Hf2 & Hp2 & Ha2).
  destruct (Sync f2 s2) as [r s3] eqn:E3. apply Sync_files in E3.
  intros [= -> <- <-].
  unfold entry_frame. fold (entry_header payload) in *.
  rewrite (assoc_L app). split_and!.
  - by rewrite E3, Hf2, Hf1, Hp1, insert_insert_eq.
  - congruence.
  - destruct Ha2 as (? & ? & ?). split_and!; [done| |done]. by rewrite E3.
Qed.

Lemma Compact_write_success name order : ∀ tmpF s content tmpF' s',
  at_end tmpF s content →
  Compact_write name tmpF order s = (None, tmpF', s') →
  files s' = <[f_path tmpF := content ++ log_of (snapshot order)]> (files s) ∧
  f_path tmpF' = f_path tmpF ∧ at_end tmpF' s' (content ++ log_of (snapshot order)).
Proof.
  induction order as [|[key val] order IH]; intros tmpF s content tmpF' s' Ha.
  - simpl. intros [= <- <-]. rewrite app_nil_r. split_and!; [|done..].
    destruct Ha as (_ & Hl & _). by rewrite insert_id.
  - change (log_of (snapshot ((key, val) :: order)))
      with (entry_frame (buildSetPayload key val) ++ log_of (snapshot order)).
    rewrite (assoc_L app). cbn [Compact_write]. run_io.
    destruct (writeLogEntry tmpF _ s) as [[[e|] f1] s1] eqn:E1.
    { destruct (Close f1 s1) as [[? ?] sc]. by destruct (Remove name sc). }
    apply (writeLogEntry_success _ _ _ _ _ _ Ha) in E1 as (Hf1 & Hp1 & Ha1).
    intros E2. apply (IH _ _ _ _ _ Ha1) in E2 as (Hf2 & Hp2 & Ha2).
    split_and!; [|congruence|done].
    by rewrite Hf2, Hf1, Hp1, insert_insert_eq.
Qed.

(** What a compaction that returned no error has done, whatever the faults
    that were scheduled: no temporary file was in the way, the handle of the
    log was open, and the log is now the snapshot of the table. *)
Lemma Compact_success order k s k' s' :
  Compact order k s = (None, k', s') →
  files s !! tmpName k = None ∧ f_closed (log k) = false ∧
  k' = mkKV (data k) (mkFile (logPath k) 0 true false) (logPath k) ∧
  files s' = <[logPath k := log_of (snapshot order)]>
               (delete (rotatedName k) (files s)).
Proof.
  unfold Compact. fold (tmpName k). fold (rotatedName k).
  pose proof (tmpName_ne_logPath k) as Hn1.
  pose proof (rotatedName_ne_logPath k) as Hn2.
  pose proof (tmpName_ne_rotatedName k) as Hn3.
  unfold mbind at 1. unfold IO_bind.
  destruct (OpenFile (tmpName k) _ s) as [[tmpF|e] s1] eqn:E1; [|done].
  apply OpenFile_success in E1 as [-> E1]. cbn [O_APPEND O_CREATE O_EXCL O_TRUNC] in E1.
  destruct (files s !! tmpName k) as [c|] eqn:Htmp; [by destruct E1|].
  destruct E1 as [_ Hf1].
  assert (at_end (mkFile (tmpName k) 0 false false) s1 []) as Ha.
  { split_and!; [done| |by right]. simpl. by rewrite Hf1, lookup_insert_eq. }
  unfold mbind at 1. unfold IO_bind.
  destruct (Compact_write _ _ order s1) as [[[e|] tmpF] s2] eqn:E2; [done|].
  apply (Compact_write_success _ _ _ _ _ _ _ Ha) in E2 as (Hf2 & Hp2 & _).
  simpl in Hf2, Hp2.
  unfold mbind at 1. unfold IO_bind.
  destruct (Close tmpF s2) as [[[e|] tmpF'] s3] eqn:E3.
  { unfold mbind, IO_bind, mret, IO_ret. by destruct (Remove _ s3). }
  apply Close_files in E3 as [Hf3 _].
  unfold mbind at 1. unfold IO_bind.
  destruct (Rename (tmpName k) (rotatedName k) s3) as [[e|] s4] eqn:E4.
  { unfold mbind, IO_bind, mret, IO_ret. by destruct (Remove _ s4). }
  apply Rename_success in E4 as (c4 & Hc4 & Hf4).
  rewrite Hf3, Hf2, lookup_insert_eq in Hc4. injection Hc4 as <-.
  unfold mbind at 1. unfold IO_bind.
  destruct (Open_dir s4) as [[e|] s5] eqn:E5; [done|].
  apply (dir_calls_files s4) in E5.
  unfold mbind at 1. unfold IO_bind.
  destruct (Sync_dir s5) as [[e|] s6] eqn:E6.
  { unfold mbind, IO_bind, mret, IO_ret. by destruct (Close_dir s6). }
  apply (dir_calls_files s5) in E6.
  unfold mbind at 1. unfold IO_bind.
  destruct (Close_dir s6) as [[e|] s7] eqn:E7; [done|].
  apply (dir_calls_files s6) in E7.
  unfold mbind at 1. unfold IO_bind.
  destruct (Close (log k) s7) as [[[e|] oldLog] s8] eqn:E8; [done|].
  pose proof (Close_success _ _ _ _ E8) as Hopen.
  apply Close_files in E8 as [Hf8 _]. cbn [logPath data].
  unfold mbind at 1. unfold IO_bind.
  destruct (Rename (rotatedName k) (logPath k) s8) as [[e|] s9] eqn:E9; [done|].
  apply Rename_success in E9 as (c9 & Hc9 & Hf9).
  rewrite Hf8, E7, E6, E5, Hf4, lookup_insert_eq in Hc9. injection Hc9 as <-.
  unfold mbind at 1. unfold IO_bind.
  destruct (Open_dir s9) as [[e|] s10] eqn:E10; [done|].
  apply (dir_calls_files s9) in E10.
  unfold mbind at 1. unfold IO_bind.
  destruct (Sync_dir s10) as [[e|] s11] eqn:E11.
  { unfold mbind, IO_bind, mret, IO_ret. by destruct (Close_dir s11). }
  apply (dir_calls_files s10) in E11.
  unfold mbind at 1. unfold IO_bind.
  destruct (Close_dir s11) as [[e|] s12] eqn:E12; [done|].
  apply (dir_calls_files s11) in E12.
  unfold mbind at 1. unfold IO_bind.
  destruct (OpenFile (logPath k) _ s12) as [[newLog|e] s13] eqn:E13; [|done].
  apply OpenFile_success in E13 as [-> E13].
  cbn [O_APPEND O_CREATE O_EXCL O_TRUNC] in E13.
  unfold mret, IO_ret. intros [= <- <-].
  assert (files s12 = <[logPath k := log_of (snapshot order)]>
                        (delete (rotatedName k) (files s))) as Hfinal.
  { rewrite E12, E11, E10, Hf9, Hf8, E7, E6, E5, Hf4, Hf3, Hf2, Hf1.
    apply map_eq. intros p.
    destruct (decide (p = logPath k)) as [->|]; [by rewrite !lookup_insert_eq|].
    rewrite !(lookup_insert_ne _ (logPath k)) by done.
    destruct (decide (p = rotatedName k)) as [->|]; [by rewrite !lookup_delete_eq|].
    rewrite !(lookup_delete_ne _ (rotatedName k)) by done.
    rewrite lookup_insert_ne by done.
    destruct (decide (p = tmpName k)) as [->|]; [by rewrite lookup_delete_eq|].
    rewrite lookup_delete_ne by done.
    by rewrite !lookup_insert_ne by done. }
  split_and!; [done..|].
  destruct (files s12 !! logPath k); [|by destruct E13].
  destruct E13 as [_ ->]. done.
Qed.

End success.

Section snapshot.

Lemma snapshot_encode order :
  snapshot order = map encode (map (λ kv, SetRecord kv.1 kv.2) order).
Proof. unfold snapshot. by rewrite map_map. Qed.

Lemma table_of_sets order :
  table_of (map (λ kv, SetRecord kv.1 kv.2) order)
  = list_to_map (reverse order).
Proof.
  unfold table_of.
  induction order as [|[key val] order IH] using rev_ind; [done|].
  rewrite map_app, fold_left_app, reverse_app. simpl. by rewrite IH.
Qed.

(** The table that the entries of a map build, in any order of iteration,
    is that map. *)
Lemma table_of_range_order m order :
  range_order m order →
  table_of (map (λ kv, SetRecord kv.1 kv.2) order) = m.
Proof.
  unfold range_order. intros Hperm. rewrite table_of_sets.
  rewrite <-(list_to_map_to_list m). apply list_to_map_proper.
  - rewrite reverse_Permutation, Hperm. apply NoDup_fst_map_to_list.
  - by rewrite reverse_Permutation.
Qed.

Lemma range_order_fits m order :
  range_order m order →
  map_Forall (λ key value, record_fits (SetRecord key value)) m →
  Forall (λ kv, record_fits (SetRecord kv.1 kv.2)) order.
Proof.
  unfold range_order. intros Hperm Hfit. rewrite Hperm.
  apply Forall_forall. intros [key val] Hin. simpl.
  apply list_elem_of_In, elem_of_map_to_list in Hin. by apply (Hfit key val).
Qed.

Lemma snapshot_decode order :
  Forall (λ kv, record_fits (SetRecord kv.1 kv.2)) order →
  Forall2 (λ p kv, decode p = Ok (SetRecord kv.1 kv.2)) (snapshot order) order.
Proof.
  induction 1 as [|[key val] order Hkv _ IH]; constructor; [|done].
  by apply (decode_encode (SetRecord key val)).
Qed.

Lemma range_order_length m order :
  range_order m order → length (snapshot order) = size m.
Proof.
  unfold range_order, snapshot. intros Hperm.
  by rewrite length_map, Hperm, length_map_to_list.
Qed.

(** The key of a record that decodes is shorter than [2^32] bytes. *)
Lemma decode_key_short p r : decode p = Ok r → len (record_key r) < 2 ^ 32.
Proof.
  unfold decode. intros Hd.
  assert (∀ (b : bytes) lo n, 0 ≤ n → len (slice b lo (lo + n)) ≤ n) as Hs.
  { intros b lo n Hn. unfold slice, len. rewrite length_take. lia. }
  repeat case_match; simplify_eq/=;
    match goal with
    | |- len (slice ?b _ (_ + Uint32 ?x)) < _ =>
        pose proof (Uint32_range x);
        pose proof (Hs b (1 + 4) (Uint32 x) ltac:(lia)); lia
    end.
Qed.

Lemma replay_keys_short ps : ∀ d d',
  replay ps d = Ok d' →
  map_Forall (λ key _, len key < 2 ^ 32) d →
  map_Forall (λ key _, len key < 2 ^ 32) d'.
Proof.
  induction ps as [|p ps IH]; intros d d' Hr Hd; simpl in Hr.
  { injection Hr as <-. exact Hd. }
  destruct (replay_entry d p) as [d1|e] eqn:E; [|done].
  apply (IH d1 d' Hr). unfold replay_entry in E.
  case_decide; [by injection E as <-|].
  destruct (decode p) as [r|] eqn:Hdec; [|done]. injection E as <-.
  apply decode_key_short in Hdec.
  destruct r as [key val|key]; simpl in *.
  - by apply map_Forall_insert_2.
  - by apply map_Forall_delete.
Qed.

(** Every key of a table built at open is shorter than [2^32] bytes. *)
Lemma NewKV_keys_short path s k s' :
  NewKV path s = (Ok k, s') →
  map_Forall (λ key _, len key < 2 ^ 32) (data k).
Proof.
  unfold NewKV, mbind, IO_bind, mret, IO_ret. intros HN.
  repeat case_match; simplify_eq/=.
  eapply replay_keys_short; [done|]. apply map_Forall_empty.
Qed.

End snapshot.

(** ** Compactions that return an error *)

Section failure.

Ltac run_io :=
  unfold mbind, IO_bind, mret, IO_ret, get_files, set_files in *.

Lemma OpenFile_failure path fl s e s' :
  OpenFile path fl s = (Err e, s') → files s' = files s.
Proof.
  unfold OpenFile. run_io.
  destruct (next_outcome s) as [o s1] eqn:Ho.
  apply next_outcome_files in Ho. destruct o; [|by intros [= <- <-]].
  rewrite Ho.
  destruct (files s !! path); repeat case_match; by intros [= <- <-].
Qed.

Lemma Rename_failure oldpath newpath s e s' :
  Rename oldpath newpath s = (Some e, s') → files s' = files s.
Proof.
  unfold Rename. run_io.
  destruct (next_outcome s) as [o s1] eqn:Ho.
  apply next_outcome_files in Ho. destruct o; [|by intros [= <- <-]].
  rewrite Ho. destruct (files s !! oldpath); [done|]. by intros [= <- <-].
Qed.

Lemma Remove_other path s r s' p :
  p ≠ path → Remove path s = (r, s') → files s' !! p = files s !! p.
Proof.
  intros Hp. unfold Remove. run_io.
  destruct (next_outcome s) as [o s1] eqn:Ho.
  apply next_outcome_files in Ho. destruct o; [|by intros [= <- <-]; rewrite Ho].
  rewrite Ho. destruct (files s !! path); intros [= <- <-]; simpl; [|by rewrite Ho].
  by rewrite lookup_delete_ne.
Qed.

Lemma Write_other f d s r f' s' p :
  p ≠ f_path f → Write f d s = (r, f', s') →
  files s' !! p = files s !! p ∧ f_path f' = f_path f.
Proof.
  intros Hp. unfold Write. destruct (f_closed f); run_io; [by intros [= <- <- <-]|].
  destruct (next_outcome s) as [o s1] eqn:Ho.
  apply next_outcome_files in Ho. rewrite Ho.
  destruct (files s !! f_path f); intros [= <- <- <-]; simpl; [|by rewrite Ho].
  by rewrite lookup_insert_ne.
Qed.

Lemma writeLogEntry_other f payload s r f' s' p :
  p ≠ f_path f → writeLogEntry f payload s = (r, f', s') →
  files s' !! p = files s !! p ∧ f_path f' = f_path f.
Proof.
  intros Hp. unfold writeLogEntry. run_io.
  destruct (Write f _ s) as [[r1 f1] s1] eqn:E1.
  apply (Write_other _ _ _ _ _ _ p Hp) in E1 as [H1 P1].
  destruct r1; [by intros [= <- <- <-]|].
  destruct (Write f1 _ s1) as [[r2 f2] s2] eqn:E2.
  apply (Write_other _ _ _ _ _ _ p) in E2 as [H2 P2]; [|by rewrite P1].
  destruct r2; [intros [= <- <- <-]; split; congruence|].
  destruct (Sync f2 s2) as [r3 s3] eqn:E3. apply Sync_files in E3.
  intros [= <- <- <-]. split; [|congruence]. by rewrite E3, H2, H1.
Qed.

Lemma Compact_write_other name order : ∀ tmpF s r tmpF' s' p,
  p ≠ f_path tmpF → p ≠ name →
  Compact_write name tmpF order s = (r, tmpF', s') →
  files s' !! p = files s !! p.
Proof.
  induction order as [|[key val] order IH]; intros tmpF s r tmpF' s' p Hp Hn.
  - simpl. by intros [= <- <- <-].
  - cbn [Compact_write]. run_io.
    destruct (writeLogEntry tmpF _ s) as [[r1 f1] s1] eqn:E1.
    apply (writeLogEntry_other _ _ _ _ _ _ p Hp) in E1 as [H1 P1].
    destruct r1 as [e|].
    + destruct (Close f1 s1) as [[r2 f2] s2] eqn:E2.
      apply Close_files in E2 as [H2 _].
      destruct (Remove name s2) as [r3 s3] eqn:E3.
      apply (Remove_other _ _ _ _ p Hn) in E3.
      intros [= <- <- <-]. by rewrite E3, H2, H1.
    + intros E. apply (IH _ _ _ _ _ p) in E; [|by rewrite P1|done].
      by rewrite E, H1.
Qed.

(** Whatever fails, a compaction that returns an error has left the table
    as it was, and the live log either as it was or, when the failure came
    after the swap, replaced by the snapshot. *)
Lemma Compact_failure order k s e k' s' :
  Compact order k s = (Some e, k', s') →
  data k' = data k ∧
  (files s' !! logPath k = files s !! logPath k ∨
   files s' !! logPath k = Some (log_of (snapshot order))).
Proof.
  unfold Compact. fold (tmpName k). fold (rotatedName k).
  pose proof (tmpName_ne_logPath k) as Hn1.
  pose proof (rotatedName_ne_logPath k) as Hn2.
  pose proof (tmpName_ne_rotatedName k) as Hn3.
  unfold mbind at 1. unfold IO_bind.
  destruct (OpenFile (tmpName k) _ s) as [[tmpF|e1] s1] eqn:E1.
  2:{ apply OpenFile_failure in E1. intros [= <- <- <-]. split; [done|].
      left. by rewrite E1. }
  apply OpenFile_success in E1 as [-> E1]. cbn [O_APPEND O_CREATE O_EXCL O_TRUNC] in E1.
  destruct (files s !! tmpName k) as [c|] eqn:Htmp; [by destruct E1|].
  destruct E1 as [_ Hf1].
  assert (files s1 !! logPath k = files s !! logPath k) as L1
    by (by rewrite Hf1, lookup_insert_ne).
  assert (at_end (mkFile (tmpName k) 0 false false) s1 []) as Ha.
  { split_and!; [done| |by right]. simpl. by rewrite Hf1, lookup_insert_eq. }
  unfold mbind at 1. unfold IO_bind.
  destruct (Compact_write _ _ order s1) as [[[e2|] tmpF] s2] eqn:E2.
  { apply (Compact_write_other _ _ _ _ _ _ _ (logPath k)) in E2; [|done..].
    intros [= <- <- <-]. split; [done|]. left. by rewrite E2. }
  apply (Compact_write_success _ _ _ _ _ _ _ Ha) in E2 as (Hf2 & Hp2 & _).
  simpl in Hf2, Hp2.
  assert (files s2 !! logPath k = files s !! logPath k) as L2
    by (by rewrite Hf2, lookup_insert_ne).
  unfold mbind at 1. unfold IO_bind.
  destruct (Close tmpF s2) as [[[e3|] tmpF'] s3] eqn:E3;
    apply Close_files in E3 as [Hf3 _].
  { unfold mbind, IO_bind, mret, IO_ret.
    destruct (Remove _ s3) as [r sr] eqn:ER.
    apply (Remove_other _ _ _ _ (logPath k)) in ER; [|done].
    intros [= <- <- <-]. split; [done|]. left. by rewrite ER, Hf3. }
  unfold mbind at 1. unfold IO_bind.
  destruct (Rename (tmpName k) (rotatedName k) s3) as [[e4|] s4] eqn:E4.
  { apply Rename_failure in E4. unfold mbind, IO_bind, mret, IO_ret.
    destruct (Remove _ s4) as [r sr] eqn:ER.
    apply (Remove_other _ _ _ _ (logPath k)) in ER; [|done].
    intros [= <- <- <-]. split; [done|]. left. by rewrite ER, E4, Hf3. }
  apply Rename_success in E4 as (c4 & Hc4 & Hf4).
  rewrite Hf3, Hf2, lookup_insert_eq in Hc4. injection Hc4 as <-.
  assert (files s4 !! logPath k = files s !! logPath k) as L4.
  { rewrite Hf4, lookup_insert_ne, lookup_delete_ne by done. by rewrite Hf3. }
  unfold mbind at 1. unfold IO_bind.
  destruct (Open_dir s4) as [r5 s5] eqn:E5. apply (dir_calls_files s4) in E5.
  destruct r5 as [e5|].
  { intros [= <- <- <-]. split; [done|]. left. by rewrite E5. }
  unfold mbind at 1. unfold IO_bind.
  destruct (Sync_dir s5) as [r6 s6] eqn:E6. apply (dir_calls_files s5) in E6.
  destruct r6 as [e6|].
  { unfold mbind, IO_bind, mret, IO_ret.
    destruct (Close_dir s6) as [r sr] eqn:ER. apply (dir_calls_files s6) in ER.
    intros [= <- <- <-]. split; [done|]. left. by rewrite ER, E6, E5. }
  unfold mbind at 1. unfold IO_bind.
  destruct (Close_dir s6) as [r7 s7] eqn:E7. apply (dir_calls_files s6) in E7.
  destruct r7 as [e7|].
  { intros [= <- <- <-]. split; [done|]. left. by rewrite E7, E6, E5. }
  unfold mbind at 1. unfold IO_bind.
  destruct (Close (log k) s7) as [[r8 oldLog] s8] eqn:E8.
  apply Close_files in E8 as [Hf8 _]. cbn [logPath data].
  destruct r8 as [e8|].
  { intros [= <- <- <-]. split; [done|]. left. by rewrite Hf8, E7, E6, E5. }
  unfold mbind at 1. unfold IO_bind.
  destruct (Rename (rotatedName k) (logPath k) s8) as [[e9|] s9] eqn:E9.
  { apply Rename_failure in E9.
    intros [= <- <- <-]. split; [done|]. left. by rewrite E9, Hf8, E7, E6, E5. }
  apply Rename_success in E9 as (c9 & Hc9 & Hf9).
  rewrite Hf8, E7, E6, E5, Hf4, lookup_insert_eq in Hc9. injection Hc9 as <-.
  assert (files s9 !! logPath k = Some (log_of (snapshot order))) as L9
    by (by rewrite Hf9, lookup_insert_eq).
  unfold mbind at 1. unfold IO_bind.
  destruct (Open_dir s9) as [r10 s10] eqn:E10. apply (dir_calls_files s9) in E10.
  destruct r10 as [e10|].
  { intros [= <- <- <-]. split; [done|]. right. by rewrite E10. }
  unfold mbind at 1. unfold IO_bind.
  destruct (Sync_dir s10) as [r11 s11] eqn:E11. apply (dir_calls_files s10) in E11.
  destruct r11 as [e11|].
  { unfold mbind, IO_bind, mret, IO_ret.
    destruct (Close_dir s11) as [r sr] eqn:ER. apply (dir_calls_files s11) in ER.
    intros [= <- <- <-]. split; [done|]. right. by rewrite ER, E11, E10. }
  unfold mbind at 1. unfold IO_bind.
  destruct (Close_dir s11) as [r12 s12] eqn:E12. apply (dir_calls_files s11) in E12.
  destruct r12 as [e12|].
  { intros [= <- <- <-]. split; [done|]. right. by rewrite E12, E11, E10. }
  unfold mbind at 1. unfold IO_bind.
  destruct (OpenFile (logPath k) _ s12) as [[newLog|e13] s13] eqn:E13; [done|].
  apply OpenFile_failure in E13. unfold mret, IO_ret.
  intros [= <- <- <-]. split; [done|]. right. by rewrite E13, E12, E11, E10.
Qed.

End failure.

(** C1, as amended. Compaction preserves the state of every table whose
    entries fit an entry of the log, that is [9 + len(key) + len(value) <
    2^32]: when [Compact] returns no error, whatever the order in which it
    visited the map, the table is the one before the call and the log it
    installed holds exactly one entry per binding of the table: as many
    payloads as the table has keys, each the Set record of its binding and
    none a tombstone. When no fault is scheduled after the compaction,
    [readLog] from offset 0 returns these payloads, and opening a store on
    the new log rebuilds the same table. *)
Theorem compaction_preserves_state
    (k k' : KV) (s s' : OS) (order : list (bytes * bytes)) :
  range_order (data k) order →
  map_Forall (λ key value, record_fits (SetRecord key value)) (data k) →
  Compact order k s = (None, k', s') →
  data k' = data k ∧
  files s' !! logPath k = Some (log_of (snapshot order)) ∧
  length (snapshot order) = size (data k) ∧
  Forall2 (λ p kv, decode p = Ok (SetRecord kv.1 kv.2)) (snapshot order) order ∧
  (faults s' = [] →
   (∃ f', readLog (mkFile (logPath k) 0 false false) s'
          = (snapshot order, None, f', s')) ∧
   ∃ k'', NewKV (logPath k) s' = (Ok k'', s') ∧ data k'' = data k).
Proof.
  intros Hord Hfit HC.
  apply Compact_success in HC as (_ & _ & -> & Hfs).
  pose proof (range_order_fits _ _ Hord Hfit) as Hfits.
  assert (Forall record_fits (map (λ kv, SetRecord kv.1 kv.2) order)) as Hrec
    by (by apply Forall_map).
  assert (Forall fits_frame (snapshot order)) as Hframes.
  { rewrite snapshot_encode. by apply Forall_map. }
  assert (files s' !! logPath k = Some (log_of (snapshot order) ++ [])) as Hl.
  { by rewrite Hfs, lookup_insert_eq, app_nil_r. }
  split_and!.
  - done.
  - by rewrite app_nil_r in Hl.
  - by apply range_order_length.
  - by apply snapshot_decode.
  - intros Hf. split.
    + destruct (readLog_loop_frames (snapshot order)
                  (mkFile (logPath k) 0 false false) s' [] [] Hframes tail_clean)
        as (f' & E & _); [|by exists f'].
      split_and!; [done..|]. by eexists.
    + rewrite (NewKV_log _ s' _ [] Hf Hl Hframes tail_clean).
      rewrite snapshot_encode, replay_encode by done.
      eexists. split; [done|]. simpl. by apply table_of_range_order.
Qed.

(** Compacting a store of two keys, one of them bound to the empty value,
    over a log that ends in garbage. *)
Lemma compaction_preserves_state_witness :
  let k := mkKV {[ [x61] := [x31; x32]; [x62] := [] ]}
                (mkFile "db.log" 0 true false) "db.log" in
  let s := mkOS {[ "db.log" := [x00; x01; x02] ]} [] in
  ∃ k' s',
    Compact (map_to_list (data k)) k s = (None, k', s') ∧
    length (snapshot (map_to_list (data k))) = 2%nat ∧
    (∃ k'', NewKV "db.log" s' = (Ok k'', s') ∧ data k'' = data k).
Proof.
  intros k s.
  assert (Compact (map_to_list (data k)) k s
          = (None, mkKV (data k) (mkFile "db.log" 0 true false) "db.log",
             mkOS (<[logPath k := log_of (snapshot (map_to_list (data k)))]>
                     (delete (rotatedName k) (files s))) [])) as HC.
  { by apply Compact_no_faults. }
  assert (range_order (data k) (map_to_list (data k))) as Hord
    by (unfold range_order; reflexivity).
  assert (map_Forall (λ key value, record_fits (SetRecord key value)) (data k))
    as Hfit by (apply (bool_decide_unpack _); vm_compute; reflexivity).
  destruct (compaction_preserves_state k _ s _ _ Hord Hfit HC)
    as (_ & _ & Hn & _ & HN).
  eexists _, _. split; [exact HC|]. split; [exact Hn|].
  apply HN. reflexivity.
Defined.

(** C1 as stated fails for a table that holds a key of [2^32] bytes: the
    length fields of the entry wrap around, and no replay can give the key
    back. The table is the one [Set] builds from the empty store. *)
Lemma compaction_oversized_key_counterexample :
  let key := replicate (Z.to_nat (2 ^ 32)) x00 in
  let k0 := mkKV ∅ (mkFile "db.log" 0 false false) "db.log" in
  let s0 := mkOS {[ "db.log" := [] ]} [] in
  ∃ k1 s1 k2 s2,
    KV_Set k0 key [] s0 = (None, k1, s1) ∧
    range_order (data k1) [(key, [])] ∧
    Compact [(key, [])] k1 s1 = (None, k2, s2) ∧
    data k2 = {[ key := [] ]} ∧
    ∀ k3 s3, NewKV "db.log" s2 = (Ok k3, s3) → data k3 ≠ data k2.
Proof.
  intros key k0 s0.
  assert (len key = 2 ^ 32) as Hkey.
  { unfold key, len. rewrite length_replicate. by rewrite Z2Nat.id. }
  clearbody key.
  assert (store_ok k0 s0 []) as Hok.
  { split; [done|]. split_and!; [done..|by right]. }
  eexists _, _, _, _. split; [by apply KV_Set_store_ok|].
  split; [|split; [apply Compact_no_faults|split]].
  - unfold range_order. simpl. by rewrite insert_empty, map_to_list_singleton.
  - done.
  - done.
  - simpl. unfold tmpName. simpl.
    rewrite lookup_insert_ne by done. by rewrite lookup_singleton_ne.
  - simpl. by rewrite insert_empty.
  - simpl. intros k3 s3 HN E.
    apply NewKV_keys_short in HN. rewrite E, insert_empty in HN.
    specialize (HN key [] (lookup_singleton_eq _ _)). simpl in HN. lia.
Qed.

(** C2. The rollback of [Compact] before the swap is incomplete. On a store
    that holds one key, with the log as [Set] wrote it:
    - when renaming the temporary file to the staging name fails (the sixth
      system call), [Compact] removes the temporary file: nothing is left;
    - when opening the directory for the sync fails (the seventh call), or
      closing the handle of the live log fails (the tenth), [Compact]
      returns the error with the table and the content of the live log
      unchanged, but it leaves the staging file [db.log.compact.new] behind;
      in the second case the store is also left with a closed handle.
    The paths that fail before the staging rename remove what they created;
    the paths that fail after it do not. *)
Theorem compact_leaves_staging_file_behind :
  let live := entry_frame (buildSetPayload [x6b] [x76]) in
  let k := mkKV {[ [x6b] := [x76] ]}
                (mkFile "db.log" (length live) false false) "db.log" in
  let s n := mkOS {[ "db.log" := live ]} (replicate n Succeeds ++ [Fails 0]) in
  (let '(err, k', s') := Compact (map_to_list (data k)) k (s 5%nat) in
   err = Some EIO ∧ data k' = data k ∧ log k' = log k ∧
   files s' = {[ "db.log" := live ]}) ∧
  (let '(err, k', s') := Compact (map_to_list (data k)) k (s 6%nat) in
   err = Some EIO ∧ data k' = data k ∧ log k' = log k ∧
   files s' = {[ "db.log" := live; "db.log.compact.new" := live ]}) ∧
  (let '(err, k', s') := Compact (map_to_list (data k)) k (s 9%nat) in
   err = Some EIO ∧ data k' = data k ∧ f_closed (log k') = true ∧
   files s' = {[ "db.log" := live; "db.log.compact.new" := live ]}).
Proof.
  intros live k s. split_and!.
  - vm_compute. split_and!; reflexivity.
  - vm_compute. split_and!; reflexivity.
  - vm_compute. split_and!; reflexivity.
Qed.

(* ===================================================================== *)
(** * Further properties of the code *)
(* ===================================================================== *)

(** ** The table is the replay of the log *)

Section durability.

Lemma log_of_snoc ps p : log_of (ps ++ [p]) = log_of ps ++ entry_frame p.
Proof. unfold log_of. by rewrite map_app, concat_app; simpl; rewrite app_nil_r. Qed.

Lemma consistent_append k s ops r :
  consistent k s ops → record_fits r →
  consistent
    (mkKV (apply_record r (data k))
          (append_file (log k) (log_of (map encode ops)) (entry_frame (encode r)))
          (logPath k))
    (append_os (log k) s (log_of (map encode ops)) (entry_frame (encode r)))
    (ops ++ [r]).
Proof.
  intros (Hfit & Hok & Hd) Hr. split_and!.
  - apply Forall_app. split; [done|]. by constructor.
  - rewrite map_app. change (map encode [r]) with [encode r].
    rewrite log_of_snoc. by apply store_ok_append.
  - simpl. by rewrite table_of_snoc, Hd.
Qed.

(** Every binding of the table that a sequence of fitting records builds
    fits an entry. *)
Lemma table_of_fits ops :
  Forall record_fits ops →
  map_Forall (λ key value, record_fits (SetRecord key value)) (table_of ops).
Proof.
  intros Hfit key v Hl. apply table_of_lookup in Hl as (ops1 & ops2 & -> & _).
  apply Forall_app in Hfit as [_ Hfit]. by inversion Hfit.
Qed.

Lemma example_consistent : consistent example_store example_os example_ops.
Proof.
  split_and!; [repeat constructor| |done].
  split; [done|]. split_and!; [done..|by right].
Qed.

End durability.

(** X1. Opening a store on a path where no file exists creates an empty log
    there and returns a store with an empty table, whose handle is open at
    the end of that log. *)
Theorem NewKV_creates_missing_log (path : string) (s : OS) :
  faults s = [] → files s !! path = None →
  ∃ k s',
    NewKV path s = (Ok k, s') ∧
    files s' = <[path := []]> (files s) ∧
    logPath k = path ∧ data k = ∅ ∧
    consistent k s' [].
Proof.
  intros Hf Hl. unfold NewKV.
  unfold mbind at 1. unfold IO_bind.
  rewrite (OpenFile_create _ _ _ Hf Hl) by done. cbn [O_APPEND].
  set (s' := mkOS (<[path := []]> (files s)) []).
  assert (files s' !! path = Some (log_of [] ++ [])) as Hl'
    by (unfold s'; simpl; by rewrite lookup_insert_eq).
  pose proof (NewKV_log path s' [] [] eq_refl Hl' (Forall_nil _) tail_clean) as HN.
  unfold NewKV in HN. unfold mbind at 1 in HN. unfold IO_bind in HN.
  rewrite (OpenFile_existing _ _ s' _ eq_refl Hl') in HN by done.
  cbn [O_APPEND] in HN. rewrite HN. simpl.
  eexists _, _. split; [done|]. split_and!; try done.
  split_and!; try done. split; [done|]. simpl.
  split_and!; [done..|by right].
Qed.

(** Opening "db.log" in an empty directory. *)
Lemma NewKV_creates_missing_log_witness :
  ∃ k s', NewKV "db.log" (mkOS ∅ []) = (Ok k, s') ∧
          files s' = {[ "db.log" := [] ]} ∧ data k = ∅.
Proof.
  destruct (NewKV_creates_missing_log "db.log" (mkOS ∅ []))
    as (k & s' & E & Hf & _ & Hd & _); [reflexivity..|].
  exists k, s'. split_and!; [done| |done]. by rewrite Hf.
Defined.

(** X2. On a store whose table is the replay of its log, a [Set] of a record
    that fits an entry succeeds without faults, binds the key (a [Get] of it
    returns the value, a [Get] of any other key is unchanged), and keeps the
    table the replay of the log, which has grown by the one entry. *)
Theorem KV_Set_keeps_log_and_table_in_step
    (k : KV) (s : OS) (ops : list record) (key value : bytes) :
  consistent k s ops →
  record_fits (SetRecord key value) →
  ∃ k' s',
    KV_Set k key value s = (None, k', s') ∧
    consistent k' s' (ops ++ [SetRecord key value]) ∧
    Get k' key = Some value ∧
    (∀ key', key' ≠ key → Get k' key' = Get k key').
Proof.
  intros Hc Hr. pose proof Hc as (_ & Hok & _).
  eexists _, _. split; [by apply KV_Set_store_ok|]. split_and!.
  - by apply (consistent_append k s ops (SetRecord key value)).
  - unfold Get. simpl. by rewrite lookup_insert_eq.
  - intros key' Hne. unfold Get. simpl. by rewrite lookup_insert_ne.
Qed.

(** Binding "c" to "3" in the example store. *)
Lemma KV_Set_keeps_log_and_table_in_step_witness :
  ∃ k' s',
    KV_Set example_store [x63] [x33] example_os = (None, k', s') ∧
    consistent k' s' (example_ops ++ [SetRecord [x63] [x33]]) ∧
    Get k' [x63] = Some [x33].
Proof.
  destruct (KV_Set_keeps_log_and_table_in_step
              example_store example_os example_ops [x63] [x33])
    as (k' & s' & E & Hc & Hg & _).
  - apply example_consistent.
  - vm_compute. reflexivity.
  - by exists k', s'.
Defined.

(** X3. On a store whose table is the replay of its log, a [Del] of a key
    whose tombstone fits an entry succeeds without faults, removes the key
    and no other, and keeps the table the replay of the log, which has grown
    by the tombstone. *)
Theorem Del_keeps_log_and_table_in_step
    (k : KV) (s : OS) (ops : list record) (key : bytes) :
  consistent k s ops →
  record_fits (DeleteRecord key) →
  ∃ k' s',
    Del k key s = (None, k', s') ∧
    consistent k' s' (ops ++ [DeleteRecord key]) ∧
    Get k' key = None ∧
    (∀ key', key' ≠ key → Get k' key' = Get k key').
Proof.
  intros Hc Hr. pose proof Hc as (_ & Hok & _).
  eexists _, _. split; [by apply Del_store_ok|]. split_and!.
  - by apply (consistent_append k s ops (DeleteRecord key)).
  - unfold Get. simpl. by rewrite lookup_delete_eq.
  - intros key' Hne. unfold Get. simpl. by rewrite lookup_delete_ne.
Qed.

(** Deleting "b" from the example store. *)
Lemma Del_keeps_log_and_table_in_step_witness :
  ∃ k' s',
    Del example_store [x62] example_os = (None, k', s') ∧
    consistent k' s' (example_ops ++ [DeleteRecord [x62]]) ∧
    Get k' [x62] = None.
Proof.
  destruct (Del_keeps_log_and_table_in_step
              example_store example_os example_ops [x62])
    as (k' & s' & E & Hc & Hg & _).
  - apply example_consistent.
  - vm_compute. reflexivity.
  - by exists k', s'.
Defined.

(** X4. On a store whose table is the replay of its log, with no temporary
    file left over, [Compact] succeeds without faults in whatever order it
    visits the map; it keeps the table, leaves neither the temporary nor the
    staging file, and the table is again the replay of the log, which now
    holds one Set record per binding. *)
Theorem Compact_keeps_log_and_table_in_step
    (k : KV) (s : OS) (ops : list record) (order : list (bytes * bytes)) :
  consistent k s ops →
  range_order (data k) order →
  files s !! tmpName k = None →
  ∃ k' s',
    Compact order k s = (None, k', s') ∧
    data k' = data k ∧
    files s' !! tmpName k = None ∧ files s' !! rotatedName k = None ∧
    consistent k' s' (map (λ kv, SetRecord kv.1 kv.2) order).
Proof.
  intros (Hfit & [Hp (Hc & Hf & Hl & He)] & Hd) Hord Htmp.
  pose proof (tmpName_ne_logPath k). pose proof (rotatedName_ne_logPath k).
  pose proof (tmpName_ne_rotatedName k).
  eexists _, _. split; [by apply Compact_no_faults|]. simpl. split_and!.
  - done.
  - rewrite lookup_insert_ne, lookup_delete_ne by done. done.
  - rewrite lookup_insert_ne by done. by rewrite lookup_delete_eq.
  - unfold consistent. split_and!.
    + apply Forall_map. eapply range_order_fits; [done|].
      rewrite Hd. by apply table_of_fits.
    + split; [done|]. split_and!; simpl; [done..| |by left].
      by rewrite <-snapshot_encode, lookup_insert_eq.
    + simpl. symmetry. by apply table_of_range_order.
Qed.

(** Compacting the example store: three records become one. *)
Lemma Compact_keeps_log_and_table_in_step_witness :
  ∃ k' s',
    Compact (map_to_list (data example_store)) example_store example_os
    = (None, k', s') ∧
    data k' = data example_store ∧
    consistent k' s' [SetRecord [x62] [x32]].
Proof.
  destruct (Compact_keeps_log_and_table_in_step
              example_store example_os example_ops
              (map_to_list (data example_store)))
    as (k' & s' & E & Hd & _ & _ & Hc).
  - apply example_consistent.
  - unfold range_order. reflexivity.
  - reflexivity.
  - by exists k', s'.
Defined.

(** X5. Closing a store whose table is the replay of its log and opening
    its path again gives a store with the same table, in the same state of
    the files. *)
Theorem reopen_rebuilds_table (k : KV) (s : OS) (ops : list record) :
  consistent k s ops →
  ∃ k0 k',
    KV_Close k s = (None, k0, s) ∧ f_closed (log k0) = true ∧
    NewKV (logPath k) s = (Ok k', s) ∧
    data k' = data k ∧ consistent k' s ops.
Proof.
  intros (Hfit & [Hp (Hc & Hf & Hl & He)] & Hd).
  unfold KV_Close, mbind, IO_bind, mret, IO_ret.
  rewrite (Close_no_faults _ _ Hc Hf).
  rewrite Hp in Hl. rewrite <-(app_nil_r (log_of _)) in Hl.
  assert (Forall fits_frame (map encode ops)) as Hframes by (by apply Forall_map).
  rewrite (NewKV_log _ s _ [] Hf Hl Hframes tail_clean).
  rewrite replay_encode by done. fold (table_of ops).
  eexists _, _. split_and!; try done.
  split_and!; try done. split; [done|]. simpl.
  rewrite app_nil_r in *. split_and!; [done..|by right].
Qed.

(** Closing and reopening the example store. *)
Lemma reopen_rebuilds_table_witness :
  ∃ k0 k',
    KV_Close example_store example_os = (None, k0, example_os) ∧
    NewKV "db.log" example_os = (Ok k', example_os) ∧
    Get k' [x61] = None ∧ Get k' [x62] = Some [x32].
Proof.
  destruct (reopen_rebuilds_table example_store example_os example_ops)
    as (k0 & k' & E0 & _ & E & Hd & _).
  - apply example_consistent.
  - exists k0, k'. split_and!; [done|done|..]; unfold Get; by rewrite Hd.
Defined.

(** ** Closing, and what a compaction leaves alone *)

Section frame.

Ltac run_io :=
  unfold mbind, IO_bind, mret, IO_ret, get_files, set_files in *.

Lemma OpenFile_other path fl s r s' p :
  p ≠ path → OpenFile path fl s = (r, s') → files s' !! p = files s !! p.
Proof.
  intros Hp. unfold OpenFile. run_io.
  destruct (next_outcome s) as [o s1] eqn:Ho.
  apply next_outcome_files in Ho. destruct o; [|by intros [= <- <-]; rewrite Ho].
  rewrite Ho.
  destruct (files s !! path); repeat case_match; intros [= <- <-]; simpl;
    rewrite ?lookup_insert_ne by done; by rewrite ?Ho.
Qed.

Lemma Rename_other oldpath newpath s r s' p :
  p ≠ oldpath → p ≠ newpath →
  Rename oldpath newpath s = (r, s') → files s' !! p = files s !! p.
Proof.
  intros Ho' Hn. unfold Rename. run_io.
  destruct (next_outcome s) as [o s1] eqn:Ho.
  apply next_outcome_files in Ho. destruct o; [|by intros [= <- <-]; rewrite Ho].
  rewrite Ho. destruct (files s !! oldpath); intros [= <- <-]; simpl;
    [|by rewrite Ho].
  rewrite lookup_insert_ne by done. by rewrite lookup_delete_ne.
Qed.

(** [Compact] leaves alone every file but the log, the temporary file and
    the staging file, whatever happens. *)
Lemma Compact_other order k s r k' s' p :
  p ≠ logPath k → p ≠ tmpName k → p ≠ rotatedName k →
  Compact order k s = (r, k', s') → files s' !! p = files s !! p.
Proof.
  intros Hp1 Hp2 Hp3. unfold Compact. fold (tmpName k). fold (rotatedName k).
  unfold mbind at 1. unfold IO_bind.
  destruct (OpenFile (tmpName k) _ s) as [[tmpF|e1] s1] eqn:E1;
    pose proof (OpenFile_other _ _ _ _ _ p Hp2 E1) as L1.
  2:{ intros [= <- <- <-]. done. }
  apply OpenFile_success in E1 as [-> _].
  unfold mbind at 1. unfold IO_bind.
  destruct (Compact_write _ _ order s1) as [[r2 tmpF] s2] eqn:E2.
  apply (Compact_write_other _ _ _ _ _ _ _ p) in E2; [|done..].
  destruct r2 as [e2|]; [intros [= <- <- <-]; congruence|].
  unfold mbind at 1. unfold IO_bind.
  destruct (Close tmpF s2) as [[r3 tmpF'] s3] eqn:E3.
  apply Close_files in E3 as [Hf3 _].
  destruct r3 as [e3|].
  { unfold mbind, IO_bind, mret, IO_ret.
    destruct (Remove _ s3) as [rr sr] eqn:ER.
    apply (Remove_other _ _ _ _ p Hp2) in ER.
    intros [= <- <- <-]. by rewrite ER, Hf3, E2. }
  unfold mbind at 1. unfold IO_bind.
  destruct (Rename (tmpName k) (rotatedName k) s3) as [r4 s4] eqn:E4.
  apply (Rename_other _ _ _ _ _ p Hp2 Hp3) in E4.
  destruct r4 as [e4|].
  { unfold mbind, IO_bind, mret, IO_ret.
    destruct (Remove _ s4) as [rr sr] eqn:ER.
    apply (Remove_other _ _ _ _ p Hp2) in ER.
    intros [= <- <- <-]. by rewrite ER, E4, Hf3, E2. }
  assert (files s4 !! p = files s !! p) as L4 by (by rewrite E4, Hf3, E2).
  unfold mbind at 1. unfold IO_bind.
  destruct (Open_dir s4) as [r5 s5] eqn:E5. apply (dir_calls_files s4) in E5.
  destruct r5 as [e5|]; [intros [= <- <- <-]; by rewrite E5|].
  unfold mbind at 1. unfold IO_bind.
  destruct (Sync_dir s5) as [r6 s6] eqn:E6. apply (dir_calls_files s5) in E6.
  destruct r6 as [e6|].
  { unfold mbind, IO_bind, mret, IO_ret.
    destruct (Close_dir s6) as [rr sr] eqn:ER. apply (dir_calls_files s6) in ER.
    intros [= <- <- <-]. by rewrite ER, E6, E5. }
  unfold mbind at 1. unfold IO_bind.
  destruct (Close_dir s6) as [r7 s7] eqn:E7. apply (dir_calls_files s6) in E7.
  destruct r7 as [e7|]; [intros [= <- <- <-]; by rewrite E7, E6, E5|].
  unfold mbind at 1. unfold IO_bind.
  destruct (Close (log k) s7) as [[r8 oldLog] s8] eqn:E8.
  apply Close_files in E8 as [Hf8 _]. cbn [logPath data].
  destruct r8 as [e8|]; [intros [= <- <- <-]; by rewrite Hf8, E7, E6, E5|].
  unfold mbind at 1. unfold IO_bind.
  destruct (Rename (rotatedName k) (logPath k) s8) as [r9 s9] eqn:E9.
  apply (Rename_other _ _ _ _ _ p Hp3 Hp1) in E9.
  assert (files s9 !! p = files s !! p) as L9 by (by rewrite E9, Hf8, E7, E6, E5).
  destruct r9 as [e9|]; [by intros [= <- <- <-]|].
  unfold mbind at 1. unfold IO_bind.
  destruct (Open_dir s9) as [r10 s10] eqn:E10. apply (dir_calls_files s9) in E10.
  destruct r10 as [e10|]; [intros [= <- <- <-]; by rewrite E10|].
  unfold mbind at 1. unfold IO_bind.
  destruct (Sync_dir s10) as [r11 s11] eqn:E11. apply (dir_calls_files s10) in E11.
  destruct r11 as [e11|].
  { unfold mbind, IO_bind, mret, IO_ret.
    destruct (Close_dir s11) as [rr sr] eqn:ER. apply (dir_calls_files s11) in ER.
    intros [= <- <- <-]. by rewrite ER, E11, E10. }
  unfold mbind at 1. unfold IO_bind.
  destruct (Close_dir s11) as [r12 s12] eqn:E12. apply (dir_calls_files s11) in E12.
  destruct r12 as [e12|]; [intros [= <- <- <-]; by rewrite E12, E11, E10|].
  unfold mbind at 1. unfold IO_bind.
  destruct (OpenFile (logPath k) _ s12) as [r13 s13] eqn:E13.
  apply (OpenFile_other _ _ _ _ _ p Hp1) in E13.
  destruct r13; unfold mret, IO_ret; intros [= <- <- <-];
    by rewrite E13, E12, E11, E10.
Qed.

End frame.

(** X6. After [Close], whatever it returned, the handle of the store is
    closed, the table and the files are as before, and every later [Set],
    [Del] and [Close] returns an error without changing the table, writing
    to any file or making a system call. *)
Theorem closed_store_rejects_writes
    (k k0 : KV) (s s0 : OS) (r : option error) :
  KV_Close k s = (r, k0, s0) →
  f_closed (log k0) = true ∧ data k0 = data k ∧ files s0 = files s ∧
  ∀ (key value : bytes) (s1 : OS),
    KV_Set k0 key value s1 = (Some EClosed, k0, s1) ∧
    Del k0 key s1 = (Some EClosed, k0, s1) ∧
    KV_Close k0 s1 = (Some EClosed, k0, s1).
Proof.
  unfold KV_Close, mbind, IO_bind, mret, IO_ret.
  destruct (Close (log k) s) as [[r1 f1] s1] eqn:E. intros [= <- <- <-].
  assert (f_closed f1 = true ∧ files s1 = files s) as [Hc Hf].
  { revert E. unfold Close, mbind, IO_bind, mret, IO_ret.
    destruct (f_closed (log k)) eqn:Hc; [by intros [= <- <- <-]|].
    destruct (next_outcome s) as [o s2] eqn:Ho.
    apply next_outcome_files in Ho. by intros [= <- <- <-]. }
  split_and!; [done..|]. intros key value s2.
  unfold KV_Set, Del, KV_Close, writeLogEntry, Write, Close,
    mbind, IO_bind, mret, IO_ret.
  simpl. by rewrite Hc.
Qed.

(** Closing the example store, then writing to it. *)
Lemma closed_store_rejects_writes_witness :
  ∃ k0,
    KV_Close example_store example_os = (None, k0, example_os) ∧
    KV_Set k0 [x63] [x33] example_os = (Some EClosed, k0, example_os) ∧
    Del k0 [x62] example_os = (Some EClosed, k0, example_os).
Proof.
  eexists. split; [reflexivity|].
  destruct (closed_store_rejects_writes example_store _ example_os _ None eq_refl)
    as (_ & _ & _ & H).
  destruct (H [x63] [x33] example_os) as (HS & _).
  destruct (H [x62] [] example_os) as (_ & HD & _).
  by split.
Defined.

(** X7. When a file already has the name of the temporary file, [Compact]
    returns an error at once: the store is the same, no file has changed,
    and without a fault the error is that the file exists. *)
Theorem Compact_refuses_leftover_temp_file
    (order : list (bytes * bytes)) (k : KV) (s : OS) (c : bytes) :
  files s !! tmpName k = Some c →
  ∃ e s',
    Compact order k s = (Some e, k, s') ∧ files s' = files s ∧
    (faults s = [] → e = EExist ∧ s' = s).
Proof.
  intros Hl. unfold Compact. fold (tmpName k).
  unfold mbind at 1. unfold IO_bind.
  unfold OpenFile, mbind, IO_bind, mret, IO_ret, get_files.
  destruct (next_outcome s) as [o s1] eqn:Ho.
  pose proof (next_outcome_files _ _ _ Ho) as Hfs.
  destruct o.
  - rewrite Hfs, Hl. simpl. eexists _, _. split_and!; [done..|].
    intros Hf. rewrite (next_outcome_no_faults _ Hf) in Ho. by injection Ho as <-.
  - eexists _, _. split_and!; [done..|].
    intros Hf. by rewrite (next_outcome_no_faults _ Hf) in Ho.
Qed.

(** A temporary file left by an earlier run. *)
Lemma Compact_refuses_leftover_temp_file_witness :
  let s := mkOS {[ "db.log" := log_of (map encode example_ops);
                   "db.log.compact.tmp" := [x00] ]} [] in
  Compact (map_to_list (data example_store)) example_store s
  = (Some EExist, example_store, s).
Proof.
  intros s.
  destruct (Compact_refuses_leftover_temp_file
              (map_to_list (data example_store)) example_store s [x00])
    as (e & s' & E & _ & H); [reflexivity|].
  destruct (H eq_refl) as [-> ->]. exact E.
Defined.

(** X8. A compaction that returns an error, whatever failed and whatever
    faults were scheduled, has left the table as it was, and the live log
    either as it was or, when the failure came after the swap, replaced by
    the snapshot of the table. *)
Theorem failed_Compact_keeps_table_and_live_log
    (order : list (bytes * bytes)) (k k' : KV) (s s' : OS) (e : error) :
  Compact order k s = (Some e, k', s') →
  data k' = data k ∧
  (files s' !! logPath k = files s !! logPath k ∨
   files s' !! logPath k = Some (log_of (snapshot order))).
Proof. apply Compact_failure. Qed.

(** A compaction of the example store whose third write fails. *)
Lemma failed_Compact_keeps_table_and_live_log_witness :
  let s := mkOS (files example_os) [Succeeds; Succeeds; Fails 3] in
  ∃ e k' s',
    Compact (map_to_list (data example_store)) example_store s = (Some e, k', s') ∧
    data k' = data example_store ∧
    (files s' !! "db.log" = files s !! "db.log" ∨
     files s' !! "db.log"
     = Some (log_of (snapshot (map_to_list (data example_store))))).
Proof.
  intros s.
  assert (∃ e k' s',
            Compact (map_to_list (data example_store)) example_store s
            = (Some e, k', s')) as (e & k' & s' & E).
  { eexists _, _, _. vm_compute. reflexivity. }
  exists e, k', s'. split; [exact E|].
  exact (failed_Compact_keeps_table_and_live_log _ _ _ _ _ _ E).
Defined.

(** X9. Whatever it returns and whatever faults are scheduled, [Compact]
    changes no file other than the log, the temporary file and the staging
    file. *)
Theorem Compact_touches_only_its_files
    (order : list (bytes * bytes)) (k k' : KV) (s s' : OS)
    (r : option error) (p : string) :
  p ≠ logPath k → p ≠ tmpName k → p ≠ rotatedName k →
  Compact order k s = (r, k', s') →
  files s' !! p = files s !! p.
Proof. apply Compact_other. Qed.

(** A bystander file next to the log, during a compaction that succeeds. *)
Lemma Compact_touches_only_its_files_witness :
  let s := mkOS (<[ "notes.txt" := [x68; x69] ]> (files example_os)) [] in
  ∃ r k' s',
    Compact (map_to_list (data example_store)) example_store s = (r, k', s') ∧
    files s' !! "notes.txt" = Some [x68; x69].
Proof.
  intros s.
  assert (∃ r k' s',
            Compact (map_to_list (data example_store)) example_store s
            = (r, k', s')) as (r & k' & s' & E).
  { eexists _, _, _. vm_compute. reflexivity. }
  exists r, k', s'. split; [exact E|].
  assert ("notes.txt" ≠ logPath example_store) as H1 by (intros [=]).
  assert ("notes.txt" ≠ tmpName example_store) as H2 by (intros [=]).
  assert ("notes.txt" ≠ rotatedName example_store) as H3 by (intros [=]).
  rewrite (Compact_touches_only_its_files _ _ _ _ _ _ "notes.txt" H1 H2 H3 E).
  reflexivity.
Defined.

(** ** Decoding *)

Section decoding.

(** A payload followed by bytes that belong to no field decodes as the
    payload alone. *)
Lemma decode_buildSetPayload_junk key value junk :
  len key < 2 ^ 32 → len value < 2 ^ 32 →
  decode (buildSetPayload key value ++ junk) = Ok (SetRecord key value).
Proof.
  intros Hk Hv.
  pose proof (len_nonneg key). pose proof (len_nonneg value).
  pose proof (len_nonneg junk).
  unfold buildSetPayload.
  set (payload := ([OpSet] ++ _) ++ junk).
  assert (len payload = 9 + len key + len value + len junk) as Hlen.
  { unfold payload. len_simpl. lia. }
  assert (Uint32 (slice payload 1 (1 + 4)) = len key) as Ek.
  { rewrite (slice_middle _ [OpSet] (PutUint32 (uint32 (len key)))
               (key ++ PutUint32 (uint32 (len value)) ++ value ++ junk)).
    - rewrite Uint32_PutUint32 by apply uint32_range. apply uint32_small. lia.
    - unfold payload. by rewrite <-!(assoc_L app).
    - done.
    - done. }
  assert (slice payload (1 + 4) (1 + 4 + len key) = key) as E2.
  { apply (slice_middle _ ([OpSet] ++ PutUint32 (uint32 (len key))) key
             (PutUint32 (uint32 (len value)) ++ value ++ junk)).
    - unfold payload. by rewrite <-!(assoc_L app).
    - len_simpl. lia.
    - len_simpl. lia. }
  assert (Uint32 (slice payload (1 + 4 + len key) (1 + 4 + len key + 4))
          = len value) as Ev.
  { rewrite (slice_middle _ ([OpSet] ++ PutUint32 (uint32 (len key)) ++ key)
             (PutUint32 (uint32 (len value))) (value ++ junk)).
    - rewrite Uint32_PutUint32 by apply uint32_range. apply uint32_small. lia.
    - unfold payload. by rewrite <-!(assoc_L app).
    - len_simpl. lia.
    - len_simpl. lia. }
  assert (slice payload (1 + 4 + len key + 4) (1 + 4 + len key + 4 + len value)
          = value) as E4.
  { apply (slice_middle _ ([OpSet] ++ PutUint32 (uint32 (len key)) ++ key
                           ++ PutUint32 (uint32 (len value))) value junk).
    - unfold payload. by rewrite <-!(assoc_L app).
    - len_simpl. lia.
    - len_simpl. lia. }
  assert (∃ rest, payload = OpSet :: rest) as [rest Hp] by (by eexists).
  clearbody payload. unfold decode. rewrite Hp at 1.
  rewrite decide_True by done.
  rewrite Ek, Ev, E2, E4, Hlen.
  repeat (case_decide; [lia|]). done.
Qed.

Lemma decode_buildDelPayload_junk key junk :
  len key < 2 ^ 32 →
  decode (buildDelPayload key ++ junk) = Ok (DeleteRecord key).
Proof.
  intros Hk. pose proof (len_nonneg key). pose proof (len_nonneg junk).
  unfold buildDelPayload.
  set (payload := ([OpDel] ++ _) ++ junk).
  assert (len payload = 5 + len key + len junk) as Hlen.
  { unfold payload. len_simpl. lia. }
  assert (Uint32 (slice payload 1 (1 + 4)) = len key) as Ek.
  { rewrite (slice_middle _ [OpDel] (PutUint32 (uint32 (len key))) (key ++ junk)).
    - rewrite Uint32_PutUint32 by apply uint32_range. apply uint32_small. lia.
    - unfold payload. by rewrite <-!(assoc_L app).
    - done.
    - done. }
  assert (slice payload (1 + 4) (1 + 4 + len key) = key) as E2.
  { apply (slice_middle _ ([OpDel] ++ PutUint32 (uint32 (len key))) key junk).
    - unfold payload. by rewrite <-!(assoc_L app).
    - len_simpl. lia.
    - len_simpl. lia. }
  assert (∃ rest, payload = OpDel :: rest) as [rest Hp] by (by eexists).
  clearbody payload. unfold decode. rewrite Hp at 1.
  rewrite decide_False by done. rewrite decide_True by done.
  rewrite Ek, E2, Hlen.
  repeat (case_decide; [lia|]). done.
Qed.

End decoding.

(** X10. The decoding reads the fields it needs and ignores what follows
    them: a payload built by [buildSetPayload] or [buildDelPayload] and
    followed by any further bytes decodes to the same record. *)
Theorem decode_ignores_trailing_bytes (key value junk : bytes) :
  len key < 2 ^ 32 → len value < 2 ^ 32 →
  decode (buildSetPayload key value ++ junk) = Ok (SetRecord key value) ∧
  decode (buildDelPayload key ++ junk) = Ok (DeleteRecord key).
Proof.
  intros Hk Hv. split.
  - by apply decode_buildSetPayload_junk.
  - by apply decode_buildDelPayload_junk.
Qed.

(** A Set payload and a Delete payload, each followed by two bytes. *)
Lemma decode_ignores_trailing_bytes_witness :
  decode (buildSetPayload [x6b] [x76] ++ [xff; x00]) = Ok (SetRecord [x6b] [x76]) ∧
  decode (buildDelPayload [x6b] ++ [xff; x00]) = Ok (DeleteRecord [x6b]).
Proof.
  apply (decode_ignores_trailing_bytes [x6b] [x76] [xff; x00]);
    vm_compute; reflexivity.
Defined.

(** X11. A payload that is not empty fails to decode exactly when it is
    malformed: its tag is neither 1 nor 2, or one of its length fields is cut
    short or announces bytes past the end of the payload. Every other
    payload decodes. *)
Theorem decode_fails_exactly_on_malformed (p : bytes) :
  p ≠ [] →
  (∃ e, decode p = Err e) ↔ malformed p.
Proof.
  intros Hp. split.
  - intros [e He]. by apply (decode_error_malformed p e).
  - apply decode_malformed.
Qed.

(** The payload of the single byte 1 does not decode. *)
Lemma decode_fails_exactly_on_malformed_witness :
  (∃ e, decode [x01] = Err e) ∧ malformed [x01].
Proof.
  assert (malformed [x01]) as Hm.
  { apply key_length_cut; [by left|]. vm_compute. reflexivity. }
  split; [|exact Hm].
  apply (decode_fails_exactly_on_malformed [x01]); [discriminate|exact Hm].
Defined.

(** ** Reading any file *)

Section inverse.

Lemma byte_to_Z_high_bits b i : 8 ≤ i → Z.testbit (byte_to_Z b) i = false.
Proof.
  intros Hi. pose proof (byte_to_Z_range b).
  apply (Z.bounded_iff_bits_nonneg 8 (byte_to_Z b)); lia.
Qed.

Lemma byte_to_Z_inj b1 b2 : byte_to_Z b1 = byte_to_Z b2 → b1 = b2.
Proof. intros E. by rewrite <-(byte_of_to_Z b1), E, byte_of_to_Z. Qed.

Lemma Uint32_bits b0 b1 b2 b3 i :
  0 ≤ i →
  Z.testbit (Uint32 [b0; b1; b2; b3]) i
  = Z.testbit (byte_to_Z b3) i || Z.testbit (byte_to_Z b2) (i - 8)
    || Z.testbit (byte_to_Z b1) (i - 16) || Z.testbit (byte_to_Z b0) (i - 24).
Proof.
  intros Hi. unfold Uint32.
  by rewrite !Z.lor_spec, !Z.shiftl_spec by lia.
Qed.

Ltac drop_byte_bits :=
  repeat match goal with
         | |- context [Z.testbit (byte_to_Z ?b) ?j] =>
             first [ rewrite (byte_to_Z_high_bits b j) by lia
                   | rewrite (Z.testbit_neg_r (byte_to_Z b) j) by lia ]
         end.

Lemma byte_of_Uint32_shift b0 b1 b2 b3 :
  byte_of_Z (Z.shiftr (Uint32 [b0; b1; b2; b3]) 24) = b0 ∧
  byte_of_Z (Z.shiftr (Uint32 [b0; b1; b2; b3]) 16) = b1 ∧
  byte_of_Z (Z.shiftr (Uint32 [b0; b1; b2; b3]) 8) = b2 ∧
  byte_of_Z (Uint32 [b0; b1; b2; b3]) = b3.
Proof.
  split_and!; apply byte_to_Z_inj; rewrite byte_to_of_Z;
    change 256 with (2 ^ 8); rewrite <-Z.land_ones by lia;
    apply Z.bits_inj'; intros i Hi;
    rewrite Z.land_spec, ?Z.shiftr_spec, Uint32_bits, Z.testbit_ones by lia;
    (destruct (decide (i < 8));
     [ (replace (i <? 8) with true by lia);
       (replace (0 <=? i) with true by lia);
       drop_byte_bits;
       simpl; rewrite ?orb_false_r, ?andb_true_r; f_equal; lia
     | (replace (i <? 8) with false by lia); rewrite !andb_false_r;
       symmetry; apply byte_to_Z_high_bits; lia ]).
Qed.

Lemma PutUint32_Uint32 b : length b = 4%nat → PutUint32 (Uint32 b) = b.
Proof.
  destruct b as [|b0 [|b1 [|b2 [|b3 [|]]]]]; try done. intros _.
  unfold PutUint32.
  destruct (byte_of_Uint32_shift b0 b1 b2 b3) as (-> & -> & -> & ->). done.
Qed.

End inverse.

Section decomposition.

(** Every byte string is a log followed by a crash tail. *)
Lemma log_decomposition (avail : bytes) :
  ∃ ps t, avail = log_of ps ++ t ∧ Forall fits_frame ps ∧ crash_tail t.
Proof.
  induction avail as [avail IH] using (induction_ltof1 _ (@length byte)).
  unfold ltof in IH.
  destruct (decide (length avail < 8)%nat) as [Hshort|Hlong].
  { exists [], avail. split_and!; [done|constructor|by apply tail_short_header]. }
  set (hdr := take 8 avail). set (rest := drop 8 avail).
  assert (avail = hdr ++ rest) as Hav by (symmetry; apply take_drop).
  assert (length hdr = 8%nat) as Hh by (unfold hdr; rewrite length_take; lia).
  set (a := take 4 hdr). set (sum := drop 4 hdr).
  assert (hdr = a ++ sum) as Hhdr by (symmetry; apply take_drop).
  assert (length a = 4%nat) as Ha by (unfold a; rewrite length_take; lia).
  assert (length sum = 4%nat) as Hsum by (unfold sum; rewrite length_drop; lia).
  destruct (header_fields a sum Ha Hsum) as [E1 E2]. rewrite <-Hhdr in E1, E2.
  pose proof (Uint32_range a) as Hr.
  destruct (decide (len rest < Uint32 a)) as [Hpart|Hfull].
  { exists [], avail. split_and!; [done|constructor|].
    rewrite Hav. apply tail_short_payload; [done|]. by rewrite E1. }
  set (payload := take (Z.to_nat (Uint32 a)) rest).
  set (rest' := drop (Z.to_nat (Uint32 a)) rest).
  assert (rest = payload ++ rest') as Hrest by (symmetry; apply take_drop).
  assert (len payload = Uint32 a) as Hlen.
  { unfold payload, len in *. rewrite length_take. lia. }
  assert (a = PutUint32 (uint32 (len payload))) as Ha'.
  { rewrite Hlen, uint32_small by done. by rewrite PutUint32_Uint32. }
  destruct (decide (Uint32 sum = crc32.ChecksumIEEE payload)) as [Hcrc|Hcrc].
  - destruct (IH rest') as (ps & t & Ht & Hps & Htail).
    { rewrite Hav, Hrest, !length_app. lia. }
    exists (payload :: ps), t. split_and!.
    + change (log_of (payload :: ps)) with (entry_frame payload ++ log_of ps).
      unfold entry_frame, entry_header.
      rewrite <-Hcrc, PutUint32_Uint32, <-Ha' by done.
      by rewrite Hav, Hhdr, Hrest, Ht, <-!(assoc_L app).
    + constructor; [|done]. unfold fits_frame. lia.
    + done.
  - exists [], avail. split_and!; [done|constructor|].
    rewrite Hav, Hhdr, Hrest, Ha', <-(assoc_L app).
    apply tail_checksum_mismatch; [done|lia|done].
Qed.

End decomposition.

Section open_any.

Ltac run_io :=
  unfold mbind, IO_bind, mret, IO_ret, get_files, set_files in *.

Lemma Seek_end_files f s r f' s' : Seek_end f s = (r, f', s') → files s' = files s.
Proof.
  unfold Seek_end. destruct (f_closed f); run_io; [by intros [= <- <- <-]|].
  destruct (next_outcome s) as [o s1] eqn:Ho.
  apply next_outcome_files in Ho. rewrite Ho.
  destruct o, (files s !! f_path f); by intros [= <- <- <-].
Qed.

End open_any.

(** X12. On any file, without faults, [readLog] returns no error, and the
    payloads it returns are those of the longest run of well-formed entries
    at the start of the bytes it reads: these bytes are the entries of the
    returned payloads followed by a crash tail. *)
Theorem readLog_returns_longest_valid_prefix (f : File) (s : OS) (avail : bytes) :
  readable f s avail →
  ∃ ps t f',
    readLog f s = (ps, None, f', s) ∧
    avail = log_of ps ++ t ∧ Forall fits_frame ps ∧ crash_tail t.
Proof.
  intros Hr. destruct (log_decomposition avail) as (ps & t & -> & Hps & Ht).
  destruct (readLog_loop_frames ps f s t [] Hps Ht Hr) as (f' & E & _).
  by exists ps, t, f'.
Qed.

(** Reading a file of three bytes. *)
Lemma readLog_returns_longest_valid_prefix_witness :
  let f := mkFile "db.log" 0 false false in
  let s := mkOS {[ "db.log" := [x01; x02; x03] ]} [] in
  ∃ ps t f',
    readLog f s = (ps, None, f', s) ∧ [x01; x02; x03] = log_of ps ++ t ∧
    crash_tail t.
Proof.
  intros f s.
  destruct (readLog_returns_longest_valid_prefix f s [x01; x02; x03])
    as (ps & t & f' & E & Hd & _ & Ht).
  - split_and!; [reflexivity..|]. by eexists.
  - by exists ps, t, f'.
Defined.

(** X13. Opening a store on any existing file, without faults: the content
    is a run of well-formed entries followed by a crash tail, and [NewKV]
    returns what the replay of the payloads of these entries returns, the
    store with its handle at the end of the file or the error of a payload
    that does not decode. How the file ends never makes the open fail. *)
Theorem NewKV_on_any_file (path : string) (s : OS) (content : bytes) :
  faults s = [] → files s !! path = Some content →
  ∃ ps t,
    content = log_of ps ++ t ∧ Forall fits_frame ps ∧ crash_tail t ∧
    NewKV path s
    = (match replay ps ∅ with
       | Ok d => Ok (mkKV d (mkFile path (length content) false false) path)
       | Err e => Err e
       end, s).
Proof.
  intros Hf Hl. destruct (log_decomposition content) as (ps & t & -> & Hps & Ht).
  exists ps, t. split_and!; [done..|]. by apply NewKV_log.
Qed.

(** Opening a file of three bytes. *)
Lemma NewKV_on_any_file_witness :
  let s := mkOS {[ "db.log" := [x01; x02; x03] ]} [] in
  ∃ ps t r,
    [x01; x02; x03] = log_of ps ++ t ∧ crash_tail t ∧ NewKV "db.log" s = (r, s).
Proof.
  intros s.
  destruct (NewKV_on_any_file "db.log" s [x01; x02; x03])
    as (ps & t & Hd & _ & Ht & E); [reflexivity..|].
  by eexists ps, t, _.
Defined.

(** X14. Whatever it returns and whatever faults are scheduled, [NewKV] on a
    path where a file exists changes no file: it neither truncates nor
    rewrites the log it opens. *)
Theorem NewKV_never_modifies_existing_log
    (path : string) (s s' : OS) (r : result KV) (content : bytes) :
  files s !! path = Some content →
  NewKV path s = (r, s') →
  files s' = files s.
Proof.
  intros Hl. unfold NewKV. unfold mbind at 1. unfold IO_bind.
  destruct (OpenFile path _ s) as [[f|e] s1] eqn:E1.
  2:{ apply OpenFile_failure in E1. unfold mret, IO_ret. by intros [= <- <-]. }
  apply OpenFile_success in E1 as [_ E1]. rewrite Hl in E1.
  destruct E1 as [_ Hf1]. cbn [O_TRUNC] in Hf1.
  unfold mbind at 1. unfold IO_bind, readLog.
  destruct (readLog_loop f [] s1) as [[[entries rerr] f2] s2] eqn:E2.
  apply readLog_loop_handle in E2 as (_ & _ & _ & Hf2 & _).
  destruct rerr as [e|].
  { unfold mbind, IO_bind, mret, IO_ret.
    destruct (Close f2 s2) as [[? ?] s3] eqn:E3. apply Close_files in E3 as [Hf3 _].
    intros [= <- <-]. congruence. }
  destruct (replay entries ∅) as [d|e].
  2:{ unfold mret, IO_ret. intros [= <- <-]. congruence. }
  unfold mbind at 1. unfold IO_bind.
  destruct (Seek_end f2 s2) as [[serr f3] s3] eqn:E3. apply Seek_end_files in E3.
  destruct serr as [e|].
  { unfold mbind, IO_bind, mret, IO_ret.
    destruct (Close f3 s3) as [[? ?] s4] eqn:E4. apply Close_files in E4 as [Hf4 _].
    intros [= <- <-]. congruence. }
  unfold mret, IO_ret. intros [= <- <-]. congruence.
Qed.

(** Opening the example log. *)
Lemma NewKV_never_modifies_existing_log_witness :
  ∃ r s', NewKV "db.log" example_os = (r, s') ∧ files s' = files example_os.
Proof.
  assert (files example_os !! "db.log"
          = Some (log_of (map encode example_ops) ++ [])) as Hl by reflexivity.
  assert (Forall fits_frame (map encode example_ops)) as Hfit
    by (repeat constructor).
  pose proof (NewKV_log "db.log" example_os _ [] eq_refl Hl Hfit tail_clean) as E.
  eexists _, _. split; [exact E|].
  exact (NewKV_never_modifies_existing_log _ _ _ _ _ Hl E).
Defined.

(** ** Checksum *)

Section checksum.

Lemma lxor_cancel_r a b k : Z.lxor a k = Z.lxor b k → a = b.
Proof.
  intros E. apply (f_equal (λ z, Z.lxor z k)) in E.
  by rewrite !Z.lxor_assoc, Z.lxor_nilpotent, !Z.lxor_0_r in E.
Qed.

Lemma shiftr_1_bit0 a : a = 2 * Z.shiftr a 1 + Z.b2z (Z.testbit a 0).
Proof.
  rewrite Z.shiftr_div_pow2 by lia. rewrite Z.bit0_odd.
  change (2 ^ 1) with 2. rewrite (Z.div_mod a 2) at 1 by lia.
  f_equal. rewrite Zmod_odd. by destruct (Z.odd a).
Qed.

Lemma shiftr_1_bit31 a : 0 ≤ a < 2 ^ 32 → Z.testbit (Z.shiftr a 1) 31 = false.
Proof.
  intros Ha. rewrite Z.shiftr_spec by lia.
  apply (Z.bounded_iff_bits_nonneg 32 a); lia.
Qed.

(** One step of the shift register is injective on 32-bit states. *)
Lemma crc32_step_inj a b :
  0 ≤ a < 2 ^ 32 → 0 ≤ b < 2 ^ 32 → crc32.step a = crc32.step b → a = b.
Proof.
  intros Ha Hb. unfold crc32.step.
  pose proof (shiftr_1_bit0 a) as Ea. pose proof (shiftr_1_bit0 b) as Eb.
  pose proof (shiftr_1_bit31 a Ha) as Ba. pose proof (shiftr_1_bit31 b Hb) as Bb.
  assert (Z.testbit crc32.IEEE 31 = true) as Bk by done.
  destruct (Z.testbit a 0), (Z.testbit b 0); cbn [Z.b2z] in *; intros E.
  - apply lxor_cancel_r in E. lia.
  - apply (f_equal (λ z, Z.testbit z 31)) in E.
    rewrite Z.lxor_spec, Ba, Bb, Bk in E. done.
  - apply (f_equal (λ z, Z.testbit z 31)) in E.
    rewrite Z.lxor_spec, Ba, Bb, Bk in E. done.
  - lia.
Qed.

Lemma crc32_steps_range n c :
  0 ≤ c < 2 ^ 32 → 0 ≤ Nat.iter n crc32.step c < 2 ^ 32.
Proof. intros Hc. induction n; simpl; [done|]. by apply crc32_step_range. Qed.

Lemma crc32_steps_inj n a b :
  0 ≤ a < 2 ^ 32 → 0 ≤ b < 2 ^ 32 →
  Nat.iter n crc32.step a = Nat.iter n crc32.step b → a = b.
Proof.
  intros Ha Hb. induction n as [|n IH]; simpl; [done|]. intros E.
  apply IH. apply crc32_step_inj; [by apply crc32_steps_range..|done].
Qed.

Lemma crc32_update_byte_range c x :
  0 ≤ c < 2 ^ 32 → 0 ≤ crc32.update_byte c x < 2 ^ 32.
Proof.
  intros Hc. unfold crc32.update_byte. apply crc32_steps_range.
  pose proof (byte_to_Z_range x). apply lxor_range; lia.
Qed.

(** Folding a byte into the register is injective in the register and in
    the byte. *)
Lemma crc32_update_byte_inj c c' x x' :
  0 ≤ c < 2 ^ 32 → 0 ≤ c' < 2 ^ 32 →
  crc32.update_byte c x = crc32.update_byte c' x' →
  Z.lxor c (byte_to_Z x) = Z.lxor c' (byte_to_Z x').
Proof.
  intros Hc Hc'. unfold crc32.update_byte.
  pose proof (byte_to_Z_range x). pose proof (byte_to_Z_range x').
  apply crc32_steps_inj; apply lxor_range; lia.
Qed.

Lemma crc32_update_inj p : ∀ c c',
  0 ≤ c < 2 ^ 32 → 0 ≤ c' < 2 ^ 32 →
  crc32.update c p = crc32.update c' p → c = c'.
Proof.
  induction p as [|x p IH]; intros c c' Hc Hc'; simpl; [done|]. intros E.
  apply IH in E; [|by apply crc32_update_byte_range..].
  apply crc32_update_byte_inj in E; [|done..]. by apply lxor_cancel_r in E.
Qed.

Lemma crc32_update_app c p q :
  crc32.update c (p ++ q) = crc32.update (crc32.update c p) q.
Proof. unfold crc32.update. by rewrite fold_left_app. Qed.

(** Two payloads that differ in one byte have different checksums. *)
Lemma ChecksumIEEE_one_byte pre post x x' :
  x ≠ x' →
  crc32.ChecksumIEEE (pre ++ x :: post) ≠ crc32.ChecksumIEEE (pre ++ x' :: post).
Proof.
  intros Hx E. unfold crc32.ChecksumIEEE in E. apply lxor_cancel_r in E.
  rewrite !crc32_update_app in E.
  assert (0 ≤ crc32.update 4294967295 pre < 2 ^ 32) as Hc
    by (apply crc32_update_range; lia).
  change (crc32.update ?c (?y :: post))
    with (crc32.update (crc32.update_byte c y) post) in E.
  apply crc32_update_inj in E; [|by apply crc32_update_byte_range..].
  apply crc32_update_byte_inj in E; [|done..].
  apply (f_equal (Z.lxor (crc32.update 4294967295 pre))) in E.
  rewrite <-!Z.lxor_assoc, Z.lxor_nilpotent, !Z.lxor_0_l in E.
  apply Hx. by rewrite <-(byte_of_to_Z x), E, byte_of_to_Z.
Qed.

End checksum.

(** X15. Checksum sensitivity: changing one byte of the payload of a written
    entry changes its CRC-32, so [readLog] stops at that entry: it returns
    the payloads of the entries before it, and no error, whatever follows. *)
Theorem corrupted_payload_byte_stops_replay
    (f : File) (s : OS) (ps : list bytes) (pre post rest : bytes) (x x' : byte) :
  Forall fits_frame ps →
  fits_frame (pre ++ x :: post) →
  x ≠ x' →
  readable f s (log_of ps ++ (entry_header (pre ++ x :: post)
                              ++ (pre ++ x' :: post)) ++ rest) →
  crc32.ChecksumIEEE (pre ++ x' :: post) ≠ crc32.ChecksumIEEE (pre ++ x :: post) ∧
  ∃ f', readLog f s = (ps, None, f', s).
Proof.
  intros Hps Hp Hx Hr. split; [by apply ChecksumIEEE_one_byte|].
  assert (len (pre ++ x' :: post) = len (pre ++ x :: post)) as Hlen
    by (unfold len; by rewrite !length_app).
  assert (crash_tail ((entry_header (pre ++ x :: post) ++ (pre ++ x' :: post))
                      ++ rest)) as Ht.
  { pose proof (ChecksumIEEE_one_byte pre post x' x (not_eq_sym Hx)) as Hsum.
    unfold entry_header. rewrite <-Hlen.
    revert Hsum Hlen. generalize (pre ++ x' :: post). intros p' Hsum Hlen.
    rewrite <-!(assoc_L app).
    apply tail_checksum_mismatch; [done|unfold fits_frame in Hp; lia|].
    rewrite Uint32_PutUint32 by apply ChecksumIEEE_range. congruence. }
  destruct (readLog_loop_frames ps f s _ [] Hps Ht Hr) as (f' & E & _).
  by exists f'.
Qed.

(** The entry of set(k,v) with its last byte changed from "v" to "w". *)
Lemma corrupted_payload_byte_stops_replay_witness :
  let pre := [x01; x00; x00; x00; x01; x6b; x00; x00; x00; x01] in
  let f := mkFile "db.log" 0 false false in
  let s := mkOS {[ "db.log" := log_of [buildDelPayload [x61]]
                               ++ (entry_header (pre ++ x76 :: [])
                                   ++ (pre ++ x77 :: [])) ++ [] ]} [] in
  pre ++ x76 :: [] = buildSetPayload [x6b] [x76] ∧
  ∃ f', readLog f s = ([buildDelPayload [x61]], None, f', s).
Proof.
  intros pre f s. split; [reflexivity|].
  apply (corrupted_payload_byte_stops_replay f s [buildDelPayload [x61]]
           pre [] [] x76 x77).
  - repeat constructor.
  - vm_compute. reflexivity.
  - discriminate.
  - split_and!; [reflexivity..|]. by eexists.
Defined.

(** ** Appends that fail *)

Section torn.

Ltac run_io :=
  unfold mbind, IO_bind, mret, IO_ret, get_files, set_files in *.

(** A write on a handle at the end of its file, whatever happens to it, adds
    a prefix of the data to the file and leaves the handle at the end. *)
Lemma Write_prefix f d s r f' s' content :
  at_end f s content → Write f d s = (r, f', s') →
  ∃ w, w `prefix_of` d ∧
       files s' = <[f_path f := content ++ w]> (files s) ∧
       f_path f' = f_path f ∧ at_end f' s' (content ++ w) ∧
       (r = None → w = d).
Proof.
  intros (Hc & Hl & He). unfold Write. rewrite Hc. run_io.
  destruct (next_outcome s) as [o s1] eqn:Ho.
  apply next_outcome_files in Ho. rewrite Ho, Hl.
  assert ((if f_append f then length content else f_off f) = length content) as ->.
  { destruct He as [-> | ->]; [done|]. by destruct (f_append f). }
  intros [= <- <- <-]. rewrite write_at_end.
  exists (match o with Succeeds => d | Fails n => take n d end).
  split_and!.
  - destruct o; [done|]. apply prefix_take.
  - done.
  - done.
  - split_and!; simpl; [done|by rewrite lookup_insert_eq|].
    right. by rewrite length_app.
  - by destruct o.
Qed.

Lemma writeLogEntry_prefix f payload s r f' s' content :
  at_end f s content → writeLogEntry f payload s = (r, f', s') →
  ∃ w, w `prefix_of` entry_frame payload ∧
       files s' = <[f_path f := content ++ w]> (files s) ∧
       f_path f' = f_path f ∧ at_end f' s' (content ++ w) ∧
       (r = None → w = entry_frame payload).
Proof.
  intros Ha. unfold writeLogEntry. run_io.
  destruct (Write f _ s) as [[r1 f1] s1] eqn:E1.
  apply (Write_prefix _ _ _ _ _ _ _ Ha) in E1 as (w1 & Hw1 & Hf1 & Hp1 & Ha1 & Hr1).
  fold (entry_header payload) in *.
  destruct r1 as [e1|].
  { intros [= <- <- <-]. exists w1. split_and!; [|done..].
    unfold entry_frame. by apply prefix_app_r. }
  rewrite (Hr1 eq_refl) in *.
  destruct (Write f1 _ s1) as [[r2 f2] s2] eqn:E2.
  apply (Write_prefix _ _ _ _ _ _ _ Ha1) in E2 as (w2 & Hw2 & Hf2 & Hp2 & Ha2 & Hr2).
  assert (files s2 = <[f_path f := content ++ entry_header payload ++ w2]> (files s))
    as Hfs by (by rewrite Hf2, Hf1, Hp1, insert_insert_eq, <-(assoc_L app)).
  rewrite <-(assoc_L app) in Ha2.
  destruct r2 as [e2|].
  { intros [= <- <- <-]. exists (entry_header payload ++ w2).
    split_and!; [|done|congruence|done|done].
    unfold entry_frame. by apply prefix_app. }
  rewrite (Hr2 eq_refl) in *.
  destruct (Sync f2 s2) as [r3 s3] eqn:E3. apply Sync_files in E3.
  intros [= <- <- <-]. exists (entry_frame payload).
  split_and!; [done|by rewrite E3|congruence| |done].
  destruct Ha2 as (? & ? & ?). split_and!; [done| |done]. by rewrite E3.
Qed.

(** A proper prefix of an entry is a crash tail. *)
Lemma torn_entry_crash_tail p w :
  fits_frame p → w `prefix_of` entry_frame p →
  w = entry_frame p ∨ crash_tail w.
Proof.
  intros Hp [k Hk]. unfold entry_frame in *.
  assert (length (entry_header p) = 8%nat) as Hh by done.
  destruct (decide (length w < 8)%nat) as [Hs|Hl].
  { right. by apply tail_short_header. }
  assert (w = entry_header p ++ drop 8 w) as Hw.
  { rewrite <-(take_drop 8 w) at 1. f_equal.
    apply (f_equal (take 8)) in Hk.
    rewrite take_app_le in Hk by lia. rewrite take_app_le in Hk by lia.
    by rewrite <-Hh, firstn_all in Hk. }
  assert (p = drop 8 w ++ k) as Hpk.
  { rewrite Hw, <-(assoc_L app) in Hk. by apply app_inv_head in Hk. }
  destruct k as [|b k].
  - left. rewrite app_nil_r in Hpk. congruence.
  - right. rewrite Hw. apply tail_short_payload; [done|].
    destruct (header_fields (PutUint32 (uint32 (len p)))
                (PutUint32 (crc32.ChecksumIEEE p))) as [E1 _]; [done..|].
    unfold entry_header. rewrite E1, Uint32_PutUint32 by apply uint32_range.
    unfold fits_frame in Hp. pose proof (len_nonneg p).
    rewrite uint32_small by lia. apply (f_equal len) in Hpk. len_simpl.
    pose proof (len_nonneg k). lia.
Qed.

(** What a fresh open sees after an append of the record [r] that returned
    an error. *)
Lemma failed_append_reopen k s ops r werr f' s' :
  Forall record_fits ops → record_fits r →
  f_path (log k) = logPath k →
  at_end (log k) s (log_of (map encode ops)) →
  writeLogEntry (log k) (encode r) s = (werr, f', s') →
  faults s' = [] →
  ∃ k'', NewKV (logPath k) s' = (Ok k'', s') ∧
         (data k'' = table_of ops ∨ data k'' = table_of (ops ++ [r])).
Proof.
  intros Hfit Hr Hp Ha HW Hf.
  apply (writeLogEntry_prefix _ _ _ _ _ _ _ Ha) in HW
    as (w & Hw & Hfs & _ & _ & _).
  assert (files s' !! logPath k = Some (log_of (map encode ops) ++ w)) as Hl
    by (by rewrite Hfs, Hp, lookup_insert_eq).
  assert (Forall fits_frame (map encode ops)) as Hframes by (by apply Forall_map).
  destruct (torn_entry_crash_tail _ _ Hr Hw) as [-> | Ht].
  - rewrite <-log_of_snoc in Hl. rewrite <-(app_nil_r (log_of _)) in Hl.
    change (map encode ops ++ [encode r]) with (map encode ops ++ map encode [r]) in Hl.
    rewrite <-map_app in Hl.
    assert (Forall record_fits (ops ++ [r])) as Hfit'
      by (apply Forall_app; split; [done|by constructor]).
    rewrite (NewKV_log _ s' _ [] Hf Hl) by (by apply Forall_map || constructor).
    rewrite replay_encode by done. eexists. split; [done|]. by right.
  - rewrite (NewKV_log _ s' _ w Hf Hl Hframes Ht).
    rewrite replay_encode by done. eexists. split; [done|]. by left.
Qed.

End torn.

(** X16. [writeLogEntry] only appends: on a handle at the end of its file,
    whatever it returns and whatever faults are scheduled, the file
    afterwards is the file before followed by a prefix of the entry, the
    whole entry when no error is returned; the handle is again at the end. *)
Theorem writeLogEntry_only_appends
    (f f' : File) (s s' : OS) (content payload : bytes) (r : option error) :
  at_end f s content →
  writeLogEntry f payload s = (r, f', s') →
  ∃ w, w `prefix_of` entry_frame payload ∧
       files s' = <[f_path f := content ++ w]> (files s) ∧
       at_end f' s' (content ++ w) ∧
       (r = None → w = entry_frame payload).
Proof.
  intros Ha HW.
  destruct (writeLogEntry_prefix _ _ _ _ _ _ _ Ha HW) as (w & ? & ? & ? & ? & ?).
  by exists w.
Qed.

(** An append whose second write fails after two bytes. *)
Lemma writeLogEntry_only_appends_witness :
  let f := mkFile "db.log" 0 false false in
  let s := mkOS {[ "db.log" := [] ]} [Succeeds; Fails 2] in
  ∃ r f' s' w,
    writeLogEntry f [x61; x62; x63] s = (r, f', s') ∧
    w `prefix_of` entry_frame [x61; x62; x63] ∧
    files s' = <[ "db.log" := [] ++ w ]> (files s).
Proof.
  intros f s.
  assert (∃ r f' s', writeLogEntry f [x61; x62; x63] s = (r, f', s'))
    as (r & f' & s' & E).
  { eexists _, _, _. vm_compute. reflexivity. }
  destruct (writeLogEntry_only_appends f f' s s' [] [x61; x62; x63] r)
    as (w & Hw & Hf & _).
  - split_and!; [reflexivity..|by right].
  - exact E.
  - by exists r, f', s', w.
Defined.

(** X17. A [Set] or [Del] that returns an error is all or nothing at the
    next open: the table in memory is unchanged, and a store opened
    afterwards without faults on the same log has either the table from
    before the call or that table with the one change applied, according to
    whether the whole entry reached the file. *)
Theorem failed_write_is_all_or_nothing_at_reopen
    (k k' : KV) (s s' : OS) (ops : list record) (key value : bytes) (e : error) :
  Forall record_fits ops →
  f_path (log k) = logPath k →
  at_end (log k) s (log_of (map encode ops)) →
  data k = table_of ops →
  faults s' = [] →
  (record_fits (SetRecord key value) →
   KV_Set k key value s = (Some e, k', s') →
   data k' = data k ∧
   ∃ k'', NewKV (logPath k) s' = (Ok k'', s') ∧
          (data k'' = data k ∨ data k'' = <[key := value]> (data k))) ∧
  (record_fits (DeleteRecord key) →
   Del k key s = (Some e, k', s') →
   data k' = data k ∧
   ∃ k'', NewKV (logPath k) s' = (Ok k'', s') ∧
          (data k'' = data k ∨ data k'' = delete key (data k))).
Proof.
  intros Hfit Hp Ha Hd Hf. split.
  - intros Hr. unfold KV_Set, mbind, IO_bind, mret, IO_ret.
    destruct (writeLogEntry _ _ s) as [[[e1|] f1] s1] eqn:HW; [|done].
    intros [= <- <- <-]. split; [done|].
    destruct (failed_append_reopen k s ops (SetRecord key value) _ _ _
                Hfit Hr Hp Ha HW Hf) as (k'' & E & Hk).
    exists k''. split; [done|]. rewrite table_of_snoc, <-Hd in Hk. done.
  - intros Hr. unfold Del, mbind, IO_bind, mret, IO_ret.
    destruct (writeLogEntry _ _ s) as [[[e1|] f1] s1] eqn:HW; [|done].
    intros [= <- <- <-]. split; [done|].
    destruct (failed_append_reopen k s ops (DeleteRecord key) _ _ _
                Hfit Hr Hp Ha HW Hf) as (k'' & E & Hk).
    exists k''. split; [done|]. rewrite table_of_snoc, <-Hd in Hk. done.
Qed.

(** A [Set] on the example store whose second write fails after two bytes:
    the next open sees the old table. *)
Lemma failed_write_is_all_or_nothing_at_reopen_witness :
  let s := mkOS (files example_os) [Succeeds; Fails 2] in
  ∃ e k' s' k'',
    KV_Set example_store [x63] [x33] s = (Some e, k', s') ∧
    data k' = data example_store ∧
    NewKV "db.log" s' = (Ok k'', s') ∧
    (data k'' = data example_store
     ∨ data k'' = <[ [x63] := [x33] ]> (data example_store)).
Proof.
  intros s.
  assert (∃ e k' s', KV_Set example_store [x63] [x33] s = (Some e, k', s')
                     ∧ faults s' = [])
    as (e & k' & s' & E & Hf).
  { eexists _, _, _. vm_compute. split; reflexivity. }
  destruct (failed_write_is_all_or_nothing_at_reopen
              example_store k' s s' example_ops [x63] [x33] e) as [H _].
  - repeat constructor.
  - reflexivity.
  - split_and!; [reflexivity..|by right].
  - reflexivity.
  - exact Hf.
  - destruct H as (Hd & k'' & EN & Hk); [vm_compute; reflexivity|exact E|].
    by exists e, k', s', k''.
Defined.

(** ** Appends after a corrupt entry *)

(** X18. [NewKV] puts the handle at the end of the file, also when the
    replay stopped earlier: on a log whose records are followed by an entry
    with a wrong checksum, a [Set] made after the open succeeds and is
    visible in memory, but its entry lands behind the corrupt one, and the
    next open replays the records before the corrupt entry only. *)
Theorem write_after_corrupt_entry_is_not_replayed
    (path : string) (s : OS) (ops : list record)
    (sum payload rest key value : bytes) :
  faults s = [] →
  Forall record_fits ops →
  length sum = 4%nat → fits_frame payload →
  Uint32 sum ≠ crc32.ChecksumIEEE payload →
  files s !! path
  = Some (log_of (map encode ops)
          ++ PutUint32 (uint32 (len payload)) ++ sum ++ payload ++ rest) →
  ∃ k k1 s1 k2,
    NewKV path s = (Ok k, s) ∧ data k = table_of ops ∧
    KV_Set k key value s = (None, k1, s1) ∧ Get k1 key = Some value ∧
    NewKV path s1 = (Ok k2, s1) ∧ data k2 = table_of ops.
Proof.
  intros Hf Hfit Hsum Hp Hcrc Hl.
  assert (Forall fits_frame (map encode ops)) as Hframes by (by apply Forall_map).
  pose proof (tail_checksum_mismatch sum payload rest Hsum Hp Hcrc) as Ht.
  pose proof (NewKV_log path s _ _ Hf Hl Hframes Ht) as HN.
  rewrite replay_encode in HN by done. fold (table_of ops) in HN.
  set (content := log_of (map encode ops) ++ _) in *.
  set (k := mkKV (table_of ops) (mkFile path (length content) false false) path).
  assert (store_ok k s content) as Hok.
  { split; [done|]. split_and!; simpl; [done..|by right]. }
  pose proof (KV_Set_store_ok k s content key value Hok) as HS. cbv zeta in HS.
  set (s1 := append_os _ s content _) in HS.
  assert (files s1 !! path
          = Some (log_of (map encode ops)
                  ++ PutUint32 (uint32 (len payload)) ++ sum ++ payload
                  ++ (rest ++ entry_frame (buildSetPayload key value)))) as Hl1.
  { unfold s1, append_os, content, k. cbn [files f_path log].
    rewrite lookup_insert_eq. by rewrite <-!(assoc_L app). }
  pose proof (tail_checksum_mismatch sum payload
                (rest ++ entry_frame (buildSetPayload key value)) Hsum Hp Hcrc)
    as Ht1.
  pose proof (NewKV_log path s1 _ _ eq_refl Hl1 Hframes Ht1) as HN1.
  rewrite replay_encode in HN1 by done. fold (table_of ops) in HN1.
  eexists k, _, s1, _. split_and!; [exact HN|done|exact HS| |exact HN1|done].
  unfold Get. simpl. by rewrite lookup_insert_eq.
Qed.

(** The example log followed by an entry whose checksum field is zero. *)
Lemma write_after_corrupt_entry_is_not_replayed_witness :
  let bad := PutUint32 (uint32 (len [x02])) ++ [x00; x00; x00; x00] ++ [x02] ++ [] in
  let s := mkOS {[ "db.log" := log_of (map encode example_ops) ++ bad ]} [] in
  ∃ k k1 s1 k2,
    NewKV "db.log" s = (Ok k, s) ∧
    KV_Set k [x63] [x33] s = (None, k1, s1) ∧ Get k1 [x63] = Some [x33] ∧
    NewKV "db.log" s1 = (Ok k2, s1) ∧ Get k2 [x63] = None.
Proof.
  intros bad s.
  destruct (write_after_corrupt_entry_is_not_replayed
              "db.log" s example_ops [x00; x00; x00; x00] [x02] [] [x63] [x33])
    as (k & k1 & s1 & k2 & E0 & _ & E1 & Hg & E2 & Hd).
  - reflexivity.
  - repeat constructor.
  - reflexivity.
  - vm_compute. reflexivity.
  - vm_compute. discriminate.
  - reflexivity.
  - exists k, k1, s1, k2. split_and!; [done..|]. unfold Get. by rewrite Hd.
Defined.

(** ** Reads that fail *)

Section read_faults.

Lemma reads_from_advance f fs d rest n :
  n = length d → reads_from f fs (d ++ rest) → reads_from (advance f n) fs rest.
Proof.
  intros -> (Hc & content & Hl & Hd). split; [done|].
  exists content. split; [done|]. simpl.
  by rewrite <-drop_drop, Hd, drop_app_length.
Qed.

(** A read that the system lets through. *)
Lemma ReadFull_scheduled_ok f fs fl d rest n :
  n = length d → n ≠ 0%nat → reads_from f fs (d ++ rest) →
  ReadFull f n (mkOS fs (Succeeds :: fl)) = (Ok d, advance f n, mkOS fs fl).
Proof.
  intros -> Hn (Hc & content & Hl & Hd). unfold ReadFull.
  rewrite decide_False by done. rewrite Hc.
  unfold mbind, IO_bind, mret, IO_ret, next_outcome, get_files. simpl.
  rewrite Hl, Hd.
  rewrite decide_False by (by destruct d).
  rewrite decide_False by (rewrite length_app; lia).
  by rewrite take_app_length.
Qed.

(** A read that the system fails. *)
Lemma ReadFull_scheduled_fault f fs fl n m :
  n ≠ 0%nat → f_closed f = false →
  ReadFull f n (mkOS fs (Fails m :: fl)) = (Err EIO, f, mkOS fs fl).
Proof.
  intros Hn Hc. unfold ReadFull.
  rewrite decide_False by done. rewrite Hc. done.
Qed.

Lemma ReadFull_empty f s : ReadFull f 0 s = (Ok [], f, s).
Proof. done. Qed.

Lemma read_calls_cons p ps :
  read_calls (p :: ps)
  = ((if decide (p = []) then 1 else 2) + read_calls ps)%nat.
Proof.
  unfold read_calls. rewrite filter_cons. simpl.
  destruct (decide (p ≠ [])), (decide (p = [])); simpl; try done; lia.
Qed.

(** The header of an entry, read and decoded. *)
Lemma entry_header_fields p :
  fits_frame p →
  Z.to_nat (Uint32 (slice (entry_header p) 0 4)) = length p ∧
  Uint32 (slice (entry_header p) 4 8) = crc32.ChecksumIEEE p.
Proof.
  intros Hp. unfold entry_header, fits_frame in *.
  destruct (header_fields (PutUint32 (uint32 (len p)))
              (PutUint32 (crc32.ChecksumIEEE p))) as [-> ->]; [done..|].
  rewrite !Uint32_PutUint32 by (apply uint32_range || apply ChecksumIEEE_range).
  rewrite uint32_small by (unfold len in *; lia). unfold len. split; [lia|done].
Qed.

(** One turn of the loop on a well-formed entry, under a schedule that lets
    its reads through. *)
Lemma readLog_loop_frame_scheduled f fs fl p rest results :
  fits_frame p → reads_from f fs (entry_frame p ++ rest) →
  readLog_loop f results (mkOS fs (replicate (read_calls [p]) Succeeds ++ fl))
  = readLog_loop (advance f (length (entry_frame p))) (results ++ [p]) (mkOS fs fl).
Proof.
  intros Hp Hr. unfold entry_frame in *.
  assert (length (entry_header p) = 8%nat) as Hh by done.
  destruct (entry_header_fields p Hp) as [E1 E2].
  rewrite <-(assoc_L app) in Hr.
  rewrite readLog_loop_body, read_calls_cons.
  change (read_calls []) with 0%nat.
  destruct (decide (p = [])) as [->|Hne].
  - change (replicate (1 + 0) Succeeds ++ fl) with (Succeeds :: fl).
    rewrite (ReadFull_scheduled_ok f fs fl _ _ 8 (eq_sym Hh)) by done.
    rewrite E1. simpl length at 1. rewrite ReadFull_empty.
    rewrite E2, decide_False by (intros HH; by apply HH).
    by rewrite length_app, Hh.
  - change (replicate (2 + 0) Succeeds ++ fl) with (Succeeds :: Succeeds :: fl).
    rewrite (ReadFull_scheduled_ok f fs _ _ _ 8 (eq_sym Hh)) by done.
    apply (reads_from_advance _ _ _ _ 8 (eq_sym Hh)) in Hr.
    rewrite E1.
    rewrite (ReadFull_scheduled_ok _ fs fl p rest (length p) eq_refl)
      by (done || by destruct p).
    rewrite E2, decide_False by (intros HH; by apply HH).
    by rewrite advance_advance, length_app, Hh.
Qed.

Lemma readLog_loop_frames_scheduled ps : ∀ f fs fl rest results,
  Forall fits_frame ps → reads_from f fs (log_of ps ++ rest) →
  readLog_loop f results (mkOS fs (replicate (read_calls ps) Succeeds ++ fl))
  = readLog_loop (advance f (length (log_of ps))) (results ++ ps) (mkOS fs fl).
Proof.
  induction ps as [|p ps IH]; intros f fs fl rest results Hps Hr.
  - simpl. destruct Hr as [Hc _]. by rewrite advance_0, app_nil_r.
  - inversion Hps as [|? ? Hp Hps']; subst.
    change (log_of (p :: ps)) with (entry_frame p ++ log_of ps) in *.
    rewrite <-(assoc_L app) in Hr.
    rewrite read_calls_cons, replicate_add, <-(assoc_L app).
    assert (replicate (if decide (p = []) then 1 else 2) Succeeds
            = replicate (read_calls [p]) Succeeds) as ->.
    { rewrite read_calls_cons. change (read_calls []) with 0%nat.
      by rewrite Nat.add_0_r. }
    rewrite (readLog_loop_frame_scheduled _ _ _ _ _ _ Hp Hr).
    apply (reads_from_advance _ _ _ _ _ eq_refl) in Hr.
    rewrite (IH _ _ _ _ _ Hps' Hr).
    by rewrite advance_advance, length_app, <-(assoc_L app).
Qed.

(** An error of the system while a header is read comes back to the caller;
    one while a payload is read ends the loop as a short payload does. *)
Lemma readLog_header_fault f fs ps rest fl m :
  Forall fits_frame ps → reads_from f fs (log_of ps ++ rest) →
  ∃ f', readLog f (mkOS fs (replicate (read_calls ps) Succeeds ++ Fails m :: fl))
        = (ps, Some EIO, f', mkOS fs fl) ∧
        f_path f' = f_path f ∧ f_append f' = f_append f ∧ f_closed f' = false.
Proof.
  intros Hps Hr. unfold readLog.
  rewrite (readLog_loop_frames_scheduled ps _ _ _ _ [] Hps Hr).
  apply (reads_from_advance _ _ _ _ _ eq_refl) in Hr. destruct Hr as [Hc _].
  rewrite readLog_loop_body, ReadFull_scheduled_fault by done. eauto.
Qed.

Lemma readLog_payload_fault f fs ps p rest fl m :
  Forall fits_frame ps → fits_frame p → p ≠ [] →
  reads_from f fs (log_of ps ++ entry_frame p ++ rest) →
  ∃ f', readLog f (mkOS fs (replicate (read_calls ps + 1) Succeeds
                            ++ Fails m :: fl))
        = (ps, None, f', mkOS fs fl) ∧
        f_path f' = f_path f ∧ f_append f' = f_append f ∧ f_closed f' = false.
Proof.
  intros Hps Hp Hne Hr. unfold readLog.
  rewrite replicate_add, <-(assoc_L app).
  rewrite (readLog_loop_frames_scheduled ps _ _ _ _ [] Hps Hr).
  apply (reads_from_advance _ _ _ _ _ eq_refl) in Hr.
  unfold entry_frame in Hr. rewrite <-(assoc_L app) in Hr.
  assert (length (entry_header p) = 8%nat) as Hh by done.
  destruct (entry_header_fields p Hp) as [E1 _].
  change (replicate 1 Succeeds ++ Fails m :: fl) with (Succeeds :: Fails m :: fl).
  rewrite readLog_loop_body.
  rewrite (ReadFull_scheduled_ok _ fs _ _ _ 8 (eq_sym Hh)) by done.
  rewrite E1, ReadFull_scheduled_fault by (done || by destruct p).
  destruct Hr as [Hc _]. eauto 10.
Qed.

Lemma read_calls_encode ops : read_calls (map encode ops) = (2 * length ops)%nat.
Proof.
  induction ops as [|r ops IH]; [done|]. simpl map. rewrite read_calls_cons, IH.
  rewrite decide_False; [simpl; lia|].
  intros E. apply (f_equal len) in E. by apply encode_nonempty in E.
Qed.

End read_faults.

(** X19. An error of the system during a read is treated according to the
    read that fails: after the entries of [ps] were read, an error while the
    next header is read makes [readLog] return [ps] and the error, but an
    error while the payload of the next entry is read makes it return [ps]
    and no error, as if the log ended there. *)
Theorem readLog_read_errors
    (f : File) (fs : gmap string bytes) (ps : list bytes) (p rest : bytes)
    (fl : list outcome) (m : nat) :
  Forall fits_frame ps → fits_frame p → p ≠ [] →
  reads_from f fs (log_of ps ++ entry_frame p ++ rest) →
  (∃ f', readLog f (mkOS fs (replicate (read_calls ps) Succeeds ++ Fails m :: fl))
         = (ps, Some EIO, f', mkOS fs fl)) ∧
  (∃ f', readLog f (mkOS fs (replicate (read_calls ps + 1) Succeeds
                             ++ Fails m :: fl))
         = (ps, None, f', mkOS fs fl)).
Proof.
  intros Hps Hp Hne Hr. split.
  - destruct (readLog_header_fault f fs ps _ fl m Hps Hr) as (f' & E & _).
    by exists f'.
  - destruct (readLog_payload_fault f fs ps p rest fl m Hps Hp Hne Hr)
      as (f' & E & _).
    by exists f'.
Qed.

(** Two entries; the failure comes after the first was read. *)
Lemma readLog_read_errors_witness :
  let p1 := buildSetPayload [x61] [x31] in
  let p2 := buildSetPayload [x62] [x32] in
  let f := mkFile "db.log" 0 false false in
  let fs : gmap string bytes := {[ "db.log" := log_of [p1] ++ entry_frame p2 ++ [] ]} in
  (∃ f', readLog f (mkOS fs [Succeeds; Succeeds; Fails 0])
         = ([p1], Some EIO, f', mkOS fs [])) ∧
  (∃ f', readLog f (mkOS fs [Succeeds; Succeeds; Succeeds; Fails 0])
         = ([p1], None, f', mkOS fs [])).
Proof.
  intros p1 p2 f fs.
  apply (readLog_read_errors f fs [p1] p2 [] [] 0).
  - repeat constructor.
  - vm_compute. reflexivity.
  - discriminate.
  - split; [reflexivity|]. by eexists.
Defined.

(** X20. An error of the system while [NewKV] reads the payload of a record
    does not make the open fail: the store is returned, open, with the table
    of the records before that one, although the log holds more. *)
Theorem NewKV_read_error_truncates_table
    (path : string) (fs : gmap string bytes) (ops1 ops2 : list record)
    (r : record) (m : nat) :
  Forall record_fits (ops1 ++ r :: ops2) →
  fs !! path = Some (log_of (map encode (ops1 ++ r :: ops2))) →
  ∃ k,
    NewKV path (mkOS fs (replicate (2 * length ops1 + 2) Succeeds ++ [Fails m]))
    = (Ok k, mkOS fs []) ∧
    data k = table_of ops1 ∧
    f_closed (log k) = false.
Proof.
  intros Hfit Hl.
  apply Forall_app in Hfit as [Hfit1 Hfit2].
  inversion Hfit2 as [|? ? Hr Hfit3]; subst.
  assert (Forall fits_frame (map encode ops1)) as Hframes by (by apply Forall_map).
  rewrite map_app in Hl. change (map encode (r :: ops2))
    with (encode r :: map encode ops2) in Hl.
  assert (log_of (map encode ops1 ++ encode r :: map encode ops2)
          = log_of (map encode ops1) ++ entry_frame (encode r)
            ++ log_of (map encode ops2)) as Hlog.
  { unfold log_of. by rewrite map_app, concat_app. }
  rewrite Hlog in Hl.
  unfold NewKV. unfold mbind at 1. unfold IO_bind.
  replace (2 * length ops1 + 2)%nat with (S (2 * length ops1 + 1)) by lia.
  cbn [replicate app].
  assert (OpenFile path (mkFlags true false false false)
            (mkOS fs (Succeeds :: replicate (2 * length ops1 + 1) Succeeds
                      ++ [Fails m]))
          = (Ok (mkFile path 0 false false),
             mkOS fs (replicate (2 * length ops1 + 1) Succeeds ++ [Fails m])))
    as ->.
  { unfold OpenFile, mbind, IO_bind, mret, IO_ret, next_outcome, get_files.
    simpl. by rewrite Hl. }
  assert (reads_from (mkFile path 0 false false) fs
            (log_of (map encode ops1) ++ entry_frame (encode r)
             ++ log_of (map encode ops2))) as Hreads.
  { split; [done|]. by eexists. }
  assert (encode r ≠ []) as Hne.
  { intros E. apply (f_equal len) in E. by apply encode_nonempty in E. }
  destruct (readLog_payload_fault _ fs _ (encode r) _ [] m Hframes Hr Hne Hreads)
    as (f' & E & Hp & Ha & Hc).
  rewrite read_calls_encode in E.
  unfold mbind at 1. unfold IO_bind. rewrite E.
  rewrite replay_encode by done. fold (table_of ops1).
  unfold mbind at 1. unfold IO_bind.
  rewrite (Seek_end_no_faults f' (mkOS fs []) _ Hc eq_refl)
    by (simpl; rewrite Hp; exact Hl).
  unfold mret, IO_ret. eexists. split; [done|]. done.
Qed.

(** The example log, with a failure on the payload of its second record. *)
Lemma NewKV_read_error_truncates_table_witness :
  ∃ k,
    NewKV "db.log"
      (mkOS (files example_os) (replicate 4 Succeeds ++ [Fails 0]))
    = (Ok k, mkOS (files example_os) []) ∧
    data k = {[ [x61] := [x31] ]}.
Proof.
  destruct (NewKV_read_error_truncates_table "db.log" (files example_os)
              [SetRecord [x61] [x31]] [DeleteRecord [x61]]
              (SetRecord [x62] [x32]) 0) as (k & E & Hd & _).
  - repeat constructor.
  - reflexivity.
  - exists k. split; [exact E|]. rewrite Hd. reflexivity.
Defined.
